(** * vs-graph: the graph builder of the VS Code extension

    A shallow embedding of [src/extension.ts] (the builder behind the
    command [vs-graph.showFileGraph]: [buildGraph], [addNode],
    [traverseDirectory], [parseImports]) and of [src/fileParser.ts]
    (the second builder: [FileGraph], [buildFileGraph]), with the
    properties of the specification stated over them.

    Conventions.
    - Text is a [string] over 8-bit code units.
    - Node ids, paths and import specifiers are [string]s.
    - The JavaScript [Map] from ids to node objects is a [gmap] from ids to
      references; a reference is the index of the object in the [nodes]
      array, which holds every node object exactly once.
    - A call that can throw returns a [result]: [fs.statSync] throws on a
      dangling link and on a path through too many links, [ig.ignores]
      on a path it refuses, [JSON.parse] on a text that is not JSON.
    - [path.join], [path.basename] and [path.extname] are ported from
      the scans of Node's POSIX implementation. *)

From Stdlib Require Import Ascii.
From stdpp Require Import gmap strings list fin_maps pretty.

Set Warnings "-register-all".

(** ** A backtracking matcher for the pattern of [parseImports]

    [extension.ts] scans with
    [/import\s+.*?from\s+Q(.+?)Q/g], where Q stands for the class of the
    two quote characters (single and double).  The pattern uses
    literals, character classes, greedy and lazy repetition of a class,
    and one capture group; [regex] has exactly these. *)

Module Regex.

Inductive regex : Type :=
| Lit (c : ascii)
| Class (p : ascii → bool)
| Seq (r1 r2 : regex)
| Star (greedy : bool) (p : ascii → bool)
| Plus (greedy : bool) (p : ascii → bool)
| Group (r : regex).

(** [\s] on the 8-bit alphabet: TAB, LF, VT, FF, CR, SPACE and NBSP. *)
Definition is_space (c : ascii) : bool :=
  let n := nat_of_ascii c in
  (9 <=? n) && (n <=? 13) || (n =? 32) || (n =? 160).

(** [.] (no [s] flag): anything but a line terminator. *)
Definition is_dot (c : ascii) : bool :=
  let n := nat_of_ascii c in
  negb ((n =? 10) || (n =? 13)).

(** The class Q of the two quote characters. *)
Definition is_quote (c : ascii) : bool :=
  let n := nat_of_ascii c in
  (n =? 39) || (n =? 34).

(** A match state: the text still to read and the text of group 1. *)
Definition mstate : Type := list ascii * option (list ascii).

(** Repetition of a class, with the continuation [k] tried in the order
    backtracking tries it: longest first when greedy, shortest first
    when lazy. *)
Fixpoint star (greedy : bool) (p : ascii → bool) (s : list ascii)
    (k : list ascii → option mstate) : option mstate :=
  match s with
  | c :: s' =>
      if p c then
        if greedy then
          match star greedy p s' k with
          | Some r => Some r
          | None => k s
          end
        else
          match k s with
          | Some r => Some r
          | None => star greedy p s' k
          end
      else k s
  | [] => k s
  end.

Fixpoint rmatch (r : regex) (s : list ascii) (cap : option (list ascii))
    (k : list ascii → option (list ascii) → option mstate) : option mstate :=
  match r with
  | Lit c =>
      match s with
      | c' :: s' => if Ascii.eqb c c' then k s' cap else None
      | [] => None
      end
  | Class p =>
      match s with
      | c' :: s' => if p c' then k s' cap else None
      | [] => None
      end
  | Seq r1 r2 => rmatch r1 s cap (λ s1 cap1, rmatch r2 s1 cap1 k)
  | Star g p => star g p s (λ s', k s' cap)
  | Plus g p =>
      match s with
      | c' :: s' => if p c' then star g p s' (λ s'', k s'' cap) else None
      | [] => None
      end
  | Group r1 =>
      rmatch r1 s cap (λ s1 _, k s1 (Some (take (length s - length s1) s)))
  end.

Fixpoint lits (l : list ascii) : regex :=
  match l with
  | [] => Star true (λ _, false)
  | [c] => Lit c
  | c :: l' => Seq (Lit c) (lits l')
  end.

(** [import\s+.*?from\s+Q(.+?)Q] *)
Definition importRegex : regex :=
  Seq (lits (String.list_ascii_of_string "import"))
  (Seq (Plus true is_space)
  (Seq (Star false is_dot)
  (Seq (lits (String.list_ascii_of_string "from"))
  (Seq (Plus true is_space)
  (Seq (Class is_quote)
  (Seq (Group (Plus false is_dot))
       (Class is_quote))))))).

(** A match anchored at the head of [s]. *)
Definition match_here (r : regex) (s : list ascii) : option mstate :=
  rmatch r s None (λ s' cap, Some (s', cap)).

(** [RegExp.prototype.exec] from [lastIndex]: the leftmost position at
    which the pattern matches.  [s] is the text from [lastIndex] on. *)
Fixpoint exec (r : regex) (s : list ascii) : option mstate :=
  match match_here r s with
  | Some m => Some m
  | None =>
      match s with
      | [] => None
      | _ :: s' => exec r s'
      end
  end.

(** The least number of characters a match of [r] reads. *)
Fixpoint min_width (r : regex) : nat :=
  match r with
  | Lit _ | Class _ | Plus _ _ => 1
  | Star _ _ => 0
  | Seq r1 r2 => min_width r1 + min_width r2
  | Group r1 => min_width r1
  end.

End Regex.

(** ** [parseImports] of [extension.ts]

    [while ((match = importRegex.exec(content)) !== null)
       imports.push(match[1])]: with the [g] flag each [exec] resumes
    where the previous match ended.  [parseImports_loop] is the loop, its
    second argument the text from [lastIndex] on; a match consumes at
    least one character, so [S (length content)] iterations are never
    exhausted ([parseImports_loop_fuel]). *)

Fixpoint parseImports_loop (fuel : nat) (s : list ascii) : list string :=
  match fuel with
  | 0 => []
  | S fuel' =>
      match Regex.exec Regex.importRegex s with
      | None => []
      | Some (rest, cap) =>
          String.string_of_list_ascii (default [] cap) :: parseImports_loop fuel' rest
      end
  end.

Definition parseImports (content : string) : list string :=
  let s := String.list_ascii_of_string content in
  parseImports_loop (S (length s)) s.

(** ** Paths

    [path.extname] of Node (POSIX flavour), ported from its scan from
    the end of the path: the extension runs from the last dot of the last
    path component to the end, and is empty when there is no dot, when
    the only dot is the first character of the component, or when the
    component is [..]. *)

Record ext_scan : Type := mkExtScan {
  startDot : Z;
  startPart : Z;
  endPos : Z;
  matchedSlash : bool;
  preDotState : Z;
  stopped : bool
}.

Definition ext_step (path : list ascii) (i : nat) (st : ext_scan) : ext_scan :=
  if stopped st then st else
  let code := nth i path "000"%char in
  if Ascii.eqb code "/"%char then
    if negb (matchedSlash st)
    then mkExtScan (startDot st) (Z.of_nat i + 1) (endPos st)
                   (matchedSlash st) (preDotState st) true
    else st
  else
    let st1 :=
      if (endPos st =? -1)%Z
      then mkExtScan (startDot st) (startPart st) (Z.of_nat i + 1)
                     false (preDotState st) false
      else st in
    if Ascii.eqb code "."%char then
      if (startDot st1 =? -1)%Z
      then mkExtScan (Z.of_nat i) (startPart st1) (endPos st1)
                     (matchedSlash st1) (preDotState st1) false
      else if negb (preDotState st1 =? 1)%Z
      then mkExtScan (startDot st1) (startPart st1) (endPos st1)
                     (matchedSlash st1) 1 false
      else st1
    else if negb (startDot st1 =? -1)%Z
    then mkExtScan (startDot st1) (startPart st1) (endPos st1)
                   (matchedSlash st1) (-1) false
    else st1.

(** The loop [for (let i = path.length - 1; i >= 0; --i)]. *)
Fixpoint ext_loop (path : list ascii) (n : nat) (st : ext_scan) : ext_scan :=
  match n with
  | 0 => st
  | S i => ext_loop path i (ext_step path i st)
  end.

Definition extname (path : string) : string :=
  let l := String.list_ascii_of_string path in
  let st := ext_loop l (length l) (mkExtScan (-1) 0 (-1) true 0 false) in
  if ((startDot st =? -1) || (endPos st =? -1) || (preDotState st =? 0)
      || ((preDotState st =? 1) && (startDot st =? endPos st - 1)
          && (startDot st =? startPart st + 1)))%Z
  then ""
  else String.string_of_list_ascii
         (take (Z.to_nat (endPos st) - Z.to_nat (startDot st))
               (drop (Z.to_nat (startDot st)) l)).

(** [path.join] of Node (POSIX flavour) joins its arguments with a
    separator and normalizes the result.  [normalizeString] is the scan
    of [posix.normalize], character by character from the left; the scan
    keeps the text of the segment it is reading, [segment], which is
    [path.slice(lastSlash + 1, i)] of the original: [lastSlash === i - 1]
    is [segment = []] and [i - lastSlash - 1] is [length segment]. *)

Record norm_scan : Type := mkNormScan {
  res : list ascii;
  lastSegmentLength : nat;
  segment : list ascii;
  dots : Z
}.

Fixpoint lastIndexOf (c : ascii) (l : list ascii) : option nat :=
  match l with
  | [] => None
  | a :: l' =>
      match lastIndexOf c l' with
      | Some k => Some (S k)
      | None => if Ascii.eqb a c then Some 0 else None
      end
  end.

(** The last two characters are dots. *)
Definition ends_in_dots (l : list ascii) : bool :=
  match rev l with
  | a :: b :: _ => Ascii.eqb a "." && Ascii.eqb b "."
  | _ => false
  end.

(** A segment [..] that has nothing to take back. *)
Definition norm_above (allowAboveRoot : bool) (st : norm_scan) : norm_scan :=
  if allowAboveRoot
  then mkNormScan (res st ++ (if bool_decide (res st = [])
                              then [".";"."] else ["/";".";"."])%char)
                  2 [] 0
  else mkNormScan (res st) (lastSegmentLength st) [] 0.

(** The scan at a separator, or at the end of the path. *)
Definition norm_separator (allowAboveRoot : bool) (st : norm_scan)
    : norm_scan :=
  if bool_decide (segment st = []) || (dots st =? 1)%Z then
    mkNormScan (res st) (lastSegmentLength st) [] 0
  else if (dots st =? 2)%Z then
    if (length (res st) <? 2) || negb (lastSegmentLength st =? 2)
       || negb (ends_in_dots (res st))
    then
      if 2 <? length (res st) then
        match lastIndexOf "/" (res st) with
        | None => mkNormScan [] 0 [] 0
        | Some k =>
            let r := take k (res st) in
            mkNormScan r
              (match lastIndexOf "/" r with
               | None => length r
               | Some j => length r - 1 - j
               end)
              [] 0
        end
      else if negb (length (res st) =? 0) then mkNormScan [] 0 [] 0
      else norm_above allowAboveRoot st
    else norm_above allowAboveRoot st
  else
    mkNormScan (if bool_decide (res st = []) then segment st
                else res st ++ "/"%char :: segment st)
               (length (segment st)) [] 0.

Definition norm_step (allowAboveRoot : bool) (st : norm_scan) (code : ascii)
    : norm_scan :=
  if Ascii.eqb code "/" then norm_separator allowAboveRoot st
  else if Ascii.eqb code "." && negb (dots st =? -1)%Z
  then mkNormScan (res st) (lastSegmentLength st) (segment st ++ [code])
                  (dots st + 1)
  else mkNormScan (res st) (lastSegmentLength st) (segment st ++ [code]) (-1).

(** The loop runs once more at the end of the path, as at a separator,
    unless the path ends in one. *)
Definition normalizeString (path : list ascii) (allowAboveRoot : bool)
    : list ascii :=
  let st := foldl (norm_step allowAboveRoot) (mkNormScan [] 0 [] 0) path in
  match last path with
  | Some code =>
      if Ascii.eqb code "/" then res st
      else res (norm_separator allowAboveRoot st)
  | None => res (norm_separator allowAboveRoot st)
  end.

Definition isAbsolute (path : list ascii) : bool :=
  match path with
  | c :: _ => Ascii.eqb c "/"
  | [] => false
  end.

Definition trailingSeparator (path : list ascii) : bool :=
  match last path with
  | Some c => Ascii.eqb c "/"
  | None => false
  end.

(** [path.normalize(path)]. *)
Definition normalize (path : string) : string :=
  let l := String.list_ascii_of_string path in
  if bool_decide (l = []) then "."
  else
    let p := normalizeString l (negb (isAbsolute l)) in
    if bool_decide (p = []) then
      if isAbsolute l then "/"
      else if trailingSeparator l then "./" else "."
    else
      let p' := if trailingSeparator l then p ++ ["/"%char] else p in
      String.string_of_list_ascii (if isAbsolute l then "/"%char :: p' else p').

(** [path.join(a, b)]: arguments that are empty are left out. *)
Definition join (a b : string) : string :=
  if bool_decide (a = "") then
    if bool_decide (b = "") then "." else normalize b
  else if bool_decide (b = "") then normalize a
  else normalize (a +:+ "/" +:+ b).

(** [path.relative(rootPath, path.join(dir, file))] for [dir] inside the
    root and [file] a directory entry name: the path of [dir] relative to
    the root ([""] for the root itself) extended by [file]. *)
Definition relative_join (dir file : string) : string :=
  if bool_decide (dir = "") then file else dir +:+ "/" +:+ file.

(** ** The file system

    A directory is the list [readdirSync] returns, each name paired with
    what the name denotes.  [Symlink p] is a symbolic link to the real
    path [p], given by its components from the root: following it is
    following one link; a link to nothing is dangling. *)

Inductive entry : Type :=
| File (content : string)
| Dir (children : list (string * entry))
| Symlink (realpath : list string).

Abbreviation listing := (list (string * entry)).

Fixpoint entry_named (name : string) (files : listing) : option entry :=
  match files with
  | [] => None
  | (n, e) :: rest => if bool_decide (n = name) then Some e else entry_named name rest
  end.

Fixpoint real_lookup (e : entry) (p : list string) : option entry :=
  match p with
  | [] => Some e
  | name :: p' =>
      match e with
      | Dir children =>
          match entry_named name children with
          | Some e' => real_lookup e' p'
          | None => None
          end
      | _ => None
      end
  end.

Inductive error : Type :=
  ENOENT | EISDIR | ELOOP | SyntaxError | TypeError | RangeError.

(** The outcome of running a piece of the builder: it returns, it throws,
    or it is still running when the fuel is spent. *)
Inductive result (A : Type) : Type :=
| Ok (a : A)
| Throw (e : error)
| OutOfFuel.
Arguments Ok {A} a.
Arguments Throw {A} e.
Arguments OutOfFuel {A}.

#[global] Instance result_bind : MBind result := λ A B f r,
  match r with
  | Ok a => f a
  | Throw e => Throw e
  | OutOfFuel => OutOfFuel
  end.

(** What [fs.statSync] reports, with what the builder goes on to read
    there: the text of a file, the listing of a directory. *)
Inductive stats : Type :=
| IsFile (content : string)
| IsDirectory (children : listing).

(** [fs.statSync] of an entry whose directory is reached through no
    symbolic link: it follows the link the entry may be and throws on a
    dangling one. *)
Definition statSync (root : listing) (e : entry) : result stats :=
  match e with
  | File c => Ok (IsFile c)
  | Dir ch => Ok (IsDirectory ch)
  | Symlink p =>
      match real_lookup (Dir root) p with
      | Some (File c) => Ok (IsFile c)
      | Some (Dir ch) => Ok (IsDirectory ch)
      | _ => Throw ENOENT
      end
  end.

(** The kernel follows at most this many symbolic links in resolving
    one path (Linux), and refuses the path with [ELOOP] beyond.  The
    path of the workspace folder itself is taken to go through none. *)
Definition MAXSYMLINKS : nat := 40.

(** The links followed at the last name of a path. *)
Definition hops (e : entry) : nat :=
  match e with
  | Symlink _ => 1
  | _ => 0
  end.

(** [fs.statSync(path.join(dir, file))] where the path [dir] goes through
    [links] symbolic links: the links of the whole path count. *)
Definition statSync_at (root : listing) (links : nat) (e : entry)
    : result stats :=
  if MAXSYMLINKS <? links + hops e then Throw ELOOP else statSync root e.

(** [fs.existsSync(path.join(rootPath, name))]. *)
Definition existsSync (root : listing) (name : string) : bool :=
  match entry_named name root with
  | Some e => match statSync root e with Ok _ => true | _ => false end
  | None => false
  end.

(** [fs.readFileSync(path.join(rootPath, name), 'utf8')]. *)
Definition readFileSync (root : listing) (name : string) : result string :=
  match entry_named name root with
  | Some e =>
      stat ← statSync root e;
      match stat with
      | IsFile c => Ok c
      | IsDirectory _ => Throw EISDIR
      end
  | None => Throw ENOENT
  end.

(** ** The package [ignore]

    [ig.ignores(path)] checks its argument before it matches it
    ([checkPath]): it throws a [TypeError] on the empty path and a
    [RangeError] on a path that is not relative,
    [/^\.*\/|^\.+$/]: dots only, or dots followed by a separator. *)

Fixpoint skip_dots (l : list ascii) : list ascii :=
  match l with
  | c :: l' => if Ascii.eqb c "." then skip_dots l' else l
  | [] => []
  end.

Definition isNotRelative (path : string) : bool :=
  let l := String.list_ascii_of_string path in
  match skip_dots l with
  | [] => negb (bool_decide (l = []))
  | c :: _ => Ascii.eqb c "/"
  end.

(** [ig.ignores(path)], for a matcher whose answer on the paths it
    accepts is [ig]. *)
Definition ignores (ig : string → bool) (path : string) : result bool :=
  if bool_decide (path = "") then Throw TypeError
  else if isNotRelative path then Throw RangeError
  else Ok (ig path).

(** ** The graph model of [extension.ts] *)

Inductive NodeType : Type := file | folder | dependency.

#[global] Instance NodeType_eq_dec : EqDecision NodeType.
Proof. solve_decision. Defined.

Record Node : Type := mkNode {
  id : string;
  imports : list string;
  isExternal : bool;
  type : NodeType
}.

Record Link : Type := mkLink {
  source : string;
  target : string
}.

#[global] Instance Link_eq_dec : EqDecision Link.
Proof. solve_decision. Defined.

(** The three locals of [buildGraph] that its closures share.  [nodeMap]
    holds references into [nodes]. *)
Record state : Type := mkState {
  nodes : list Node;
  links : list Link;
  nodeMap : gmap string nat
}.

Definition init : state := mkState [] [] ∅.

Record Graph : Type := mkGraph {
  g_nodes : list Node;
  g_links : list Link
}.

(** [addNode(id, type, isExternal = false)]: returns the reference of the
    node registered under [id], creating the node when there is none. *)
Definition addNode (i : string) (t : NodeType) (ext : bool) (st : state)
    : nat * state :=
  match nodeMap st !! i with
  | Some r => (r, st)
  | None =>
      let r := length (nodes st) in
      (r, mkState (nodes st ++ [mkNode i [] ext t]) (links st)
                  (<[i := r]> (nodeMap st)))
  end.

(** [node.imports = imports] on the object behind reference [r]. *)
Definition set_imports (r : nat) (imps : list string) (st : state) : state :=
  match nodes st !! r with
  | Some n =>
      mkState (<[r := mkNode (id n) imps (isExternal n) (type n)]> (nodes st))
              (links st) (nodeMap st)
  | None => st
  end.

(** [links.push({ source, target })]. *)
Definition push_link (s t : string) (st : state) : state :=
  mkState (nodes st) (links st ++ [mkLink s t]) (nodeMap st).

(** The directory branch of the loop body, up to the recursive call. *)
Definition visit_folder (relativePath : string) (st : state) : state :=
  (addNode relativePath folder false st).2.

(** The body of the manifest loop. *)
Definition register_dependency (st : state) (dep : string) : state :=
  (addNode dep dependency true st).2.

(** The body of [for (const imp of imports)]. *)
Definition import_step (relativePath : string) (st : state) (imp : string)
    : state :=
  push_link relativePath imp (addNode imp dependency true st).2.

(** The source-file branch of the loop body. *)
Definition visit_source (relativePath content : string) (st : state) : state :=
  let imps := parseImports content in
  let '(node, st1) := addNode relativePath file false st in
  let st2 := set_imports node imps st1 in
  foldl (import_step relativePath) st2 imps.

(** The branch condition
    [path.extname(file) === '.ts' || path.extname(file) === '.js']. *)
Definition is_source (name : string) : bool :=
  bool_decide (extname name = ".ts") || bool_decide (extname name = ".js").

(** ** JSON values, as far as the manifest step looks at them

    [JObj] lists the own properties in the order [Object.keys]
    enumerates them.  Of a number only its being zero is kept: it is all
    the operator [||] observes. *)
Inductive json : Type :=
| JNull
| JBool (b : bool)
| JNum (nonzero : bool)
| JStr (s : string)
| JArr (items : list json)
| JObj (props : list (string * json)).

Fixpoint prop_named (name : string) (props : list (string * json))
    : option json :=
  match props with
  | [] => None
  | (n, v) :: rest => if bool_decide (n = name) then Some v else prop_named name rest
  end.

(** [Object.keys(v)] for a truthy [v]. *)
Definition object_keys (v : json) : list string :=
  match v with
  | JObj props => props.*1
  | JArr items => pretty <$> seq 0 (length items)
  | JStr s => pretty <$> seq 0 (String.length s)
  | _ => []
  end.

Definition truthy (v : json) : bool :=
  match v with
  | JNull => false
  | JBool b => b
  | JNum nonzero => nonzero
  | JStr s => negb (bool_decide (s = ""))
  | _ => true
  end.

(** [Object.keys(packageJson.dependencies || {})]; reading a property of
    [null] throws. *)
Definition dependency_names (packageJson : json) : result (list string) :=
  match packageJson with
  | JNull => Throw TypeError
  | JObj props =>
      match prop_named "dependencies" props with
      | Some v => Ok (if truthy v then object_keys v else [])
      | None => Ok []
      end
  | _ => Ok []
  end.

Section Builder.

(** The two libraries the builder calls.  [ignore_add patterns p] is the
    answer of [ig.ignores(p)] on a path [p] it accepts, for the matcher
    [ig] of the package [ignore] to which the texts [patterns] were
    added, in this order; [JSON_parse text] is [JSON.parse(text)], [None]
    when it throws. *)
Variable ignore_add : list string → string → bool.
Variable JSON_parse : string → option json.

(** The loop [for (const file of files)] of [traverseDirectory(dir)].
    [dir] is kept relative to the root and goes through [links] symbolic
    links, [files] is what is left of the listing of [dir], and [recurse]
    is the recursive call. *)
Fixpoint traverse_files (ig : string → bool) (root : listing)
    (recurse : nat → string → listing → state → result state)
    (links : nat) (dir : string) (files : listing) (st : state)
    : result state :=
  match files with
  | [] => Ok st
  | (name, e) :: rest =>
      let relativePath := relative_join dir name in
      ignored ← ignores ig relativePath;
      if ignored || bool_decide (name = "node_modules")
      then traverse_files ig root recurse links dir rest st
      else
        stat ← statSync_at root links e;
        match stat with
        | IsDirectory children =>
            st' ← recurse (links + hops e) relativePath children
                          (visit_folder relativePath st);
            traverse_files ig root recurse links dir rest st'
        | IsFile content =>
            if is_source name
            then traverse_files ig root recurse links dir rest
                                (visit_source relativePath content st)
            else traverse_files ig root recurse links dir rest st
        end
  end.

(** [traverseDirectory(dir)], its recursion bounded by [fuel]. *)
Fixpoint traverseDirectory (ig : string → bool) (root : listing) (fuel : nat)
    (links : nat) (dir : string) (files : listing) (st : state)
    : result state :=
  match fuel with
  | 0 => OutOfFuel
  | S fuel' =>
      traverse_files ig root (traverseDirectory ig root fuel') links dir files st
  end.

(** The names the manifest step registers:
    [Object.keys(packageJson.dependencies || {})] when [package.json]
    exists, none when it does not. *)
Definition dependencies (root : listing) : result (list string) :=
  if existsSync root "package.json" then
    text ← readFileSync root "package.json";
    match JSON_parse text with
    | None => Throw SyntaxError
    | Some packageJson => dependency_names packageJson
    end
  else Ok [].

(** The manifest step: [dependencies.forEach(dep => { addNode(dep,
    'dependency', true); })]. *)
Definition add_manifest (root : listing) (st : state) : result state :=
  deps ← dependencies root;
  Ok (foldl register_dependency st deps).

(** [new Set(links.flatMap(link => [link.source, link.target]))]. *)
Definition connectedNodes (ls : list Link) : gset string :=
  list_to_set (ls ≫= λ link, [source link; target link]).

(** The returned object: orphan nodes removed, links as they are. *)
Definition prune (st : state) : Graph :=
  mkGraph (filter (λ node, id node ∈ connectedNodes (links st)) (nodes st))
          (links st).

(** [buildGraph()], from the workspace folder on; [None] is no workspace
    folder open. *)
Definition buildGraph (fuel : nat) (workspace : option listing) : result Graph :=
  match workspace with
  | None => Ok (mkGraph [] [])
  | Some root =>
      gitignore ← readFileSync root ".gitignore";
      st ← traverseDirectory (ignore_add [gitignore]) root fuel 0 "" root init;
      st' ← add_manifest root st;
      Ok (prune st')
  end.

End Builder.

(** ** The traversal as a sequence of visits

    What [traverseDirectory] registers depends on the graph only through
    [visit_folder] and [visit_source]; which entries it visits, and in
    which order, depends on the file system alone.  [walk] is that
    order, for a traversal to which no path is refused: whenever
    [traverseDirectory] returns, it has registered the visits of [walk]
    (lemma [traverseDirectory_walk]). *)

Inductive event : Type :=
| Folder (relativePath : string)
| Source (relativePath content : string).

Definition apply_event (st : state) (ev : event) : state :=
  match ev with
  | Folder p => visit_folder p st
  | Source p c => visit_source p c st
  end.

Fixpoint walk_files (ig : string → bool) (root : listing)
    (recurse : string → listing → result (list event))
    (dir : string) (files : listing) : result (list event) :=
  match files with
  | [] => Ok []
  | (name, e) :: rest =>
      let relativePath := relative_join dir name in
      if ig relativePath || bool_decide (name = "node_modules")
      then walk_files ig root recurse dir rest
      else
        stat ← statSync root e;
        match stat with
        | IsDirectory children =>
            below ← recurse relativePath children;
            after ← walk_files ig root recurse dir rest;
            Ok (Folder relativePath :: below ++ after)
        | IsFile content =>
            after ← walk_files ig root recurse dir rest;
            Ok (if is_source name
                then Source relativePath content :: after
                else after)
        end
  end.

Fixpoint walk (ig : string → bool) (root : listing) (fuel : nat)
    (dir : string) (files : listing) : result (list event) :=
  match fuel with
  | 0 => OutOfFuel
  | S fuel' => walk_files ig root (walk ig root fuel') dir files
  end.

(** The import edges a sequence of visits gives rise to. *)
Definition event_links (ev : event) : list Link :=
  match ev with
  | Folder _ => []
  | Source p c => mkLink p <$> parseImports c
  end.



(** ** The second builder, [fileParser.ts] *)

Module FileParser.

Record FileNode : Type := mkFileNode {
  id : string;
  label : string;
  imports : list string
}.

(** [Map<string, FileNode>], in insertion order; [set] on a key that is
    present replaces the value where it stands. *)
Fixpoint map_set (k : string) (v : FileNode) (m : list (string * FileNode))
    : list (string * FileNode) :=
  match m with
  | [] => [(k, v)]
  | (k', v') :: m' =>
      if bool_decide (k = k') then (k, v) :: m' else (k', v') :: map_set k v m'
  end.

(** [path.basename] of Node (POSIX flavour), ported from its scan from
    the end of the path: separators at the end are passed over, and the
    base name runs from the separator before it to the last character
    that is not one. *)
Record base_scan : Type := mkBaseScan {
  startPos : Z;
  endPos : Z;
  matchedSlash : bool;
  stopped : bool
}.

Definition base_step (path : list ascii) (i : nat) (st : base_scan)
    : base_scan :=
  if stopped st then st else
  if Ascii.eqb (nth i path "000"%char) "/"%char then
    if negb (matchedSlash st)
    then mkBaseScan (Z.of_nat i + 1) (endPos st) (matchedSlash st) true
    else st
  else if (endPos st =? -1)%Z
  then mkBaseScan (startPos st) (Z.of_nat i + 1) false false
  else st.

(** The loop [for (let i = path.length - 1; i >= 0; --i)]. *)
Fixpoint base_loop (path : list ascii) (n : nat) (st : base_scan)
    : base_scan :=
  match n with
  | 0 => st
  | S i => base_loop path i (base_step path i st)
  end.

Definition basename (p : string) : string :=
  let l := String.list_ascii_of_string p in
  let st := base_loop l (length l) (mkBaseScan 0 (-1) true false) in
  if (endPos st =? -1)%Z then ""
  else String.string_of_list_ascii
         (take (Z.to_nat (endPos st) - Z.to_nat (startPos st))
               (drop (Z.to_nat (startPos st)) l)).

(** [FileGraph.addNode(filePath, imports)]. *)
Definition addNode (filePath : string) (imps : list string)
    (g : list (string * FileNode)) : list (string * FileNode) :=
  map_set filePath (mkFileNode filePath (basename filePath) imps) g.

(** [FileGraph.getNodes()]: the values of the map, in insertion order. *)
Definition getNodes (g : list (string * FileNode)) : list FileNode := g.*2.

(** [/\.(ts|js|tsx|jsx)$/.test(name)]. *)
Definition has_source_suffix (name : string) : bool :=
  let l := String.list_ascii_of_string name in
  bool_decide (String.list_ascii_of_string ".ts" `suffix_of` l)
  || bool_decide (String.list_ascii_of_string ".js" `suffix_of` l)
  || bool_decide (String.list_ascii_of_string ".tsx" `suffix_of` l)
  || bool_decide (String.list_ascii_of_string ".jsx" `suffix_of` l).

Section Builder.

(** [ignore_add] as above; [ts_imports filePath content] is the list
    that [visit] collects from the tree [ts.createSourceFile] builds: the
    module specifier of every import declaration, in source order. *)
Variable ignore_add : list string → string → bool.
Variable ts_imports : string → string → list string.

(** [traverseDirectory(dirPath)] on the listing of [dirPath]: a [Dirent]
    of a symbolic link is neither [isDirectory()] nor [isFile()], so the
    recursion goes through real subdirectories only and is structural.
    [fullPath] is the path the entry [e] is reached under,
    [relativePath] that path relative to the root, [name] the name of
    the entry. *)
Fixpoint traverse_entry (ig : string → bool) (fullPath relativePath name : string)
    (e : entry) (g : list (string * FileNode))
    : result (list (string * FileNode)) :=
  match e with
  | Dir children =>
      (fix loop (entries : listing) (g : list (string * FileNode)) :=
         match entries with
         | [] => Ok g
         | (n, e') :: rest =>
             let full := join fullPath n in
             let rel := relative_join relativePath n in
             ignored ← ignores ig rel;
             g' ← (if ignored : bool then Ok g
                   else traverse_entry ig full rel n e' g);
             loop rest g'
         end) children g
  | File content =>
      Ok (if has_source_suffix name
          then addNode fullPath (ts_imports fullPath content) g
          else g)
  | Symlink _ => Ok g
  end.

(** [traverseDirectory(rootPath)], where [root] is the listing of the
    directory at [rootPath]. *)
Definition traverseDirectory (ig : string → bool) (rootPath : string)
    (root : listing) : result (list (string * FileNode)) :=
  traverse_entry ig rootPath "" "" (Dir root) [].

(** [buildFileGraph(rootPath)]. *)
Definition buildFileGraph (rootPath : string) (root : listing)
    : result (list (string * FileNode)) :=
  patterns ←
    (if existsSync root ".gitignore"
     then gitignoreContent ← readFileSync root ".gitignore";
          Ok [gitignoreContent]
     else Ok []);
  traverseDirectory (ignore_add (patterns ++ ["node_modules"])) rootPath root.

End Builder.

End FileParser.

(** ** The second traversal as a sequence of registrations

    What [FileParser.traverse_entry] adds to the graph depends on the
    graph only through [FileGraph.addNode]; which files it registers, and
    in which order, depends on the file system alone.  [scan_entry] is
    that order, for a traversal to which no path is refused: the full
    path and the text of each registered file.  Whenever the traversal
    returns, it has registered the files of [scan_entry] (lemma
    [traverse_entry_scan]). *)

Fixpoint scan_entry (ig : string → bool) (fullPath relativePath name : string)
    (e : entry) : list (string * string) :=
  match e with
  | Dir children =>
      (fix loop (entries : listing) : list (string * string) :=
         match entries with
         | [] => []
         | (n, e') :: rest =>
             (if ig (relative_join relativePath n) then []
              else scan_entry ig (join fullPath n)
                              (relative_join relativePath n) n e')
             ++ loop rest
         end) children
  | File content =>
      if FileParser.has_source_suffix name then [(fullPath, content)] else []
  | Symlink _ => []
  end.

(** The loop [for (const entry of entries)] of the second traversal, on
    what is left of a listing. *)
Fixpoint traverse_entries (ts_imports : string → string → list string)
    (ig : string → bool) (fullPath relativePath : string) (entries : listing)
    (g : list (string * FileParser.FileNode))
    : result (list (string * FileParser.FileNode)) :=
  match entries with
  | [] => Ok g
  | (n, e) :: rest =>
      ignored ← ignores ig (relative_join relativePath n);
      g' ← (if ignored : bool then Ok g
            else FileParser.traverse_entry ts_imports ig (join fullPath n)
                   (relative_join relativePath n) n e g);
      traverse_entries ts_imports ig fullPath relativePath rest g'
  end.

(** The arguments of the call [graph.addNode(fullPath, imports)] made
    for a registered file. *)
Definition call_of (ts_imports : string → string → list string)
    (f : string * string) : string * list string :=
  (f.1, ts_imports f.1 f.2).

(** That call on the graph [g]. *)
Definition register_file (ts_imports : string → string → list string)
    (g : list (string * FileParser.FileNode))
    (f : string * string) : list (string * FileParser.FileNode) :=
  FileParser.addNode f.1 (ts_imports f.1 f.2) g.

(** A sequence of calls of [FileGraph.addNode], from the graph [g] on. *)
Definition addNodes (g : list (string * FileParser.FileNode))
    (calls : list (string * list string))
    : list (string * FileParser.FileNode) :=
  foldl (λ g call, FileParser.addNode call.1 call.2 g) g calls.

(** * The vocabulary of the properties *)

(** The ids of the registered nodes, in registration order. *)
Definition ids (st : state) : list string := id <$> nodes st.

(** The map and the array hold the same nodes: the reference stored
    under an id leads to the node with that id, and every node of the
    array is the one stored under its id. *)
Record wf (st : state) : Prop := mkWf {
  wf_map : ∀ i r, nodeMap st !! i = Some r →
           ∃ n, nodes st !! r = Some n ∧ id n = i;
  wf_nodes : ∀ r n, nodes st !! r = Some n → nodeMap st !! id n = Some r
}.

(** No edge dangles: both ends of every edge are registered ids. *)
Definition closed (st : state) : Prop :=
  ∀ l, l ∈ links st → source l ∈ ids st ∧ target l ∈ ids st.

(** The state from which the returned graph is pruned: the visits of the
    traversal registered in order, then the manifest names. *)
Definition built (evs : list event) (deps : list string) : state :=
  foldl register_dependency (foldl apply_event init evs) deps.

(** What is known of a node once the visits [evs] are registered: it is
    external exactly when it is a dependency; a folder node stands for a
    visited directory, a file node for a visited source file; and a node
    that carries imports has the path of a visited source file as its id
    and that file's extracted list as its imports. *)
Record node_origin (evs : list event) (n : Node) : Prop := mkOrigin {
  origin_external : isExternal n = bool_decide (type n = dependency);
  origin_folder : type n = folder → Folder (id n) ∈ evs;
  origin_file : type n = file → ∃ c, Source (id n) c ∈ evs;
  origin_imports :
    imports n = []
    ∨ ∃ c, Source (id n) c ∈ evs ∧ imports n = parseImports c
}.

(** [P] holds of every registered node. *)
Definition all_nodes (P : Node → Prop) (st : state) : Prop :=
  ∀ n, n ∈ nodes st → P n.

(** [carries evs n]: if the id of [n] is the path of a visited source
    file, [n] has the extracted imports of a visited file of that path. *)
Definition carries (evs : list event) (n : Node) : Prop :=
  (∃ c, Source (id n) c ∈ evs) →
  ∃ c, Source (id n) c ∈ evs ∧ imports n = parseImports c.

(** [tracked evs st]: map and array agree, the path of every visited
    source file is a registered id, and every node carries what was
    extracted under its id. *)
Record tracked (evs : list event) (st : state) : Prop := mkTracked {
  tracked_wf : wf st;
  tracked_sources : ∀ p c, Source p c ∈ evs → p ∈ ids st;
  tracked_nodes : all_nodes (carries evs) st
}.

(** A fact about closed terms, settled by evaluating its decision. *)
Ltac closed_fact := apply (bool_decide_unpack _); vm_compute; exact I.

(** Names as directories have them: not empty and without a separator,
    and no two entries of a directory under the same name. *)
Fixpoint slash_free (s : string) : bool :=
  match s with
  | "" => true
  | String c s' => negb (Ascii.eqb c "/") && slash_free s'
  end.

Definition good_name (s : string) : Prop := s ≠ "" ∧ slash_free s = true.

Fixpoint names_ok (e : entry) : Prop :=
  match e with
  | Dir children =>
      NoDup children.*1
      ∧ (fix all (files : listing) : Prop :=
           match files with
           | [] => True
           | (n, e') :: rest => good_name n ∧ names_ok e' ∧ all rest
           end) children
  | _ => True
  end.

(** The path of the entry reached from [dir] through the names [segs]. *)
Definition extend (dir : string) (segs : list string) : string :=
  foldl relative_join dir segs.

(** [located root files segs st]: following the names [segs] from the
    listing [files], as [statSync] resolves them, ends at [st]. *)
Inductive located (root : listing) : listing → list string → stats → Prop :=
| located_here files name e st :
    (name, e) ∈ files → statSync root e = Ok st →
    located root files [name] st
| located_below files name e children segs st :
    (name, e) ∈ files → statSync root e = Ok (IsDirectory children) →
    located root children segs st →
    located root files (name :: segs) st.

(** Where a visit is in the tree. *)
Definition visit_located (root : listing) (dir : string) (files : listing)
    (ev : event) : Prop :=
  ∃ segs, Forall good_name segs ∧
    match ev with
    | Folder p =>
        p = extend dir segs ∧ ∃ children, located root files segs (IsDirectory children)
    | Source p c => p = extend dir segs ∧ located root files segs (IsFile c)
    end.

(** The condition of the loop along a path: no name on the way from
    [dir] through [segs] is ignored or is [node_modules]. *)
Fixpoint admitted (ig : string → bool) (dir : string) (segs : list string)
    : bool :=
  match segs with
  | [] => true
  | name :: segs' =>
      negb (ig (relative_join dir name) || bool_decide (name = "node_modules"))
      && admitted ig (relative_join dir name) segs'
  end.

Definition event_path (ev : event) : string :=
  match ev with
  | Folder p => p
  | Source p _ => p
  end.

(** The name of the entry a path ends at. *)
Definition last_name (segs : list string) : string := default "" (last segs).

(** The paths [ig.ignores] accepts: not empty and relative. *)
Definition accepted (path : string) : bool :=
  negb (bool_decide (path = "")) && negb (isNotRelative path).

(** Where a visit is in the tree, and that the loop lets it through. *)
Definition reached (ig : string → bool) (root : listing) (dir : string)
    (files : listing) (ev : event) : Prop :=
  ∃ segs, admitted ig dir segs = true ∧ event_path ev = extend dir segs ∧
    match ev with
    | Folder _ => ∃ children, located root files segs (IsDirectory children)
    | Source _ c =>
        located root files segs (IsFile c)
        ∧ is_source (last_name segs) = true
    end.

(** The path reached from [dir] after [k] laps around a cycle of
    links, [period] being the names along the cycle. *)
Fixpoint lap (dir : string) (period : list string) (k : nat) : string :=
  match k with
  | 0 => dir
  | S k' => extend (lap dir period k') period
  end.

(** Every character of a text is in a class. *)
Definition all_chars (p : ascii → bool) (s : string) : bool :=
  forallb p (String.list_ascii_of_string s).

(** The text does not go on with a character of the class. *)
Definition no_head (p : ascii → bool) (s : list ascii) : Prop :=
  match s with
  | [] => True
  | c :: _ => p c = false
  end.

(** The index of the last dot of a name. *)
Fixpoint last_dot (l : list ascii) : option nat :=
  match l with
  | [] => None
  | c :: l' =>
      match last_dot l' with
      | Some d => Some (S d)
      | None => if Ascii.eqb c "." then Some 0 else None
      end
  end.

(** The state of the scan of [extname] once it has read [suf], the end
    of a name without separator, with [n] characters still to read. *)
Definition scan_state (n : nat) (suf : list ascii) : ext_scan :=
  match suf with
  | [] => mkExtScan (-1) 0 (-1) true 0 false
  | c :: _ =>
      match last_dot suf with
      | None => mkExtScan (-1) 0 (Z.of_nat (n + length suf)) false 0 false
      | Some d =>
          mkExtScan (Z.of_nat (n + d)) 0 (Z.of_nat (n + length suf)) false
            (match d with
             | 0 => 0
             | S _ => if Ascii.eqb c "." then 1 else -1
             end)
            false
      end
  end.

(** The path under which the second traversal reaches the entry at the
    names [segs] below the directory [dirPath]. *)
Definition full_path (dirPath : string) (segs : list string) : string :=
  foldl join dirPath segs.

(** The count of dots that [normalizeString] keeps while it reads a
    segment. *)
Definition dots_after (d : Z) (name : list ascii) : Z :=
  foldl (λ d c, if Ascii.eqb c "." && negb (d =? -1)%Z
                then (d + 1)%Z else (-1)%Z) d name.

(** What [path.join(dirPath, name)] puts before [name]. *)
Definition join_prefix (dirPath : string) : list ascii :=
  let l := String.list_ascii_of_string dirPath in
  if bool_decide (l = []) then []
  else (if isAbsolute l then ["/"%char] else [])
       ++ (let p := normalizeString l (negb (isAbsolute l)) in
           if bool_decide (p = []) then [] else p ++ ["/"%char]).

(** The name of a directory entry: not empty, without separator, and
    neither [.] nor [..]. *)
Definition entry_name (s : string) : Prop :=
  good_name s ∧ s ≠ "." ∧ s ≠ "..".

(** The same, of the characters of a name. *)
Definition name_chars (name : list ascii) : Prop :=
  name ≠ [] ∧ forallb (λ c, negb (Ascii.eqb c "/")) name = true
  ∧ name ≠ ["."%char] ∧ name ≠ ["."%char; "."%char].

(** A path as [path.join] leaves it, without a separator at its end:
    [path.join] extends it by a separator and the name. *)
Definition joined (dirPath : string) : Prop :=
  dirPath ≠ ""
  ∧ join_prefix dirPath = String.list_ascii_of_string dirPath ++ ["/"%char].

(** No entry is named [.] or [..], as in every listing that
    [readdirSync] returns. *)
Fixpoint dot_free (e : entry) : bool :=
  match e with
  | Dir children =>
      (fix all (files : listing) : bool :=
         match files with
         | [] => true
         | (n, e') :: rest =>
             negb (bool_decide (n = ".")) && negb (bool_decide (n = ".."))
             && dot_free e' && all rest
         end) children
  | _ => true
  end.

(** Entries reached through real directories only, as the second
    traversal goes: a [Dirent] of a symbolic link is not a directory. *)
Inductive real_located : listing → list string → entry → Prop :=
| real_here files name e :
    (name, e) ∈ files → real_located files [name] e
| real_below files name children segs e :
    (name, Dir children) ∈ files → real_located children segs e →
    real_located files (name :: segs) e.

(** No path on the way from [dir] through [segs] is ignored. *)
Fixpoint passes (ig : string → bool) (dir : string) (segs : list string)
    : bool :=
  match segs with
  | [] => true
  | name :: segs' =>
      negb (ig (relative_join dir name))
      && passes ig (relative_join dir name) segs'
  end.

(** Induction on a tree of entries. *)
Fixpoint entry_tree_ind (P : entry → Prop)
    (Hfile : ∀ c, P (File c))
    (Hdir : ∀ children, Forall (λ x, P x.2) children → P (Dir children))
    (Hlink : ∀ p, P (Symlink p)) (e : entry) : P e :=
  match e with
  | File c => Hfile c
  | Dir children =>
      Hdir children
        ((fix go (l : listing) : Forall (λ x, P x.2) l :=
            match l with
            | [] => Forall_nil_2 _
            | x :: l' =>
                Forall_cons_2 _ _ _
                  (entry_tree_ind P Hfile Hdir Hlink x.2) (go l')
            end) children)
  | Symlink p => Hlink p
  end.

(** * Concrete projects *)

(** The matcher of [ignore] for pattern texts without rules, the only
    ones the projects below have. *)
Definition ignore_no_rules : list string → string → bool := λ _ _, false.

Definition dquote : string := String (ascii_of_nat 34) "".
Definition lf : string := String (ascii_of_nat 10) "".

(** The text [{ "dependencies": { "chart.js": "^4.0.0", "react": "^18.0.0" } }],
    written without its spaces. *)
Definition manifest_text : string :=
  "{" +:+ dquote +:+ "dependencies" +:+ dquote +:+ ":{"
      +:+ dquote +:+ "chart.js" +:+ dquote +:+ ":" +:+ dquote +:+ "^4.0.0" +:+ dquote +:+ ","
      +:+ dquote +:+ "react" +:+ dquote +:+ ":" +:+ dquote +:+ "^18.0.0" +:+ dquote
      +:+ "}}".

Definition manifest_json : json :=
  JObj [("dependencies",
         JObj [("chart.js", JStr "^4.0.0"); ("react", JStr "^18.0.0")])].

(** [JSON.parse] on the manifest texts of the projects below: the text
    above, and the truncated text [{], a syntax error. *)
Definition JSON_parse_sample (text : string) : option json :=
  if bool_decide (text = manifest_text) then Some manifest_json else None.

Definition main_text : string :=
  "import React from 'react'" +:+ lf +:+ "import { helper } from './util'".

(** A small project: two source files under [src], one importing the
    other and a package; an empty [.gitignore]; the manifest above. *)
Definition project : listing :=
  [ (".gitignore", File "");
    ("package.json", File manifest_text);
    ("src", Dir [ ("main.ts", File main_text);
                  ("util.ts", File "export const helper = 1") ]) ].

Definition project_broken_manifest : listing :=
  [ (".gitignore", File "");
    ("package.json", File "{");
    ("main.ts", File "import React from 'react'") ].

Definition project_cycle : listing :=
  [ (".gitignore", File "");
    ("loop", Symlink []) ].

(** A root where [link] is a symbolic link to the directory [lib]. *)
Definition project_alias : listing :=
  [ (".gitignore", File "");
    ("lib", Dir [ ("a.ts", File "import b from './b'") ]);
    ("link", Symlink ["lib"]) ].

Definition graph_alias : Graph :=
  mkGraph [ mkNode "lib/a.ts" ["./b"] false file;
            mkNode "./b" [] true dependency;
            mkNode "link/a.ts" ["./b"] false file ]
          [ mkLink "lib/a.ts" "./b"; mkLink "link/a.ts" "./b" ].

Definition project_no_gitignore : listing :=
  [ ("main.ts", File "import React from 'react'") ].

Definition project_tsx : listing :=
  [ (".gitignore", File "");
    ("App.tsx", File "import React from 'react'") ].

Definition project_ts : listing :=
  [ (".gitignore", File "");
    ("App.ts", File "import React from 'react'") ].

Definition project_lone : listing :=
  [ (".gitignore", File ""); ("lone.ts", File "export const x = 1") ].

Definition project_chartjs : listing :=
  [ (".gitignore", File "");
    ("chart.js", File "import { helper } from './helper'");
    ("package.json", File manifest_text) ].

Definition project_chartjs_used : listing :=
  [ (".gitignore", File "");
    ("chart.js", File "import { helper } from './helper'");
    ("package.json", File manifest_text);
    ("page.js", File "import Chart from 'chart.js'") ].

Definition project_src_import : listing :=
  [ (".gitignore", File "");
    ("src", Dir [ ("a.ts",
                   File ("import a from 'src'" +:+ lf +:+
                         "import b from 'src'")) ]) ].

Definition project_rooted_imports : listing :=
  [ (".gitignore", File "");
    ("src", Dir [ ("a.ts", File "import { b } from 'src/b.ts'");
                  ("b.ts", File "import c from 'c'") ]) ].

Definition graph_rooted_imports : Graph :=
  mkGraph [ mkNode "src/a.ts" ["src/b.ts"] false file;
            mkNode "src/b.ts" ["c"] true dependency;
            mkNode "c" [] true dependency ]
          [ mkLink "src/a.ts" "src/b.ts"; mkLink "src/b.ts" "c" ].

Definition graph_chartjs : Graph :=
  mkGraph [ mkNode "chart.js" ["./helper"] false file;
            mkNode "./helper" [] true dependency ]
          [ mkLink "chart.js" "./helper" ].

Definition graph_chartjs_used : Graph :=
  mkGraph [ mkNode "chart.js" ["./helper"] false file;
            mkNode "./helper" [] true dependency;
            mkNode "page.js" ["chart.js"] false file ]
          [ mkLink "chart.js" "./helper"; mkLink "page.js" "chart.js" ].

Definition graph_src_import : Graph :=
  mkGraph [ mkNode "src" [] false folder;
            mkNode "src/a.ts" ["src"; "src"] false file ]
          [ mkLink "src/a.ts" "src"; mkLink "src/a.ts" "src" ].

Definition graph_project : Graph :=
  mkGraph [ mkNode "src/main.ts" ["react"; "./util"] false file;
            mkNode "react" [] true dependency;
            mkNode "./util" [] true dependency ]
          [ mkLink "src/main.ts" "react"; mkLink "src/main.ts" "./util" ].

Definition visits_project : list event :=
  [ Folder "src";
    Source "src/main.ts" main_text;
    Source "src/util.ts" "export const helper = 1" ].

Definition twice_text : string :=
  "import { a } from './util'" +:+ lf +:+ "import { b } from './util'".

Definition project_twice : listing :=
  [ (".gitignore", File ""); ("main.ts", File twice_text) ].

Definition graph_twice : Graph :=
  mkGraph [ mkNode "main.ts" ["./util"; "./util"] false file;
            mkNode "./util" [] true dependency ]
          [ mkLink "main.ts" "./util"; mkLink "main.ts" "./util" ].

(** A root with a symbolic link that resolves to nothing. *)
Definition project_dangling : listing :=
  [ (".gitignore", File ""); ("broken", Symlink ["nowhere"]) ].

(** A stand-in for the TypeScript parser on the texts of the projects
    above, on which the scanner of the first builder returns what the
    syntax tree holds. *)
Definition ts_imports_sample : string → string → list string :=
  λ _ content, parseImports content.

(** * Properties *)

(** ** The scanner *)

Example parseImports_one :
  parseImports "import a from 'b'" = ["b"].
Proof. vm_compute. reflexivity. Qed.

Example extname_ts : extname "a.ts" = ".ts".
Proof. reflexivity. Qed.
Example extname_tsx : extname "App.tsx" = ".tsx".
Proof. reflexivity. Qed.
Example extname_dotfile : extname ".ts" = "".
Proof. reflexivity. Qed.
Example extname_two_dots : extname "..ts" = ".ts".
Proof. reflexivity. Qed.
Example extname_parent : extname ".." = "".
Proof. reflexivity. Qed.
Example extname_last : extname "a.test.js" = ".js".
Proof. reflexivity. Qed.

Module RegexFacts.
Import Regex.

Lemma star_reads g p s k m :
  star g p s k = Some m → ∃ s', length s' ≤ length s ∧ k s' = Some m.
Proof.
  induction s as [|c s IH]; simpl; intros H.
  - exists []. auto.
  - destruct (p c); [|exists (c :: s); auto].
    destruct g.
    + destruct (star true p s k) eqn:E.
      * destruct (IH H) as (s' & Hle & Hk). exists s'. split; [lia|done].
      * exists (c :: s). auto.
    + destruct (k (c :: s)) eqn:E.
      * exists (c :: s). split; [done|congruence].
      * destruct (IH H) as (s' & Hle & Hk). exists s'. split; [lia|done].
Qed.

Lemma rmatch_reads r : ∀ s cap k m,
  rmatch r s cap k = Some m →
  ∃ s' cap', length s' + min_width r ≤ length s ∧ k s' cap' = Some m.
Proof.
  induction r as [c|p|r1 IH1 r2 IH2|g p|g p|r1 IH1]; simpl; intros s cap k m H.
  - destruct s as [|c' s]; [done|]. destruct (Ascii.eqb c c'); [|done].
    exists s, cap. split; [simpl; lia|done].
  - destruct s as [|c' s]; [done|]. destruct (p c'); [|done].
    exists s, cap. split; [simpl; lia|done].
  - apply IH1 in H as (s1 & cap1 & Hle1 & H).
    apply IH2 in H as (s2 & cap2 & Hle2 & H).
    exists s2, cap2. split; [lia|done].
  - apply star_reads in H as (s' & Hle & H). exists s', cap. split; [lia|done].
  - destruct s as [|c' s]; [done|]. destruct (p c'); [|done].
    apply star_reads in H as (s' & Hle & H). exists s', cap.
    split; [simpl; lia|done].
  - apply IH1 in H as (s1 & cap1 & Hle1 & H). eauto.
Qed.

Lemma match_here_reads r s rest cap :
  match_here r s = Some (rest, cap) → length rest + min_width r ≤ length s.
Proof.
  unfold match_here. intros H.
  apply rmatch_reads in H as (s' & cap' & Hle & H).
  by simplify_eq.
Qed.

Lemma exec_reads r s rest cap :
  exec r s = Some (rest, cap) → length rest + min_width r ≤ length s.
Proof.
  induction s as [|c s IH]; simpl.
  - destruct (match_here r []) as [m|] eqn:E; [|done].
    intros [= ->]. by apply match_here_reads in E.
  - destruct (match_here r (c :: s)) as [m|] eqn:E.
    + intros [= ->]. by apply match_here_reads in E.
    + intros H. apply IH in H. simpl. lia.
Qed.

End RegexFacts.

(** The loop of [parseImports] ends before its fuel does: any two
    amounts of fuel above the length of the text give the same list. *)
Lemma parseImports_loop_fuel n m s :
  length s < n → length s < m → parseImports_loop n s = parseImports_loop m s.
Proof.
  revert m s. induction n as [|n IH]; intros m s Hn Hm; [lia|].
  destruct m as [|m]; [lia|]. simpl.
  destruct (Regex.exec Regex.importRegex s) as [[rest cap]|] eqn:E; [|done].
  apply RegexFacts.exec_reads in E.
  assert (1 ≤ Regex.min_width Regex.importRegex) by (vm_compute; lia).
  f_equal. apply IH; lia.
Qed.

(** Unfolding the loop once: the first match, then the rest of the text. *)
Lemma parseImports_loop_step n s :
  length s < n →
  parseImports_loop n s =
    match Regex.exec Regex.importRegex s with
    | None => []
    | Some (rest, cap) =>
        String.string_of_list_ascii (default [] cap)
          :: parseImports_loop (S (length rest)) rest
    end.
Proof.
  intros Hn. destruct n as [|n]; [lia|].
  change (parseImports_loop (S n) s) with
    (match Regex.exec Regex.importRegex s with
     | None => []
     | Some (rest, cap) =>
         String.string_of_list_ascii (default [] cap) :: parseImports_loop n rest
     end).
  destruct (Regex.exec Regex.importRegex s) as [[rest cap]|] eqn:E; [|done].
  apply RegexFacts.exec_reads in E.
  assert (1 ≤ Regex.min_width Regex.importRegex) by (vm_compute; lia).
  f_equal. apply parseImports_loop_fuel; lia.
Qed.

(** ** The graph model: what each operation does to the state *)

Lemma wf_init : wf init.
Proof.
  split; unfold init; simpl; intros ? ?.
  - by rewrite lookup_empty.
  - by rewrite lookup_nil.
Qed.

Lemma addNode_old i t ext st r :
  nodeMap st !! i = Some r → addNode i t ext st = (r, st).
Proof. unfold addNode. by intros ->. Qed.

Lemma addNode_new i t ext st :
  nodeMap st !! i = None →
  addNode i t ext st =
    (length (nodes st),
     mkState (nodes st ++ [mkNode i [] ext t]) (links st)
             (<[i := length (nodes st)]> (nodeMap st))).
Proof. unfold addNode. by intros ->. Qed.

Lemma addNode_links i t ext st : links (addNode i t ext st).2 = links st.
Proof. unfold addNode. by destruct (nodeMap st !! i). Qed.

Lemma addNode_lookup i t ext st :
  nodeMap (addNode i t ext st).2 !! i = Some (addNode i t ext st).1.
Proof.
  unfold addNode. destruct (nodeMap st !! i) eqn:E; simpl; [done|].
  by rewrite lookup_insert_eq.
Qed.

Lemma addNode_wf i t ext st : wf st → wf (addNode i t ext st).2.
Proof.
  intros [Hm Hn]. destruct (nodeMap st !! i) as [r|] eqn:E.
  { by rewrite (addNode_old _ _ _ _ _ E). }
  rewrite (addNode_new _ _ _ _ E). split; simpl.
  - intros j r. rewrite lookup_insert. case_decide as Hj.
    + intros [= <-]. subst j. exists (mkNode i [] ext t). split; [|done].
      rewrite lookup_app_r by done. by rewrite Nat.sub_diag.
    + intros Hr. destruct (Hm _ _ Hr) as (n & Hn' & Hid).
      exists n. split; [|done]. by apply lookup_app_l_Some.
  - intros r n Hr. apply lookup_app_Some in Hr as [Hr|[Hlen Hr]].
    + pose proof (Hn _ _ Hr) as Hr'.
      rewrite lookup_insert_ne; [done|]. intros ->. congruence.
    + apply list_lookup_singleton_Some in Hr as [Hr <-]. simpl.
      rewrite lookup_insert_eq. f_equal. lia.
Qed.

(** After [addNode(i, ...)] the node behind the returned reference has
    id [i]. *)
Lemma addNode_result i t ext st :
  wf st →
  ∃ n, nodes (addNode i t ext st).2 !! (addNode i t ext st).1 = Some n
       ∧ id n = i.
Proof.
  intros Hwf. apply (wf_map _ (addNode_wf i t ext st Hwf)), addNode_lookup.
Qed.

(** A node of the array after [addNode] was there before, or is the
    fresh one. *)
Lemma addNode_nodes i t ext st n :
  n ∈ nodes (addNode i t ext st).2 → n ∈ nodes st ∨ n = mkNode i [] ext t.
Proof.
  unfold addNode. destruct (nodeMap st !! i); simpl; [auto|].
  rewrite elem_of_app, list_elem_of_singleton. auto.
Qed.

Lemma addNode_keeps i t ext st n :
  n ∈ nodes st → n ∈ nodes (addNode i t ext st).2.
Proof.
  unfold addNode. destruct (nodeMap st !! i); simpl; [auto|].
  rewrite elem_of_app. auto.
Qed.

Lemma addNode_ids_keeps i t ext st j :
  j ∈ ids st → j ∈ ids (addNode i t ext st).2.
Proof.
  unfold ids. rewrite !list_elem_of_fmap. intros (n & -> & Hn).
  exists n. split; [done|]. by apply addNode_keeps.
Qed.

Lemma addNode_ids_registers i t ext st :
  wf st → i ∈ ids (addNode i t ext st).2.
Proof.
  intros Hwf. destruct (addNode_result i t ext st Hwf) as (n & Hn & <-).
  unfold ids. apply list_elem_of_fmap. exists n. split; [done|].
  by eapply list_elem_of_lookup_2.
Qed.

Lemma set_imports_links r imps st : links (set_imports r imps st) = links st.
Proof. unfold set_imports. by destruct (nodes st !! r). Qed.

Lemma set_imports_ids r imps st : ids (set_imports r imps st) = ids st.
Proof.
  unfold set_imports, ids. destruct (nodes st !! r) as [n|] eqn:E; [|done].
  simpl. rewrite list_fmap_insert. simpl. apply list_insert_id.
  by rewrite list_lookup_fmap, E.
Qed.

Lemma set_imports_wf r imps st : wf st → wf (set_imports r imps st).
Proof.
  intros [Hm Hn]. unfold set_imports.
  destruct (nodes st !! r) as [n0|] eqn:E; [|done]. split; simpl.
  - intros j r' Hr'. destruct (Hm _ _ Hr') as (n & Hn' & Hid).
    destruct (decide (r' = r)) as [->|Hne].
    + eexists. split.
      * apply list_lookup_insert_eq. by eapply lookup_lt_Some.
      * simpl. congruence.
    + exists n. by rewrite list_lookup_insert_ne.
  - intros r' n Hr'. destruct (decide (r' = r)) as [->|Hne].
    + rewrite list_lookup_insert_eq in Hr' by (by eapply lookup_lt_Some).
      injection Hr' as <-. simpl. by apply Hn.
    + rewrite list_lookup_insert_ne in Hr' by done. by apply Hn.
Qed.

(** A node of the array after [node.imports = imports] was there
    before, or is the node behind the reference with its list replaced. *)
Lemma set_imports_nodes r imps st n :
  n ∈ nodes (set_imports r imps st) →
  n ∈ nodes st
  ∨ ∃ n0, nodes st !! r = Some n0
          ∧ n = mkNode (id n0) imps (isExternal n0) (type n0).
Proof.
  unfold set_imports. destruct (nodes st !! r) as [n0|] eqn:E; simpl; [|auto].
  intros Hn. apply list_elem_of_lookup in Hn as [r' Hr'].
  destruct (decide (r' = r)) as [->|Hne].
  - rewrite list_lookup_insert_eq in Hr' by (by eapply lookup_lt_Some).
    injection Hr' as <-. right. eauto.
  - rewrite list_lookup_insert_ne in Hr' by done.
    left. by eapply list_elem_of_lookup_2.
Qed.

Lemma visit_source_eq p c st :
  visit_source p c st =
    foldl (import_step p)
          (set_imports (addNode p file false st).1 (parseImports c)
                       (addNode p file false st).2)
          (parseImports c).
Proof. unfold visit_source. by destruct (addNode p file false st). Qed.

Lemma import_step_wf p st imp : wf st → wf (import_step p st imp).
Proof.
  intros Hwf. unfold import_step, push_link.
  destruct (addNode_wf imp dependency true st Hwf) as [Hm Hn]. by split.
Qed.

Lemma import_steps_wf p imps st : wf st → wf (foldl (import_step p) st imps).
Proof.
  revert st. induction imps as [|imp imps IH]; intros st Hwf; simpl; [done|].
  by apply IH, import_step_wf.
Qed.

Lemma visit_folder_wf p st : wf st → wf (visit_folder p st).
Proof. apply addNode_wf. Qed.

Lemma visit_source_wf p c st : wf st → wf (visit_source p c st).
Proof.
  intros Hwf. rewrite visit_source_eq.
  by apply import_steps_wf, set_imports_wf, addNode_wf.
Qed.

Lemma apply_event_wf st ev : wf st → wf (apply_event st ev).
Proof. destruct ev; [apply visit_folder_wf|apply visit_source_wf]. Qed.

Lemma events_wf evs st : wf st → wf (foldl apply_event st evs).
Proof.
  revert st. induction evs as [|ev evs IH]; intros st Hwf; simpl; [done|].
  by apply IH, apply_event_wf.
Qed.

(** Edges are only ever appended, one per extracted import. *)
Lemma import_steps_links p imps st :
  links (foldl (import_step p) st imps) = links st ++ (mkLink p <$> imps).
Proof.
  revert st. induction imps as [|imp imps IH]; intros st; simpl.
  - by rewrite app_nil_r.
  - rewrite IH. unfold import_step, push_link. simpl.
    by rewrite addNode_links, <- app_assoc.
Qed.

Lemma apply_event_links st ev :
  links (apply_event st ev) = links st ++ event_links ev.
Proof.
  destruct ev as [p|p c]; simpl.
  - unfold visit_folder. by rewrite addNode_links, app_nil_r.
  - rewrite visit_source_eq, import_steps_links, set_imports_links.
    by rewrite addNode_links.
Qed.

Lemma events_links evs st :
  links (foldl apply_event st evs) = links st ++ (evs ≫= event_links).
Proof.
  revert st. induction evs as [|ev evs IH]; intros st; simpl.
  - by rewrite app_nil_r.
  - by rewrite IH, apply_event_links, <- app_assoc.
Qed.

(** ** The traversal registers the visits of [walk], in order *)

Lemma ignores_Ok ig path b : ignores ig path = Ok b → b = ig path.
Proof.
  unfold ignores. case_bool_decide; [done|].
  destruct (isNotRelative path); [done|]. by intros [= <-].
Qed.

Lemma statSync_at_Ok root links e stat :
  statSync_at root links e = Ok stat → statSync root e = Ok stat.
Proof. unfold statSync_at. by destruct (MAXSYMLINKS <? links + hops e). Qed.

Lemma traverse_files_walk ig root rec_t rec_w :
  (∀ links dir files st st',
     rec_t links dir files st = Ok st' →
     ∃ evs, rec_w dir files = Ok evs ∧ st' = foldl apply_event st evs) →
  ∀ links dir files st st',
    traverse_files ig root rec_t links dir files st = Ok st' →
    ∃ evs, walk_files ig root rec_w dir files = Ok evs
           ∧ st' = foldl apply_event st evs.
Proof.
  intros Hrec links dir files.
  induction files as [|[name e] rest IH]; intros st st'; simpl.
  { intros [= <-]. by exists []. }
  destruct (ignores ig (relative_join dir name)) as [ignored| |] eqn:Hig;
    simpl; [|done|done].
  apply ignores_Ok in Hig as ->.
  destruct (ig (relative_join dir name) || bool_decide (name = "node_modules"));
    [apply IH|].
  destruct (statSync_at root links e) as [stat| |] eqn:Hst; simpl; [|done|done].
  apply statSync_at_Ok in Hst as ->. simpl.
  destruct stat as [content|children].
  - destruct (is_source name); intros (after & -> & ->)%IH; simpl; eauto.
  - destruct (rec_t (links + hops e) (relative_join dir name) children
                (visit_folder (relative_join dir name) st))
      as [st1| |] eqn:Hbelow; simpl; [|done|done].
    apply Hrec in Hbelow as (below & -> & ->). simpl.
    intros (after & -> & ->)%IH. simpl.
    exists (Folder (relative_join dir name) :: below ++ after).
    split; [done|]. simpl. by rewrite foldl_app.
Qed.

(** When the traversal returns, it has registered the visits of
    [walk]. *)
Lemma traverseDirectory_walk ig root fuel : ∀ links dir files st st',
  traverseDirectory ig root fuel links dir files st = Ok st' →
  ∃ evs, walk ig root fuel dir files = Ok evs ∧ st' = foldl apply_event st evs.
Proof.
  induction fuel as [|fuel IH]; intros links dir files st st'; [done|].
  simpl. by apply traverse_files_walk.
Qed.

(** ** Edges never dangle in the state *)

Lemma closed_init : closed init.
Proof. intros l Hl. by apply elem_of_nil in Hl. Qed.

Lemma addNode_closed i t ext st : closed st → closed (addNode i t ext st).2.
Proof.
  intros Hc l. rewrite addNode_links. intros Hl.
  destruct (Hc l Hl). split; by apply addNode_ids_keeps.
Qed.

Lemma import_step_closed p st imp :
  wf st → closed st → p ∈ ids st →
  closed (import_step p st imp) ∧ p ∈ ids (import_step p st imp).
Proof.
  intros Hwf Hc Hp. unfold import_step, push_link, closed, ids. simpl.
  fold (ids (addNode imp dependency true st).2).
  split; [|by apply addNode_ids_keeps].
  intros l. rewrite addNode_links, elem_of_app, list_elem_of_singleton.
  intros [Hl| ->]; simpl.
  - destruct (Hc l Hl). split; by apply addNode_ids_keeps.
  - split; [by apply addNode_ids_keeps|by apply addNode_ids_registers].
Qed.

Lemma import_steps_closed p imps : ∀ st,
  wf st → closed st → p ∈ ids st → closed (foldl (import_step p) st imps).
Proof.
  induction imps as [|imp imps IH]; intros st Hwf Hc Hp; simpl; [done|].
  destruct (import_step_closed p st imp Hwf Hc Hp).
  apply IH; [by apply import_step_wf|done|done].
Qed.

Lemma apply_event_closed st ev :
  wf st → closed st → closed (apply_event st ev).
Proof.
  intros Hwf Hc. destruct ev as [p|p c]; simpl.
  - by apply addNode_closed.
  - rewrite visit_source_eq. apply import_steps_closed.
    + by apply set_imports_wf, addNode_wf.
    + intros l. rewrite set_imports_links, set_imports_ids. revert l.
      by apply addNode_closed.
    + rewrite set_imports_ids. by apply addNode_ids_registers.
Qed.

Lemma events_closed evs : ∀ st,
  wf st → closed st → closed (foldl apply_event st evs).
Proof.
  induction evs as [|ev evs IH]; intros st Hwf Hc; simpl; [done|].
  apply IH; [by apply apply_event_wf|by apply apply_event_closed].
Qed.

Lemma register_dependencies_wf deps : ∀ st,
  wf st → wf (foldl register_dependency st deps).
Proof.
  induction deps as [|dep deps IH]; intros st Hwf; simpl; [done|].
  by apply IH, addNode_wf.
Qed.

Lemma register_dependencies_links deps : ∀ st,
  links (foldl register_dependency st deps) = links st.
Proof.
  induction deps as [|dep deps IH]; intros st; simpl; [done|].
  rewrite IH. apply addNode_links.
Qed.

Lemma register_dependencies_closed deps : ∀ st,
  closed st → closed (foldl register_dependency st deps).
Proof.
  induction deps as [|dep deps IH]; intros st Hc; simpl; [done|].
  by apply IH, addNode_closed.
Qed.

(** ** What a completed build is made of *)

Section BuildFacts.

Variable ignore_add : list string → string → bool.
Variable JSON_parse : string → option json.

Lemma buildGraph_Ok fuel root g :
  buildGraph ignore_add JSON_parse fuel (Some root) = Ok g →
  ∃ gitignore evs deps,
    readFileSync root ".gitignore" = Ok gitignore
    ∧ walk (ignore_add [gitignore]) root fuel "" root = Ok evs
    ∧ dependencies JSON_parse root = Ok deps
    ∧ g = prune (built evs deps).
Proof.
  unfold buildGraph, add_manifest, built.
  destruct (readFileSync root ".gitignore") as [gitignore| |]; simpl;
    [|done|done].
  destruct (traverseDirectory _ root fuel 0 "" root init) as [st| |] eqn:Ht;
    simpl; [|done|done].
  apply traverseDirectory_walk in Ht as (evs & Hw & ->).
  destruct (dependencies JSON_parse root) as [deps| |]; simpl; [|done|done].
  intros [= <-]. exists gitignore, evs, deps. auto.
Qed.

Lemma built_wf evs deps : wf (built evs deps).
Proof. apply register_dependencies_wf, events_wf, wf_init. Qed.

Lemma built_links evs deps : links (built evs deps) = evs ≫= event_links.
Proof. unfold built. by rewrite register_dependencies_links, events_links. Qed.

Lemma built_closed evs deps : closed (built evs deps).
Proof.
  apply register_dependencies_closed, events_closed;
    [apply wf_init|apply closed_init].
Qed.

Lemma readFileSync_exists root name text :
  readFileSync root name = Ok text → existsSync root name = true.
Proof.
  unfold readFileSync, existsSync. destruct (entry_named name root); [|done].
  by destruct (statSync root e).
Qed.

Lemma buildGraph_built fuel root g gitignore evs :
  buildGraph ignore_add JSON_parse fuel (Some root) = Ok g →
  readFileSync root ".gitignore" = Ok gitignore →
  walk (ignore_add [gitignore]) root fuel "" root = Ok evs →
  ∃ deps, dependencies JSON_parse root = Ok deps ∧ g = prune (built evs deps).
Proof.
  intros Hb Hg Hw.
  apply buildGraph_Ok in Hb as (gitignore' & evs' & deps & Hg' & Hw' & Hd & ->).
  rewrite Hg in Hg'. injection Hg' as <-.
  rewrite Hw in Hw'. injection Hw' as <-. eauto.
Qed.

End BuildFacts.

(** ** Pruning *)

Lemma elem_of_connectedNodes i ls :
  i ∈ connectedNodes ls ↔ ∃ l, l ∈ ls ∧ (i = source l ∨ i = target l).
Proof.
  unfold connectedNodes. rewrite elem_of_list_to_set, list_elem_of_bind.
  split.
  - intros (l & Hi & Hl). exists l. split; [done|].
    apply elem_of_cons in Hi as [->|Hi]; [by left|].
    apply list_elem_of_singleton in Hi. by right.
  - intros (l & Hl & Hi). exists l. split; [|done].
    rewrite elem_of_cons, list_elem_of_singleton. done.
Qed.

Lemma elem_of_prune n st :
  n ∈ g_nodes (prune st) ↔
  n ∈ nodes st ∧ ∃ l, l ∈ links st ∧ (id n = source l ∨ id n = target l).
Proof.
  unfold prune. simpl. by rewrite list_elem_of_filter, elem_of_connectedNodes, (comm and).
Qed.

(** An id that is registered and is an end of some edge survives pruning. *)
Lemma prune_keeps st i l :
  i ∈ ids st → l ∈ links st → i = source l ∨ i = target l →
  ∃ n, n ∈ g_nodes (prune st) ∧ id n = i.
Proof.
  unfold ids. rewrite list_elem_of_fmap. intros (n & -> & Hn) Hl Hi.
  exists n. split; [|done]. apply elem_of_prune. eauto.
Qed.

(** ** Where the nodes come from *)

Lemma node_origin_mono evs evs' n :
  node_origin evs n → node_origin (evs ++ evs') n.
Proof.
  intros [He Hf Hs Hi]. split; [done|..].
  - intros Ht. apply elem_of_app. auto.
  - intros Ht. destruct (Hs Ht) as [c Hc]. exists c. apply elem_of_app. auto.
  - destruct Hi as [Hi|(c & Hc & Hi)]; [by left|right].
    exists c. split; [|done]. apply elem_of_app. auto.
Qed.

Lemma node_origin_dependency evs i :
  node_origin evs (mkNode i [] true dependency).
Proof. split; simpl; [done|done|done|by left]. Qed.

Lemma addNode_all P i t ext st :
  P (mkNode i [] ext t) → all_nodes P st → all_nodes P (addNode i t ext st).2.
Proof.
  intros Hnew Hall n Hn. apply addNode_nodes in Hn as [Hn| ->]; auto.
Qed.

Lemma set_imports_all (P : Node → Prop) r imps st :
  (∀ n0, nodes st !! r = Some n0 → P n0 →
         P (mkNode (id n0) imps (isExternal n0) (type n0))) →
  all_nodes P st → all_nodes P (set_imports r imps st).
Proof.
  intros Hset Hall n Hn.
  apply set_imports_nodes in Hn as [Hn|(n0 & Hr & ->)]; [auto|].
  apply Hset; [done|]. apply Hall. by eapply list_elem_of_lookup_2.
Qed.

Lemma import_steps_all (P : Node → Prop) p imps : ∀ st,
  (∀ imp, imp ∈ imps → P (mkNode imp [] true dependency)) →
  all_nodes P st → all_nodes P (foldl (import_step p) st imps).
Proof.
  induction imps as [|imp imps IH]; intros st Hnew Hall; simpl; [done|].
  apply IH.
  - intros imp' Himp'. apply Hnew. by apply list_elem_of_further.
  - unfold import_step, push_link, all_nodes. simpl.
    apply addNode_all; [|done]. apply Hnew, list_elem_of_here.
Qed.

Lemma register_dependencies_all (P : Node → Prop) deps : ∀ st,
  (∀ dep, dep ∈ deps → P (mkNode dep [] true dependency)) →
  all_nodes P st → all_nodes P (foldl register_dependency st deps).
Proof.
  induction deps as [|dep deps IH]; intros st Hnew Hall; simpl; [done|].
  apply IH.
  - intros dep' Hdep'. apply Hnew. by apply list_elem_of_further.
  - apply addNode_all; [|done]. apply Hnew, list_elem_of_here.
Qed.

Lemma apply_event_origin evs st ev :
  wf st → all_nodes (node_origin evs) st →
  all_nodes (node_origin (evs ++ [ev])) (apply_event st ev).
Proof.
  intros Hwf Hall.
  assert (Hold : all_nodes (node_origin (evs ++ [ev])) st).
  { intros n Hn. by apply node_origin_mono, Hall. }
  destruct ev as [p|p c]; simpl.
  - apply addNode_all; [|done]. split; simpl; [done| |done|by left].
    intros _. apply elem_of_app. right. apply list_elem_of_here.
  - assert (Hin : Source p c ∈ evs ++ [Source p c]).
    { apply elem_of_app. right. apply list_elem_of_here. }
    rewrite visit_source_eq. apply import_steps_all.
    { intros imp _. apply node_origin_dependency. }
    destruct (addNode_result p file false st Hwf) as (n1 & Hn1 & Hid).
    apply set_imports_all.
    + intros n0 Hn0 [He Hf Hs Hi]. rewrite Hn1 in Hn0. injection Hn0 as <-.
      split; simpl; [done|done|done|]. right. exists c. by rewrite Hid.
    + apply addNode_all; [|done]. split; simpl; [done|done| |by left].
      intros _. by exists c.
Qed.

Lemma events_origin evs :
  all_nodes (node_origin evs) (foldl apply_event init evs).
Proof.
  induction evs as [|ev evs IH] using rev_ind.
  - intros n Hn. by apply elem_of_nil in Hn.
  - rewrite foldl_app. simpl. apply apply_event_origin; [|done].
    apply events_wf, wf_init.
Qed.

Lemma built_origin evs deps : all_nodes (node_origin evs) (built evs deps).
Proof.
  apply register_dependencies_all; [|apply events_origin].
  intros dep _. apply node_origin_dependency.
Qed.

(** ** Ids are unique *)

Lemma wf_NoDup st : wf st → NoDup (ids st).
Proof.
  intros [_ Hn]. apply NoDup_alt. intros r1 r2 i. unfold ids.
  rewrite !list_lookup_fmap.
  destruct (nodes st !! r1) as [n1|] eqn:E1; [|done].
  destruct (nodes st !! r2) as [n2|] eqn:E2; [|done].
  simpl. intros [= <-] [= Hid].
  apply Hn in E1, E2. rewrite Hid in E2. congruence.
Qed.

Lemma filter_none {A : Type} (P : A → Prop) `{∀ x, Decision (P x)} (l : list A) :
  (∀ y, y ∈ l → ¬ P y) → filter P l = [].
Proof.
  induction l as [|a l IH]; intros Hl; [done|].
  rewrite filter_cons_False by (apply Hl, list_elem_of_here).
  apply IH. intros y Hy. by apply Hl, list_elem_of_further.
Qed.

Lemma filter_by_key {A B : Type} `{EqDecision B} (f : A → B) (l : list A) x :
  NoDup (f <$> l) → x ∈ l → filter (λ y, f y = f x) l = [x].
Proof.
  induction l as [|a l IH]; intros Hnd Hx.
  { by apply elem_of_nil in Hx. }
  rewrite fmap_cons in Hnd. apply NoDup_cons in Hnd as [Ha Hnd].
  apply elem_of_cons in Hx as [->|Hx].
  - rewrite filter_cons_True by done. f_equal.
    apply filter_none. intros y Hy Heq. apply Ha. rewrite <- Heq.
    apply list_elem_of_fmap. eauto.
  - rewrite filter_cons_False; [by apply IH|].
    intros Heq. apply Ha. rewrite Heq. apply list_elem_of_fmap. eauto.
Qed.

Lemma NoDup_fmap_filter {A B : Type} (f : A → B) (P : A → Prop)
    `{∀ x, Decision (P x)} (l : list A) :
  NoDup (f <$> l) → NoDup (f <$> filter P l).
Proof.
  induction l as [|a l IH]; [done|].
  rewrite fmap_cons, NoDup_cons. intros [Ha Hnd].
  rewrite filter_cons. destruct (decide (P a)); [|by apply IH].
  rewrite fmap_cons, NoDup_cons. split; [|by apply IH].
  intros Hin. apply Ha. apply list_elem_of_fmap in Hin as (y & -> & Hy).
  apply list_elem_of_filter in Hy as [_ Hy]. apply list_elem_of_fmap. eauto.
Qed.

(** The returned nodes have pairwise distinct ids. *)
Lemma prune_NoDup st : wf st → NoDup (id <$> g_nodes (prune st)).
Proof. intros Hwf. unfold prune. simpl. by apply NoDup_fmap_filter, wf_NoDup. Qed.

(** An id that is an end of an edge names exactly one returned node. *)
Lemma prune_exactly_one st i l :
  wf st → closed st → l ∈ links st → i = source l ∨ i = target l →
  ∃ n, filter (λ m, id m = i) (g_nodes (prune st)) = [n] ∧ n ∈ nodes st.
Proof.
  intros Hwf Hc Hl Hi.
  assert (Hid : i ∈ ids st) by (destruct (Hc l Hl), Hi; by subst).
  destruct (prune_keeps st i l Hid Hl Hi) as (n & Hn & <-).
  exists n. split.
  - by apply filter_by_key; [apply prune_NoDup|].
  - apply elem_of_prune in Hn. tauto.
Qed.

(** ** The edges of a build *)

Lemma elem_of_built_links evs deps l :
  l ∈ links (built evs deps) ↔
  ∃ p c imp, Source p c ∈ evs ∧ imp ∈ parseImports c ∧ l = mkLink p imp.
Proof.
  rewrite built_links, list_elem_of_bind. split.
  - intros ([p|p c] & Hl & Hev); simpl in Hl.
    + by apply elem_of_nil in Hl.
    + apply list_elem_of_fmap in Hl as (imp & -> & Himp). by exists p, c, imp.
  - intros (p & c & imp & Hev & Himp & ->). exists (Source p c).
    split; [|done]. simpl. apply list_elem_of_fmap. eauto.
Qed.

(** The edges of a visited source file stand in the edge list in the
    order of its extracted imports, from some offset on. *)
Lemma built_links_of_source evs deps p c :
  Source p c ∈ evs →
  ∃ k, ∀ i spec, parseImports c !! i = Some spec →
                 links (built evs deps) !! (k + i) = Some (mkLink p spec).
Proof.
  intros Hev. apply list_elem_of_split in Hev as (e1 & e2 & ->).
  exists (length (e1 ≫= event_links)). intros i spec Hi.
  rewrite built_links, bind_app, bind_cons. simpl.
  rewrite lookup_app_r by lia.
  replace (length (e1 ≫= event_links) + i - length (e1 ≫= event_links))
    with i by lia.
  apply lookup_app_l_Some. by rewrite list_lookup_fmap, Hi.
Qed.

(** A returned node that is not the node of a visited folder or source
    file is a dependency node, hence external. *)
Lemma built_dependency evs deps n :
  n ∈ nodes (built evs deps) →
  Folder (id n) ∉ evs → (∀ c, Source (id n) c ∉ evs) →
  type n = dependency ∧ isExternal n = true.
Proof.
  intros Hn Hf Hs. destruct (built_origin evs deps n Hn) as [He Hfo Hfi _].
  destruct (type n) eqn:Et.
  - destruct Hfi as [c Hc]; [done|]. by destruct (Hs c).
  - by destruct Hf; apply Hfo.
  - by rewrite He.
Qed.

(** ** The loop of the traversal, turn by turn *)

Lemma walk_files_cons ig root recurse dir name e rest :
  walk_files ig root recurse dir ((name, e) :: rest) =
    if ig (relative_join dir name) || bool_decide (name = "node_modules")
    then walk_files ig root recurse dir rest
    else
      stat ← statSync root e;
      match stat with
      | IsDirectory children =>
          below ← recurse (relative_join dir name) children;
          after ← walk_files ig root recurse dir rest;
          Ok (Folder (relative_join dir name) :: below ++ after)
      | IsFile content =>
          after ← walk_files ig root recurse dir rest;
          Ok (if is_source name
              then Source (relative_join dir name) content :: after
              else after)
      end.
Proof. reflexivity. Qed.

Lemma walk_files_directory ig root recurse dir name e children rest :
  ig (relative_join dir name) = false → name ≠ "node_modules" →
  statSync root e = Ok (IsDirectory children) →
  walk_files ig root recurse dir ((name, e) :: rest) =
    (below ← recurse (relative_join dir name) children;
     after ← walk_files ig root recurse dir rest;
     Ok (Folder (relative_join dir name) :: below ++ after)).
Proof.
  intros Hig Hname Hstat.
  rewrite walk_files_cons.
  by rewrite Hig, bool_decide_eq_false_2, Hstat.
Qed.

Lemma walk_files_file ig root recurse dir name e content rest :
  ig (relative_join dir name) = false → name ≠ "node_modules" →
  statSync root e = Ok (IsFile content) →
  walk_files ig root recurse dir ((name, e) :: rest) =
    (after ← walk_files ig root recurse dir rest;
     Ok (if is_source name
         then Source (relative_join dir name) content :: after
         else after)).
Proof.
  intros Hig Hname Hstat.
  rewrite walk_files_cons.
  by rewrite Hig, bool_decide_eq_false_2, Hstat.
Qed.

Lemma walk_files_ignored ig root recurse dir name e rest :
  ig (relative_join dir name) || bool_decide (name = "node_modules") = true →
  walk_files ig root recurse dir ((name, e) :: rest) =
    walk_files ig root recurse dir rest.
Proof.
  intros Hig.
  rewrite walk_files_cons.
  by rewrite Hig.
Qed.

(** A property of every visited source file, checked visit by visit. *)
Lemma sources_all (P : string → string → Prop) (evs : list event) :
  Forall (λ ev, match ev with Source p c => P p c | Folder _ => True end) evs →
  ∀ p c, Source p c ∈ evs → P p c.
Proof. rewrite Forall_forall. intros H p c Hev. apply (H _ Hev). Qed.

(** ** Paths name one entry

    In a directory no two entries share a name, and a name is not empty
    and holds no separator.  Then a relative path is the path of at most
    one entry of the tree, so no folder and source file are visited under
    the same path. *)

Lemma string_of_list_ascii_app a b :
  String.string_of_list_ascii (a ++ b)
  = String.string_of_list_ascii a +:+ String.string_of_list_ascii b.
Proof. induction a as [|c a IH]; [done|]. simpl. by rewrite IH. Qed.

Lemma list_ascii_of_string_app a b :
  String.list_ascii_of_string (a +:+ b)
  = String.list_ascii_of_string a ++ String.list_ascii_of_string b.
Proof. induction a as [|c a IH]; [done|]. simpl. by rewrite IH. Qed.

Lemma list_ascii_of_string_inj a b :
  String.list_ascii_of_string a = String.list_ascii_of_string b → a = b.
Proof.
  intros H. apply (f_equal String.string_of_list_ascii) in H.
  by rewrite !String.string_of_list_ascii_of_string in H.
Qed.

Lemma append_nil_l s : "" +:+ s = s.
Proof. reflexivity. Qed.

Lemma append_cons c s t : String c s +:+ t = String c (s +:+ t).
Proof. reflexivity. Qed.

Lemma length_append s t :
  String.length (s +:+ t) = String.length s + String.length t.
Proof.
  induction s as [|c s IH]; [done|].
  rewrite append_cons. simpl. by rewrite IH.
Qed.

Lemma relative_join_nonempty d a :
  d ≠ "" → relative_join d a = d +:+ String "/" a.
Proof. intros Hd. unfold relative_join. by rewrite bool_decide_eq_false_2. Qed.

Lemma slash_free_separator s t : slash_free (s +:+ String "/" t) = false.
Proof.
  induction s as [|c s IH].
  - reflexivity.
  - rewrite append_cons. simpl. rewrite IH. apply andb_false_r.
Qed.

Lemma separator_inj d d' a b :
  slash_free a = true → slash_free b = true →
  d +:+ String "/" a = d' +:+ String "/" b → d = d' ∧ a = b.
Proof.
  revert d'. induction d as [|c d IH]; intros [|c' d'] Ha Hb.
  - rewrite !append_nil_l. intros [= ->]. done.
  - rewrite append_nil_l, append_cons. intros [= <- ->].
    by rewrite slash_free_separator in Ha.
  - rewrite append_nil_l, append_cons. intros [= -> <-].
    by rewrite slash_free_separator in Hb.
  - rewrite !append_cons. intros [= -> H].
    destruct (IH d' Ha Hb H) as [-> ->]. done.
Qed.

Lemma relative_join_inj d d' a b :
  slash_free a = true → slash_free b = true →
  relative_join d a = relative_join d' b → d = d' ∧ a = b.
Proof.
  intros Ha Hb.
  destruct (decide (d = "")) as [->|Hd]; destruct (decide (d' = "")) as [->|Hd'].
  - done.
  - rewrite (relative_join_nonempty d') by done. unfold relative_join. simpl.
    intros ->. by rewrite slash_free_separator in Ha.
  - rewrite (relative_join_nonempty d) by done. unfold relative_join. simpl.
    intros <-. by rewrite slash_free_separator in Hb.
  - rewrite !relative_join_nonempty by done. by apply separator_inj.
Qed.

Lemma relative_join_longer d a :
  good_name a → String.length d < String.length (relative_join d a).
Proof.
  intros [Ha _]. destruct (decide (d = "")) as [->|Hd].
  - unfold relative_join. simpl. destruct a; [done|]. simpl. lia.
  - rewrite relative_join_nonempty, length_append by done. simpl. lia.
Qed.

Lemma extend_snoc dir segs a :
  extend dir (segs ++ [a]) = relative_join (extend dir segs) a.
Proof. unfold extend. by rewrite foldl_app. Qed.

Lemma extend_longer segs : ∀ dir,
  Forall good_name segs → String.length dir ≤ String.length (extend dir segs).
Proof.
  induction segs as [|a segs IH]; intros dir Hgood; [done|].
  apply Forall_cons in Hgood as [Ha Hgood]. unfold extend. simpl.
  pose proof (relative_join_longer dir a Ha).
  pose proof (IH (relative_join dir a) Hgood). unfold extend in *. lia.
Qed.

Lemma extend_inj dir segs : ∀ segs',
  Forall good_name segs → Forall good_name segs' →
  extend dir segs = extend dir segs' → segs = segs'.
Proof.
  induction segs as [|a segs IH] using rev_ind;
    intros segs' Hgood Hgood'; destruct segs' as [|b segs' _] using rev_ind.
  - done.
  - rewrite extend_snoc. apply Forall_app in Hgood' as [Hs' Hb].
    rewrite Forall_singleton in Hb.
    pose proof (extend_longer segs' dir Hs').
    pose proof (relative_join_longer (extend dir segs') b Hb).
    unfold extend at 1. simpl. intros Heq. rewrite <- Heq in *. lia.
  - rewrite extend_snoc. apply Forall_app in Hgood as [Hs Ha].
    rewrite Forall_singleton in Ha.
    pose proof (extend_longer segs dir Hs).
    pose proof (relative_join_longer (extend dir segs) a Ha).
    unfold extend at 2. simpl. intros Heq. rewrite Heq in *. lia.
  - rewrite !extend_snoc.
    apply Forall_app in Hgood as [Hs Ha]. rewrite Forall_singleton in Ha.
    apply Forall_app in Hgood' as [Hs' Hb]. rewrite Forall_singleton in Hb.
    intros Heq.
    apply relative_join_inj in Heq as [Heq ->]; [|apply Ha|apply Hb].
    by rewrite (IH segs' Hs Hs' Heq).
Qed.

Lemma names_ok_Dir children :
  names_ok (Dir children) ↔
  NoDup children.*1
  ∧ ∀ n e, (n, e) ∈ children → good_name n ∧ names_ok e.
Proof.
  simpl. apply and_iff_compat_l.
  induction children as [|[n e] rest IH].
  - split; [|done]. intros _ n e Hin. by apply elem_of_nil in Hin.
  - rewrite IH. split.
    + intros (Hn & He & Hrest) n' e' Hin.
      apply elem_of_cons in Hin as [[= -> ->]|Hin]; auto.
    + intros Hall. split_and!.
      * apply (Hall n e), list_elem_of_here.
      * apply (Hall n e), list_elem_of_here.
      * intros n' e' Hin. by apply Hall, list_elem_of_further.
Qed.

Lemma entry_named_elem name files e :
  entry_named name files = Some e → (name, e) ∈ files.
Proof.
  induction files as [|[n e'] rest IH]; simpl; [done|].
  case_bool_decide as Hn.
  - intros [= ->]. subst. apply list_elem_of_here.
  - intros H. by apply list_elem_of_further, IH.
Qed.

Lemma names_ok_real_lookup p : ∀ e e',
  names_ok e → real_lookup e p = Some e' → names_ok e'.
Proof.
  induction p as [|name p IH]; intros e e' Hok; simpl.
  - by intros [= <-].
  - destruct e as [|children|]; [done| |done].
    destruct (entry_named name children) as [e1|] eqn:E; [|done].
    apply IH. apply names_ok_Dir in Hok as [_ Hok].
    by apply (Hok name), entry_named_elem.
Qed.

Lemma names_ok_statSync root e children :
  names_ok (Dir root) → names_ok e →
  statSync root e = Ok (IsDirectory children) → names_ok (Dir children).
Proof.
  intros Hroot He Hst. destruct e as [c|ch|p].
  - done.
  - injection Hst as <-. exact He.
  - unfold statSync in Hst.
    destruct (real_lookup (Dir root) p) as [[c|ch|p']|] eqn:E; try done.
    injection Hst as <-. exact (names_ok_real_lookup p (Dir root) _ Hroot E).
Qed.

Lemma NoDup_fst_functional {A B : Type} (l : list (A * B)) x y1 y2 :
  NoDup l.*1 → (x, y1) ∈ l → (x, y2) ∈ l → y1 = y2.
Proof.
  induction l as [|[a b] l IH]; intros Hnd H1 H2.
  { by apply elem_of_nil in H1. }
  rewrite fmap_cons in Hnd. apply NoDup_cons in Hnd as [Ha Hnd]. simpl in Ha.
  assert (Hfst : ∀ y, (a, y) ∈ l → False).
  { intros y Hy. apply Ha. apply list_elem_of_fmap. by exists (a, y). }
  apply elem_of_cons in H1 as [H1|H1];
    apply elem_of_cons in H2 as [H2|H2]; simplify_eq.
  - done.
  - by destruct (Hfst y2).
  - by destruct (Hfst y1).
  - by apply IH.
Qed.

Lemma located_deterministic root :
  names_ok (Dir root) →
  ∀ files segs st1, located root files segs st1 →
  ∀ st2, names_ok (Dir files) → located root files segs st2 → st1 = st2.
Proof.
  intros Hroot files segs st1 H1.
  induction H1 as [files name e st1 Hin Hst|files name e children segs st1 Hin Hst H1 IH];
    intros st2 Hok H2.
  - apply names_ok_Dir in Hok as [Hnd _].
    inversion H2 as [? ? e2 ? Hin2 Hst2|? ? e2 ch2 ? ? Hin2 Hst2 H2']; subst.
    + rewrite (NoDup_fst_functional _ _ _ _ Hnd Hin Hin2) in Hst. congruence.
    + inversion H2'.
  - pose proof Hok as Hok'. apply names_ok_Dir in Hok' as [Hnd Hall].
    inversion H2 as [? ? e2 ? Hin2 Hst2|? ? e2 ch2 ? ? Hin2 Hst2 H2']; subst.
    + inversion H1.
    + rewrite <- (NoDup_fst_functional _ _ _ _ Hnd Hin Hin2) in Hst2.
      rewrite Hst in Hst2. injection Hst2 as <-.
      apply IH; [|done].
      apply (names_ok_statSync root e); [done| |done].
      by apply (Hall name).
Qed.

Lemma visit_located_below root dir files name e children ev :
  good_name name → (name, e) ∈ files →
  statSync root e = Ok (IsDirectory children) →
  visit_located root (relative_join dir name) children ev →
  visit_located root dir files ev.
Proof.
  intros Hname Hin Hst (segs & Hgood & Hev). exists (name :: segs).
  split; [by apply Forall_cons|].
  destruct ev as [p|p c].
  - destruct Hev as (-> & ch & Hloc). split; [done|].
    exists ch. by eapply located_below.
  - destruct Hev as (-> & Hloc). split; [done|]. by eapply located_below.
Qed.

Lemma walk_files_located ig root recurse :
  names_ok (Dir root) →
  (∀ dir files evs, names_ok (Dir files) → recurse dir files = Ok evs →
     ∀ ev, ev ∈ evs → visit_located root dir files ev) →
  ∀ dir all, names_ok (Dir all) →
  ∀ files evs, (∀ x, x ∈ files → x ∈ all) →
    walk_files ig root recurse dir files = Ok evs →
    ∀ ev, ev ∈ evs → visit_located root dir all ev.
Proof.
  intros Hroot Hrec dir all Hall.
  pose proof Hall as Hall'. apply names_ok_Dir in Hall' as [_ Hnames].
  induction files as [|[name e] rest IH]; intros evs Hsub.
  { simpl. intros [= <-] ev Hev. by apply elem_of_nil in Hev. }
  assert (Hin : (name, e) ∈ all) by apply Hsub, list_elem_of_here.
  assert (Hsub' : ∀ x, x ∈ rest → x ∈ all).
  { intros x Hx. by apply Hsub, list_elem_of_further. }
  destruct (Hnames name e Hin) as [Hname He].
  destruct (ig (relative_join dir name) || bool_decide (name = "node_modules"))
    eqn:Hig.
  { rewrite walk_files_ignored by done. by apply IH. }
  apply orb_false_iff in Hig as [Hig Hnm]. apply bool_decide_eq_false in Hnm.
  destruct (statSync root e) as [[content|children]| |] eqn:Hst.
  - rewrite (walk_files_file _ _ _ _ _ _ content) by done.
    destruct (walk_files ig root recurse dir rest) as [after| |] eqn:Hafter;
      simpl; [|done|done].
    intros [= <-] ev Hev.
    assert (Hcases : ev = Source (relative_join dir name) content ∨ ev ∈ after).
    { destruct (is_source name); [by apply elem_of_cons in Hev|by right]. }
    destruct Hcases as [->|Hev']; [|by eapply IH].
    exists [name]. split; [by apply Forall_singleton|].
    split; [done|]. by eapply located_here.
  - rewrite (walk_files_directory _ _ _ _ _ _ children) by done.
    destruct (recurse (relative_join dir name) children) as [below| |] eqn:Hbelow;
      simpl; [|done|done].
    destruct (walk_files ig root recurse dir rest) as [after| |] eqn:Hafter;
      simpl; [|done|done].
    intros [= <-] ev Hev.
    apply elem_of_cons in Hev as [->|Hev].
    { exists [name]. split; [by apply Forall_singleton|].
      split; [done|]. exists children. by eapply located_here. }
    apply elem_of_app in Hev as [Hev|Hev]; [|by eapply IH].
    apply (visit_located_below root dir all name e children); [done..|].
    apply (Hrec _ _ below); [|done|done].
    by apply (names_ok_statSync root e).
  - intros Hw. exfalso. revert Hw.
    rewrite walk_files_cons.
    by rewrite Hig, bool_decide_eq_false_2, Hst.
  - intros Hw. exfalso. revert Hw.
    rewrite walk_files_cons.
    by rewrite Hig, bool_decide_eq_false_2, Hst.
Qed.

Lemma walk_located ig root fuel :
  names_ok (Dir root) →
  ∀ dir files evs, names_ok (Dir files) →
    walk ig root fuel dir files = Ok evs →
    ∀ ev, ev ∈ evs → visit_located root dir files ev.
Proof.
  intros Hroot. induction fuel as [|fuel IH]; intros dir files evs Hok; [done|].
  simpl. intros Hw. by eapply (walk_files_located ig root _ Hroot IH dir files).
Qed.

(** No folder and source file are visited under the same path. *)
Lemma walk_exclusive ig root fuel evs p c :
  names_ok (Dir root) →
  walk ig root fuel "" root = Ok evs →
  Folder p ∈ evs → Source p c ∈ evs → False.
Proof.
  intros Hroot Hw Hf Hs.
  destruct (walk_located ig root fuel Hroot "" root evs Hroot Hw _ Hf)
    as (segs1 & Hgood1 & -> & ch & Hloc1).
  destruct (walk_located ig root fuel Hroot "" root evs Hroot Hw _ Hs)
    as (segs2 & Hgood2 & Heq & Hloc2).
  apply extend_inj in Heq; [|done..]. subst segs2.
  by pose proof (located_deterministic root Hroot _ _ _ Hloc1 _ Hroot Hloc2).
Qed.

(** ** Trees without symbolic links: the traversal returns *)







(** ** Nodes keep what was extracted under their id *)

Lemma registered_lookup st i : wf st → i ∈ ids st → is_Some (nodeMap st !! i).
Proof.
  intros [_ Hn]. unfold ids. rewrite list_elem_of_fmap. intros (n & -> & Hin).
  apply list_elem_of_lookup in Hin as [r Hr]. rewrite (Hn r n Hr). eauto.
Qed.

Lemma addNode_tracked evs i t ext st :
  tracked evs st → tracked evs (addNode i t ext st).2.
Proof.
  intros [Hwf Hs Hn]. split.
  - by apply addNode_wf.
  - intros p c Hev. by apply addNode_ids_keeps, (Hs p c).
  - destruct (nodeMap st !! i) as [r|] eqn:E.
    { by rewrite (addNode_old _ _ _ _ _ E). }
    intros n Hin. apply addNode_nodes in Hin as [Hin| ->]; [by apply Hn|].
    intros [c Hc]. simpl in Hc.
    destruct (registered_lookup st i Hwf (Hs i c Hc)) as [r Hr]. congruence.
Qed.

Lemma import_steps_tracked evs p imps : ∀ st,
  tracked evs st → tracked evs (foldl (import_step p) st imps).
Proof.
  induction imps as [|imp imps IH]; intros st Ht; simpl; [done|].
  apply IH.
  destruct (addNode_tracked evs imp dependency true st Ht) as [Hwf Hs Hn].
  split; [|exact Hs|exact Hn].
  apply import_step_wf, (tracked_wf _ _ Ht).
Qed.

Lemma elem_of_snoc_source evs p c q c0 :
  Source q c0 ∈ evs ++ [Source p c] → Source q c0 ∈ evs ∨ (q = p ∧ c0 = c).
Proof.
  rewrite elem_of_app, list_elem_of_singleton. intros [H|[= -> ->]]; auto.
Qed.

Lemma apply_event_tracked evs st ev :
  tracked evs st → tracked (evs ++ [ev]) (apply_event st ev).
Proof.
  intros Ht. destruct ev as [p|p c]; simpl.
  - destruct (addNode_tracked evs p folder false st Ht) as [Hwf Hs Hn].
    split; [done|..].
    + intros q c Hev. apply elem_of_app in Hev as [Hev|Hev]; [by eapply Hs|].
      by apply list_elem_of_singleton in Hev.
    + intros n Hin [c Hc]. apply elem_of_app in Hc as [Hc|Hc].
      * destruct (Hn n Hin) as (c' & Hc' & Hi); [by exists c|].
        exists c'. split; [|done]. apply elem_of_app. auto.
      * by apply list_elem_of_singleton in Hc.
  - rewrite visit_source_eq. apply import_steps_tracked.
    destruct (addNode_tracked evs p file false st Ht) as [Hwf Hs Hn].
    pose proof (addNode_lookup p file false st) as Hr.
    destruct (addNode_result p file false st (tracked_wf _ _ Ht))
      as (n1 & Hn1 & Hid).
    set (st1 := (addNode p file false st).2) in *.
    set (r := (addNode p file false st).1) in *.
    assert (Hlast : Source p c ∈ evs ++ [Source p c]).
    { apply elem_of_app. right. apply list_elem_of_here. }
    split.
    + by apply set_imports_wf.
    + intros q c0 Hev. rewrite set_imports_ids.
      apply elem_of_snoc_source in Hev as [Hev|[-> _]]; [by eapply Hs|].
      unfold ids. apply list_elem_of_fmap. exists n1.
      split; [done|]. by eapply list_elem_of_lookup_2.
    + intros n Hin. unfold set_imports in Hin. rewrite Hn1 in Hin. simpl in Hin.
      apply list_elem_of_lookup in Hin as [r' Hr'].
      destruct (decide (r' = r)) as [->|Hne].
      * rewrite list_lookup_insert_eq in Hr' by (by eapply lookup_lt_Some).
        injection Hr' as <-. intros _. exists c. simpl. by rewrite Hid.
      * rewrite list_lookup_insert_ne in Hr' by done.
        assert (Hp : id n ≠ p).
        { intros Heq. apply (wf_nodes _ Hwf) in Hr'. rewrite Heq in Hr'.
          congruence. }
        intros [c0 Hc0].
        apply elem_of_snoc_source in Hc0 as [Hc0|[Heq _]]; [|done].
        destruct (Hn n (list_elem_of_lookup_2 _ _ _ Hr')) as (c' & Hc' & Hi);
          [by exists c0|].
        exists c'. split; [|done]. apply elem_of_app. auto.
Qed.

Lemma events_tracked evs : tracked evs (foldl apply_event init evs).
Proof.
  induction evs as [|ev evs IH] using rev_ind.
  - split; [apply wf_init| |].
    + intros p c Hev. by apply elem_of_nil in Hev.
    + intros n Hin. by apply elem_of_nil in Hin.
  - rewrite foldl_app. simpl. by apply apply_event_tracked.
Qed.

Lemma built_tracked evs deps : tracked evs (built evs deps).
Proof.
  unfold built. generalize (events_tracked evs).
  generalize (foldl apply_event init evs). intros st.
  revert st. induction deps as [|dep deps IH]; intros st Ht; simpl; [done|].
  by apply IH, addNode_tracked.
Qed.

(** A path is the path of one visited source file, with one text. *)
Lemma walk_source_text ig root fuel evs p c c' :
  names_ok (Dir root) →
  walk ig root fuel "" root = Ok evs →
  Source p c ∈ evs → Source p c' ∈ evs → c = c'.
Proof.
  intros Hroot Hw H1 H2.
  destruct (walk_located ig root fuel Hroot "" root evs Hroot Hw _ H1)
    as (segs1 & Hgood1 & -> & Hloc1).
  destruct (walk_located ig root fuel Hroot "" root evs Hroot Hw _ H2)
    as (segs2 & Hgood2 & Heq & Hloc2).
  apply extend_inj in Heq; [|done..]. subst segs2.
  pose proof (located_deterministic root Hroot _ _ _ Hloc1 _ Hroot Hloc2).
  congruence.
Qed.

(** * The claims *)

(** ** C1: no edge dangles *)

Section NoDanglingEdge.

Variable ignore_add : list string → string → bool.
Variable JSON_parse : string → option json.

(** C1.  Whenever [buildGraph] returns a graph, every edge of the graph
    has its source id and its target id among the ids of the returned
    (pruned) nodes: no edge refers to an id that is absent from the node
    set. *)
Theorem buildGraph_no_dangling_edge fuel workspace g l :
  buildGraph ignore_add JSON_parse fuel workspace = Ok g →
  l ∈ g_links g →
  (∃ n, n ∈ g_nodes g ∧ id n = source l)
  ∧ (∃ n, n ∈ g_nodes g ∧ id n = target l).
Proof.
  destruct workspace as [root|].
  - intros (gitignore & evs & deps & _ & _ & _ & ->)%buildGraph_Ok Hl. simpl in Hl.
    destruct (built_closed evs deps l Hl) as [Hs Ht].
    split; eapply prune_keeps; eauto.
  - intros [= <-] Hl. by apply elem_of_nil in Hl.
Qed.

End NoDanglingEdge.

Lemma buildGraph_no_dangling_edge_witness :
  buildGraph ignore_no_rules JSON_parse_sample 3 (Some project) = Ok graph_project
  ∧ (∃ n, n ∈ g_nodes graph_project ∧ id n = "src/main.ts")
  ∧ (∃ n, n ∈ g_nodes graph_project ∧ id n = "./util").
Proof.
  assert (H : buildGraph ignore_no_rules JSON_parse_sample 3 (Some project)
              = Ok graph_project) by (vm_compute; reflexivity).
  split; [exact H|].
  apply (buildGraph_no_dangling_edge ignore_no_rules JSON_parse_sample 3
           (Some project) graph_project (mkLink "src/main.ts" "./util") H).
  apply list_elem_of_further, list_elem_of_here.
Defined.

(** ** C2: symbolic links to directories *)

(** More fuel does not change what a traversal returns or throws. *)
Lemma traverse_files_mono ig root recurse recurse' :
  (∀ links dir files st r,
     recurse links dir files st = r → r ≠ OutOfFuel →
     recurse' links dir files st = r) →
  ∀ links dir files st r,
    traverse_files ig root recurse links dir files st = r → r ≠ OutOfFuel →
    traverse_files ig root recurse' links dir files st = r.
Proof.
  intros Hrec links dir files.
  induction files as [|[name e] rest IH]; intros st r; simpl; [done|].
  destruct (ignores ig (relative_join dir name)) as [ignored| |]; simpl;
    [|done|done].
  destruct (ignored || bool_decide (name = "node_modules")); [apply IH|].
  destruct (statSync_at root links e) as [[content|children]| |]; simpl;
    [| |done|done].
  - destruct (is_source name); apply IH.
  - destruct (recurse (links + hops e) (relative_join dir name) children
                (visit_folder (relative_join dir name) st))
      as [st1| |] eqn:Hbelow; simpl.
    + rewrite (Hrec _ _ _ _ _ Hbelow) by done. simpl. apply IH.
    + rewrite (Hrec _ _ _ _ _ Hbelow) by done. done.
    + by intros <-.
Qed.

Lemma traverseDirectory_fuel_mono ig root fuel : ∀ fuel' links dir files st r,
  fuel ≤ fuel' →
  traverseDirectory ig root fuel links dir files st = r → r ≠ OutOfFuel →
  traverseDirectory ig root fuel' links dir files st = r.
Proof.
  induction fuel as [|fuel IH]; intros fuel' links dir files st r Hle.
  { by intros <-. }
  destruct fuel' as [|fuel']; [lia|]. simpl.
  apply traverse_files_mono. intros links' dir' files' st' r'. apply IH. lia.
Qed.

Lemma buildGraph_fuel_mono ignore_add JSON_parse fuel fuel' workspace r :
  fuel ≤ fuel' →
  buildGraph ignore_add JSON_parse fuel workspace = r → r ≠ OutOfFuel →
  buildGraph ignore_add JSON_parse fuel' workspace = r.
Proof.
  intros Hle. destruct workspace as [root|]; [|done]. unfold buildGraph.
  destruct (readFileSync root ".gitignore") as [gitignore| |]; simpl;
    [|done|done].
  destruct (traverseDirectory _ root fuel 0 "" root init) as [st| |] eqn:Ht;
    simpl.
  - by rewrite (traverseDirectory_fuel_mono _ _ _ fuel' _ _ _ _ _ Hle Ht).
  - by rewrite (traverseDirectory_fuel_mono _ _ _ fuel' _ _ _ _ _ Hle Ht).
  - by intros <-.
Qed.

(** C2 fails on the code.  [statSync] follows symbolic links and the
    traversal keeps no record of the real directories it has read.  On
    [project_alias] the real directory [lib] is read twice, once as [lib]
    and once through [link], and its file is in the returned graph under
    both paths.  On [project_cycle], where [loop] is a link to the root
    itself, the root is read again and again through [loop],
    [loop/loop], ... until the kernel refuses the path: with a recursion
    bound of [MAXSYMLINKS] nested calls the traversal has not ended, and
    with any larger bound [statSync] throws [ELOOP] at the path that goes
    through one link too many, and no graph is returned. *)
Theorem traverseDirectory_follows_symlinks fuel :
  buildGraph ignore_no_rules JSON_parse_sample (2 + fuel) (Some project_alias)
  = Ok graph_alias
  ∧ buildGraph ignore_no_rules JSON_parse_sample MAXSYMLINKS
      (Some project_cycle)
    = OutOfFuel
  ∧ buildGraph ignore_no_rules JSON_parse_sample (S MAXSYMLINKS + fuel)
      (Some project_cycle)
    = Throw ELOOP.
Proof.
  split; [|split].
  - apply (buildGraph_fuel_mono _ _ 2); [lia| |done].
    vm_compute. reflexivity.
  - vm_compute. reflexivity.
  - apply (buildGraph_fuel_mono _ _ (S MAXSYMLINKS)); [lia| |done].
    vm_compute. reflexivity.
Qed.

(** ** C3: a root without [.gitignore] *)

(** C3 fails on the code: line 38 reads [.gitignore] without asking
    whether it exists, so on every root without that file the build
    throws before it traverses anything. *)
Theorem buildGraph_needs_gitignore ignore_add JSON_parse fuel root :
  entry_named ".gitignore" root = None →
  buildGraph ignore_add JSON_parse fuel (Some root) = Throw ENOENT.
Proof. intros H. unfold buildGraph, readFileSync. by rewrite H. Qed.

Lemma buildGraph_needs_gitignore_witness :
  entry_named ".gitignore" project_no_gitignore = None
  ∧ buildGraph ignore_no_rules JSON_parse_sample 2 (Some project_no_gitignore)
    = Throw ENOENT.
Proof.
  split; [reflexivity|].
  apply (buildGraph_needs_gitignore ignore_no_rules JSON_parse_sample 2
           project_no_gitignore).
  reflexivity.
Defined.

(** ** C4: a manifest that is not JSON *)

(** C4 fails on the code: with the manifest text [{] the traversal ends
    and has its graph, and the build throws instead of returning it. *)
Lemma buildGraph_malformed_manifest_aborts :
  JSON_parse_sample "{" = None
  ∧ traverseDirectory (ignore_no_rules [""]) project_broken_manifest 2 0 ""
      project_broken_manifest init
    = Ok (visit_source "main.ts" "import React from 'react'" init)
  ∧ g_links (prune (visit_source "main.ts" "import React from 'react'" init))
    = [mkLink "main.ts" "react"]
  ∧ buildGraph ignore_no_rules JSON_parse_sample 2 (Some project_broken_manifest)
    = Throw SyntaxError.
Proof. repeat split; vm_compute; reflexivity. Qed.

Section MalformedManifest.

Variable ignore_add : list string → string → bool.
Variable JSON_parse : string → option json.

(** C4, as the code has it.  Take a root on which the traversal has
    returned.  When [package.json] can be read but is not valid JSON,
    the build does not return the graph of the traversal: the
    [SyntaxError] of [JSON.parse] leaves [buildGraph].  Only when there
    is no [package.json] is the manifest step passed over and the graph
    of the traversal returned as it is. *)
Theorem buildGraph_malformed_manifest fuel root gitignore st :
  readFileSync root ".gitignore" = Ok gitignore →
  traverseDirectory (ignore_add [gitignore]) root fuel 0 "" root init = Ok st →
  (∀ text, readFileSync root "package.json" = Ok text →
           JSON_parse text = None →
           buildGraph ignore_add JSON_parse fuel (Some root) = Throw SyntaxError)
  ∧ (existsSync root "package.json" = false →
     buildGraph ignore_add JSON_parse fuel (Some root) = Ok (prune st)).
Proof.
  intros Hg Ht. unfold buildGraph, add_manifest, dependencies.
  rewrite Hg. simpl. rewrite Ht. simpl. split.
  - intros text Hp Hj.
    by rewrite (readFileSync_exists _ _ _ Hp), Hp; simpl; rewrite Hj.
  - by intros ->.
Qed.

End MalformedManifest.

Lemma buildGraph_malformed_manifest_witness :
  readFileSync project_broken_manifest ".gitignore" = Ok ""
  ∧ readFileSync project_broken_manifest "package.json" = Ok "{"
  ∧ JSON_parse_sample "{" = None
  ∧ buildGraph ignore_no_rules JSON_parse_sample 2 (Some project_broken_manifest)
    = Throw SyntaxError.
Proof.
  split; [reflexivity|]. split; [reflexivity|]. split; [reflexivity|].
  apply (proj1 (buildGraph_malformed_manifest ignore_no_rules JSON_parse_sample
                  2 project_broken_manifest ""
                  (visit_source "main.ts" "import React from 'react'" init)
                  eq_refl ltac:(vm_compute; reflexivity)) "{").
  - reflexivity.
  - reflexivity.
Defined.

(** ** C5: which nodes carry imports *)

(** C5 fails on the code.  [src/a.ts] imports [src/b.ts] by its path
    from the root, so that id is registered as a dependency before the
    file [src/b.ts] is visited; [addNode] then returns the dependency
    node and the builder stores the imports of the file in it. *)
Lemma dependency_node_with_imports :
  buildGraph ignore_no_rules JSON_parse_sample 3 (Some project_rooted_imports)
    = Ok graph_rooted_imports
  ∧ ∃ n, n ∈ g_nodes graph_rooted_imports
         ∧ type n = dependency ∧ imports n = ["c"].
Proof.
  split; [vm_compute; reflexivity|].
  exists (mkNode "src/b.ts" ["c"] true dependency).
  split; [|done]. apply list_elem_of_further, list_elem_of_here.
Qed.

Section Imports.

Variable ignore_add : list string → string → bool.
Variable JSON_parse : string → option json.

(** C5, as the code has it.  Take a root whose directories hold
    distinct names, none empty or with a separator, and a graph that a
    build of it returns.  A folder node has an empty imports list, and
    so has a dependency node whose id is not the path of a visited
    source file.  A node whose list is not empty has the path of a
    visited source file as its id and the extracted imports of that file
    as its list. *)
Theorem imports_come_from_source_files fuel root g gitignore evs n :
  names_ok (Dir root) →
  buildGraph ignore_add JSON_parse fuel (Some root) = Ok g →
  readFileSync root ".gitignore" = Ok gitignore →
  walk (ignore_add [gitignore]) root fuel "" root = Ok evs →
  n ∈ g_nodes g →
  (type n = folder → imports n = [])
  ∧ (type n = dependency → (∀ c, Source (id n) c ∉ evs) → imports n = [])
  ∧ (imports n = [] ∨ ∃ c, Source (id n) c ∈ evs ∧ imports n = parseImports c).
Proof.
  intros Hok Hb Hg Hw Hn.
  destruct (buildGraph_built _ _ _ _ _ _ _ Hb Hg Hw) as (deps & Hd & ->).
  apply elem_of_prune in Hn as [Hn _].
  destruct (built_origin evs deps n Hn) as [_ Hf _ Hi].
  split; [|split; [|done]].
  - intros Ht. destruct Hi as [Hi|(c & Hc & _)]; [done|].
    destruct (walk_exclusive _ _ _ _ _ _ Hok Hw (Hf Ht) Hc).
  - intros _ Hs. destruct Hi as [Hi|(c & Hc & _)]; [done|].
    by destruct (Hs c).
Qed.

End Imports.

Lemma imports_come_from_source_files_witness :
  names_ok (Dir project_rooted_imports)
  ∧ buildGraph ignore_no_rules JSON_parse_sample 3 (Some project_rooted_imports)
    = Ok graph_rooted_imports
  ∧ (imports (mkNode "src/b.ts" ["c"] true dependency) = []
     ∨ ∃ c, Source "src/b.ts" c
              ∈ [ Folder "src"; Source "src/a.ts" "import { b } from 'src/b.ts'";
                  Source "src/b.ts" "import c from 'c'" ]
            ∧ imports (mkNode "src/b.ts" ["c"] true dependency) = parseImports c).
Proof.
  assert (Hok : names_ok (Dir project_rooted_imports)).
  { simpl. unfold good_name. repeat split; closed_fact. }
  assert (Hb : buildGraph ignore_no_rules JSON_parse_sample 3
                 (Some project_rooted_imports) = Ok graph_rooted_imports)
    by (vm_compute; reflexivity).
  split; [exact Hok|]. split; [exact Hb|].
  apply (imports_come_from_source_files ignore_no_rules JSON_parse_sample 3
           project_rooted_imports graph_rooted_imports ""
           [ Folder "src"; Source "src/a.ts" "import { b } from 'src/b.ts'";
             Source "src/b.ts" "import c from 'c'" ]
           (mkNode "src/b.ts" ["c"] true dependency) Hok Hb).
  - reflexivity.
  - vm_compute. reflexivity.
  - apply list_elem_of_further, list_elem_of_here.
Defined.

(** ** C6: [addNode] on a registered id *)

(** C6.  [addNode] on an id that is already registered returns the
    reference of the existing node and leaves the whole state as it was:
    the node array (so the node's kind and [isExternal] flag, whatever
    kind and flag the second call passes), the map and the edges.  In a
    state where the map and the array agree, the node behind the
    returned reference is the node of the array that has this id. *)
Theorem addNode_first_writer_wins st i t ext r :
  nodeMap st !! i = Some r →
  addNode i t ext st = (r, st)
  ∧ (wf st →
     ∃ n, nodes (addNode i t ext st).2 !! (addNode i t ext st).1 = Some n
          ∧ nodes st !! r = Some n ∧ id n = i).
Proof.
  intros Hr. unfold addNode. rewrite Hr. split; [done|].
  intros Hwf. simpl. destruct (wf_map st Hwf i r Hr) as (n & Hn & Hid). eauto.
Qed.

Lemma addNode_first_writer_wins_witness :
  nodeMap (addNode "src" folder false init).2 !! "src" = Some 0
  ∧ addNode "src" dependency true (addNode "src" folder false init).2
    = (0, (addNode "src" folder false init).2).
Proof.
  split; [reflexivity|].
  apply (addNode_first_writer_wins (addNode "src" folder false init).2
           "src" dependency true 0).
  reflexivity.
Defined.

(** Registering the same id twice in a row, with whatever kinds and
    flags, is registering it once. *)
Lemma addNode_twice st i t ext t' ext' :
  addNode i t' ext' (addNode i t ext st).2
  = ((addNode i t ext st).1, (addNode i t ext st).2).
Proof. apply addNode_old, addNode_lookup. Qed.

(** ** C7: the names of the manifest *)

(** C7 fails on the code.  The manifest declares [chart.js].  In the
    first project no file imports it, yet the graph has a node with that
    id: the node of the source file [chart.js] at the root.  In the
    second project [page.js] imports it, and the one node with that id
    is still the node of the file, which is not external. *)
Lemma declared_name_of_a_source_file :
  dependencies JSON_parse_sample project_chartjs = Ok ["chart.js"; "react"]
  ∧ walk (ignore_no_rules [""]) project_chartjs 3 "" project_chartjs
    = Ok [Source "chart.js" "import { helper } from './helper'"]
  ∧ parseImports "import { helper } from './helper'" = ["./helper"]
  ∧ buildGraph ignore_no_rules JSON_parse_sample 3 (Some project_chartjs)
    = Ok graph_chartjs
  ∧ (∃ n, n ∈ g_nodes graph_chartjs ∧ id n = "chart.js")
  ∧ dependencies JSON_parse_sample project_chartjs_used
    = Ok ["chart.js"; "react"]
  ∧ buildGraph ignore_no_rules JSON_parse_sample 3 (Some project_chartjs_used)
    = Ok graph_chartjs_used
  ∧ filter (λ m, id m = "chart.js") (g_nodes graph_chartjs_used)
    = [mkNode "chart.js" ["./helper"] false file].
Proof.
  split; [vm_compute; reflexivity|]. split; [vm_compute; reflexivity|].
  split; [vm_compute; reflexivity|]. split; [vm_compute; reflexivity|].
  split.
  { exists (mkNode "chart.js" ["./helper"] false file).
    split; [apply list_elem_of_here|done]. }
  split; [vm_compute; reflexivity|]. split; [vm_compute; reflexivity|].
  vm_compute. reflexivity.
Qed.

Section ManifestNames.

Variable ignore_add : list string → string → bool.
Variable JSON_parse : string → option json.

(** C7, as the code has it.  Take a build that returns [g], with [evs]
    the directories and source files it visited and [dep] a name the
    manifest declares.
    - If no visited file imports [dep], and [dep] is not itself the path
      of a visited source file that has imports, no node of [g] has the
      id [dep].
    - If a visited file imports [dep], exactly one node of [g] has the id
      [dep]; it is external exactly when it is a dependency node, and it
      is one whenever [dep] is not the path of a visited folder or source
      file. *)
Theorem manifest_names_in_graph fuel root g gitignore evs deps dep :
  buildGraph ignore_add JSON_parse fuel (Some root) = Ok g →
  readFileSync root ".gitignore" = Ok gitignore →
  walk (ignore_add [gitignore]) root fuel "" root = Ok evs →
  dependencies JSON_parse root = Ok deps →
  dep ∈ deps →
  ((∀ p c, Source p c ∈ evs → dep ∉ parseImports c) →
   (∀ c, Source dep c ∈ evs → parseImports c = []) →
   ∀ n, n ∈ g_nodes g → id n ≠ dep)
  ∧ (∀ p c, Source p c ∈ evs → dep ∈ parseImports c →
     ∃ n, filter (λ m, id m = dep) (g_nodes g) = [n]
          ∧ (isExternal n = true ↔ type n = dependency)
          ∧ (Folder dep ∉ evs → (∀ c', Source dep c' ∉ evs) →
             type n = dependency ∧ isExternal n = true)).
Proof.
  intros Hb Hg Hw Hd Hdep.
  destruct (buildGraph_built _ _ _ _ _ _ _ Hb Hg Hw) as (deps' & Hd' & ->).
  rewrite Hd in Hd'. injection Hd' as <-. split.
  - intros Hunused Hidle n Hn Hid.
    apply elem_of_prune in Hn as (_ & l & Hl & Hend).
    apply elem_of_built_links in Hl as (p & c & imp & Hev & Himp & ->).
    simpl in Hend. rewrite Hid in Hend. destruct Hend as [->| ->].
    + rewrite (Hidle c Hev) in Himp. by apply elem_of_nil in Himp.
    + by apply (Hunused p c Hev).
  - intros p c Hev Himp.
    destruct (prune_exactly_one (built evs deps) dep (mkLink p dep))
      as (n & Hone & Hn).
    + apply built_wf.
    + apply built_closed.
    + apply elem_of_built_links. by exists p, c, dep.
    + by right.
    + exists n. split; [done|].
      assert (Hid : id n = dep).
      { assert (Hin : n ∈ filter (λ m, id m = dep)
                            (g_nodes (prune (built evs deps)))).
        { rewrite Hone. apply list_elem_of_here. }
        by apply list_elem_of_filter in Hin as [Hin _]. }
      split.
      * rewrite (origin_external _ _ (built_origin evs deps n Hn)).
        by rewrite bool_decide_eq_true.
      * intros Hf Hs. apply (built_dependency evs deps n Hn); by rewrite Hid.
Qed.

End ManifestNames.

Lemma manifest_names_in_graph_witness :
  buildGraph ignore_no_rules JSON_parse_sample 3 (Some project) = Ok graph_project
  ∧ dependencies JSON_parse_sample project = Ok ["chart.js"; "react"]
  ∧ (∀ n, n ∈ g_nodes graph_project → id n ≠ "chart.js")
  ∧ ∃ n, filter (λ m, id m = "react") (g_nodes graph_project) = [n]
         ∧ (isExternal n = true ↔ type n = dependency)
         ∧ (Folder "react" ∉ visits_project →
            (∀ c', Source "react" c' ∉ visits_project) →
            type n = dependency ∧ isExternal n = true).
Proof.
  assert (Hb : buildGraph ignore_no_rules JSON_parse_sample 3 (Some project)
               = Ok graph_project) by (vm_compute; reflexivity).
  assert (Hg : readFileSync project ".gitignore" = Ok "") by reflexivity.
  assert (Hw : walk (ignore_no_rules [""]) project 3 "" project
               = Ok visits_project) by (vm_compute; reflexivity).
  assert (Hd : dependencies JSON_parse_sample project
               = Ok ["chart.js"; "react"]) by (vm_compute; reflexivity).
  split; [exact Hb|]. split; [exact Hd|]. split.
  - apply (manifest_names_in_graph ignore_no_rules JSON_parse_sample 3 project
             graph_project "" visits_project ["chart.js"; "react"] "chart.js"
             Hb Hg Hw Hd).
    + apply list_elem_of_here.
    + apply sources_all. unfold visits_project.
      repeat apply Forall_cons_2; [closed_fact..|apply Forall_nil_2].
    + intros c Hev.
      refine (sources_all (λ p c, p = "chart.js" → parseImports c = [])
                visits_project _ "chart.js" c Hev eq_refl).
      unfold visits_project.
      repeat apply Forall_cons_2; [closed_fact..|apply Forall_nil_2].
  - apply (proj2 (manifest_names_in_graph ignore_no_rules JSON_parse_sample 3
             project graph_project "" visits_project ["chart.js"; "react"]
             "react" Hb Hg Hw Hd
             (list_elem_of_further _ _ _ (list_elem_of_here _ _)))
             "src/main.ts" main_text).
    + apply list_elem_of_further, list_elem_of_here.
    + closed_fact.
Defined.

(** ** C8: a specifier imported twice *)

(** C8 fails on the code.  [src/a.ts] imports [src] twice; the id [src]
    is already the folder node, so the two edges end at it and the graph
    has no dependency node for that specifier. *)
Lemma repeated_import_of_a_folder_path :
  walk (ignore_no_rules [""]) project_src_import 3 "" project_src_import
    = Ok [ Folder "src";
           Source "src/a.ts"
             ("import a from 'src'" +:+ lf +:+ "import b from 'src'") ]
  ∧ parseImports ("import a from 'src'" +:+ lf +:+ "import b from 'src'")
    = ["src"; "src"]
  ∧ buildGraph ignore_no_rules JSON_parse_sample 3 (Some project_src_import)
    = Ok graph_src_import
  ∧ filter (λ m, type m = dependency) (g_nodes graph_src_import) = [].
Proof.
  split; [vm_compute; reflexivity|]. split; [vm_compute; reflexivity|].
  split; [vm_compute; reflexivity|]. vm_compute. reflexivity.
Qed.

Section RepeatedImport.

Variable ignore_add : list string → string → bool.
Variable JSON_parse : string → option json.

(** C8, as the code has it.  Take a build that returns [g] and a source
    file which it visited at path [p], with text [c], whose extracted
    import list holds [spec] at two positions.  Then the edge list of
    [g] holds the edge from [p] to [spec] at two positions, and exactly
    one node of [g] has the id [spec]; that node is a dependency node,
    and external, whenever [spec] is not the path of a visited folder or
    source file. *)
Theorem repeated_import_edges fuel root g gitignore evs p c spec i j :
  buildGraph ignore_add JSON_parse fuel (Some root) = Ok g →
  readFileSync root ".gitignore" = Ok gitignore →
  walk (ignore_add [gitignore]) root fuel "" root = Ok evs →
  Source p c ∈ evs →
  i < j →
  parseImports c !! i = Some spec →
  parseImports c !! j = Some spec →
  (∃ i' j', i' < j'
            ∧ g_links g !! i' = Some (mkLink p spec)
            ∧ g_links g !! j' = Some (mkLink p spec))
  ∧ ∃ n, filter (λ m, id m = spec) (g_nodes g) = [n]
         ∧ (Folder spec ∉ evs → (∀ c', Source spec c' ∉ evs) →
            type n = dependency ∧ isExternal n = true).
Proof.
  intros Hb Hg Hw Hev Hij Hi Hj.
  destruct (buildGraph_built _ _ _ _ _ _ _ Hb Hg Hw) as (deps & Hd & ->).
  split.
  - destruct (built_links_of_source evs deps p c Hev) as [k Hk].
    exists (k + i), (k + j). split; [lia|]. split; by apply Hk.
  - destruct (prune_exactly_one (built evs deps) spec (mkLink p spec))
      as (n & Hone & Hn).
    + apply built_wf.
    + apply built_closed.
    + apply elem_of_built_links. exists p, c, spec.
      split; [done|]. split; [|done]. by eapply list_elem_of_lookup_2.
    + by right.
    + exists n. split; [done|].
      assert (Hid : id n = spec).
      { assert (Hin : n ∈ filter (λ m, id m = spec)
                            (g_nodes (prune (built evs deps)))).
        { rewrite Hone. apply list_elem_of_here. }
        by apply list_elem_of_filter in Hin as [Hin _]. }
      intros Hf Hs. apply (built_dependency evs deps n Hn); by rewrite Hid.
Qed.

End RepeatedImport.

Lemma repeated_import_edges_witness :
  buildGraph ignore_no_rules JSON_parse_sample 3 (Some project_twice)
    = Ok graph_twice
  ∧ parseImports twice_text !! 0 = Some "./util"
  ∧ parseImports twice_text !! 1 = Some "./util"
  ∧ (∃ i' j', i' < j'
              ∧ g_links graph_twice !! i' = Some (mkLink "main.ts" "./util")
              ∧ g_links graph_twice !! j' = Some (mkLink "main.ts" "./util"))
  ∧ ∃ n, filter (λ m, id m = "./util") (g_nodes graph_twice) = [n]
         ∧ (Folder "./util" ∉ [Source "main.ts" twice_text] →
            (∀ c', Source "./util" c' ∉ [Source "main.ts" twice_text]) →
            type n = dependency ∧ isExternal n = true).
Proof.
  assert (Hb : buildGraph ignore_no_rules JSON_parse_sample 3
                 (Some project_twice) = Ok graph_twice)
    by (vm_compute; reflexivity).
  assert (H0 : parseImports twice_text !! 0 = Some "./util")
    by (vm_compute; reflexivity).
  assert (H1 : parseImports twice_text !! 1 = Some "./util")
    by (vm_compute; reflexivity).
  split; [exact Hb|]. split; [exact H0|]. split; [exact H1|].
  apply (repeated_import_edges ignore_no_rules JSON_parse_sample 3
           project_twice graph_twice "" [Source "main.ts" twice_text]
           "main.ts" twice_text "./util" 0 1 Hb).
  - reflexivity.
  - vm_compute. reflexivity.
  - apply list_elem_of_here.
  - lia.
  - exact H0.
  - exact H1.
Defined.

(** ** C9: the extensions of source files *)

(** C9 fails on the code: the branch tests [path.extname] against [.ts]
    and [.js] only, so [App.tsx] is passed over and the graph is empty,
    where the same text in [App.ts] gives a file node with its import. *)
Theorem traverseDirectory_skips_tsx :
  is_source "App.tsx" = false
  ∧ is_source "App.jsx" = false
  ∧ buildGraph ignore_no_rules JSON_parse_sample 2 (Some project_tsx)
    = Ok (mkGraph [] [])
  ∧ buildGraph ignore_no_rules JSON_parse_sample 2 (Some project_ts)
    = Ok (mkGraph [ mkNode "App.ts" ["react"] false file;
                    mkNode "react" [] true dependency ]
                  [ mkLink "App.ts" "react" ]).
Proof. repeat split; vm_compute; reflexivity. Qed.

(** ** C10: what the extractor returns *)

(** C10 fails on the code: the pattern matches inside a comment, does
    not match an import declaration that spans lines or has no [from],
    and takes the specifier of a re-export that follows an [import] on
    the same line. *)
Theorem parseImports_is_textual :
  parseImports "// import z from 'w'" = ["w"]
  ∧ parseImports ("import {" +:+ lf +:+ "  a" +:+ lf +:+ "} from 'b'") = []
  ∧ parseImports "import './side'" = []
  ∧ parseImports "import './side'; export * from 'q'" = ["q"].
Proof. repeat split; vm_compute; reflexivity. Qed.

(** * The second builder on the same inputs *)

(** ** Accepted paths *)

Lemma ignores_accepted ig path :
  accepted path = true → ignores ig path = Ok (ig path).
Proof.
  unfold accepted, ignores. rewrite andb_true_iff, !negb_true_iff.
  intros [Hne Hrel]. by rewrite Hne, Hrel.
Qed.

Lemma skip_dots_app l c r s :
  skip_dots l = c :: r → skip_dots (l ++ s) = c :: r ++ s.
Proof.
  induction l as [|a l IH]; [done|]. simpl.
  destruct (Ascii.eqb a "."); [done|]. by intros [= -> ->].
Qed.

(** A path below an accepted path is accepted. *)
Lemma accepted_below dir name :
  accepted dir = true → accepted (relative_join dir name) = true.
Proof.
  unfold accepted.
  rewrite !andb_true_iff, !negb_true_iff, !bool_decide_eq_false.
  intros [Hne Hrel].
  assert (Hjoin : relative_join dir name = dir +:+ "/" +:+ name).
  { unfold relative_join. by rewrite bool_decide_eq_false_2. }
  rewrite Hjoin. split.
  - destruct dir; [done|]. by rewrite append_cons.
  - unfold isNotRelative in *. rewrite list_ascii_of_string_app.
    destruct (skip_dots (String.list_ascii_of_string dir)) as [|c r] eqn:Hs.
    + apply negb_false_iff, bool_decide_eq_true in Hrel. destruct dir; done.
    + by rewrite (skip_dots_app _ c r _ Hs).
Qed.

(** ** The second traversal returns unless a path is refused *)

Lemma traverse_entry_Dir ts_imports ig full rel name children g :
  FileParser.traverse_entry ts_imports ig full rel name (Dir children) g
  = traverse_entries ts_imports ig full rel children g.
Proof.
  simpl. revert g. induction children as [|[n e] rest IH]; intros g; [done|].
  simpl. destruct (ignores ig (relative_join rel n)) as [ignored| |]; simpl;
    [|done|done].
  destruct ignored; simpl; [apply IH|].
  destruct (FileParser.traverse_entry ts_imports ig (join full n)
              (relative_join rel n) n e g); simpl; [apply IH|done|done].
Qed.

Lemma traverse_entries_total ts_imports ig full rel entries : ∀ g,
  Forall (λ x, accepted (relative_join rel x.1) = true
               ∧ ∀ g, ∃ g', FileParser.traverse_entry ts_imports ig
                              (join full x.1) (relative_join rel x.1) x.1 x.2 g
                            = Ok g') entries →
  ∃ g', traverse_entries ts_imports ig full rel entries g = Ok g'.
Proof.
  induction entries as [|[n e] rest IH]; intros g Hall; [by exists g|].
  apply Forall_cons in Hall as [[Hacc He] Hrest]. simpl in Hacc, He. simpl.
  rewrite (ignores_accepted _ _ Hacc). simpl.
  destruct (ig (relative_join rel n)); simpl; [by apply IH|].
  destruct (He g) as [g1 ->]. simpl. by apply IH.
Qed.

Lemma traverse_entry_total ts_imports ig e : ∀ full rel name g,
  accepted rel = true →
  ∃ g', FileParser.traverse_entry ts_imports ig full rel name e g = Ok g'.
Proof.
  induction e as [c|children IH|p] using entry_tree_ind;
    intros full rel name g Hacc; [simpl; eauto| |simpl; eauto].
  rewrite traverse_entry_Dir. apply traverse_entries_total.
  apply (Forall_impl _ _ _ IH). intros [n e] He. simpl in *. split.
  - by apply accepted_below.
  - intros g0. apply He. by apply accepted_below.
Qed.

Section Sibling.

Variable ignore_add : list string → string → bool.
Variable ts_imports : string → string → list string.

(** The second builder returns on every tree, with or without symbolic
    links and with or without [.gitignore], unless [.gitignore] is there
    and cannot be read as a file or a name in the root directory is one
    that [ig.ignores] refuses. *)
Lemma buildFileGraph_returns rootPath root :
  (existsSync root ".gitignore" = true →
   ∃ content, readFileSync root ".gitignore" = Ok content) →
  Forall (λ x, accepted x.1 = true) root →
  ∃ g, FileParser.buildFileGraph ignore_add ts_imports rootPath root = Ok g.
Proof.
  intros Hread Hnames.
  assert (Htraverse : ∀ ig,
            ∃ g, FileParser.traverseDirectory ts_imports ig rootPath root = Ok g).
  { intros ig. unfold FileParser.traverseDirectory.
    rewrite traverse_entry_Dir. apply traverse_entries_total.
    apply (Forall_impl _ _ _ Hnames). intros [n e] Hn. simpl in *.
    split; [done|]. intros g. by apply traverse_entry_total. }
  unfold FileParser.buildFileGraph.
  destruct (existsSync root ".gitignore") eqn:He; simpl; [|apply Htraverse].
  destruct Hread as [content ->]; [done|]. simpl. apply Htraverse.
Qed.

(** [FileGraph.addNode] is last-writer-wins: registering a path again
    replaces its node. *)
Lemma FileGraph_addNode_overwrites p imps imps' g :
  FileParser.addNode p imps' (FileParser.addNode p imps g)
  = FileParser.addNode p imps' g.
Proof.
  unfold FileParser.addNode.
  generalize (FileParser.mkFileNode p (FileParser.basename p) imps).
  generalize (FileParser.mkFileNode p (FileParser.basename p) imps').
  intros v' v. induction g as [|[k w] g IH]; simpl.
  - by rewrite bool_decide_eq_true_2.
  - case_bool_decide as Hk; simpl.
    + by rewrite bool_decide_eq_true_2.
    + rewrite bool_decide_eq_false_2 by done. by rewrite IH.
Qed.

End Sibling.

Section SiblingProjects.

Variable ts_imports : string → string → list string.

Lemma buildFileGraph_symlink_cycle :
  FileParser.buildFileGraph ignore_no_rules ts_imports "/w" project_cycle
  = Ok [].
Proof. vm_compute. reflexivity. Qed.

Lemma buildFileGraph_alias :
  FileParser.buildFileGraph ignore_no_rules ts_imports "/w" project_alias
  = Ok [ ("/w/lib/a.ts",
          FileParser.mkFileNode "/w/lib/a.ts" "a.ts"
            (ts_imports "/w/lib/a.ts" "import b from './b'")) ].
Proof. vm_compute. reflexivity. Qed.

Lemma buildFileGraph_missing_gitignore :
  FileParser.buildFileGraph ignore_no_rules ts_imports "/w" project_no_gitignore
  = Ok [ ("/w/main.ts",
          FileParser.mkFileNode "/w/main.ts" "main.ts"
            (ts_imports "/w/main.ts" "import React from 'react'")) ].
Proof. vm_compute. reflexivity. Qed.

Lemma buildFileGraph_reads_tsx :
  FileParser.buildFileGraph ignore_no_rules ts_imports "/w" project_tsx
  = Ok [ ("/w/App.tsx",
          FileParser.mkFileNode "/w/App.tsx" "App.tsx"
            (ts_imports "/w/App.tsx" "import React from 'react'")) ].
Proof. vm_compute. reflexivity. Qed.

End SiblingProjects.

(** * Further properties of the builder *)

(** ** When a build returns *)



Section Totality.

Variable ignore_add : list string → string → bool.
Variable JSON_parse : string → option json.


End Totality.


(** ** The graph a build returns *)

Section ReturnedGraph.

Variable ignore_add : list string → string → bool.
Variable JSON_parse : string → option json.

(** No two nodes of a returned graph have the same id. *)
Theorem buildGraph_ids_unique fuel workspace g :
  buildGraph ignore_add JSON_parse fuel workspace = Ok g →
  NoDup (id <$> g_nodes g).
Proof.
  destruct workspace as [root|].
  - intros (gitignore & evs & deps & _ & _ & _ & ->)%buildGraph_Ok.
    apply prune_NoDup, built_wf.
  - intros [= <-]. apply NoDup_nil_2.
Qed.

(** The edges of a returned graph are the extracted imports of the
    visited source files, file by file in the order of the traversal and,
    within a file, in the order of extraction.  The manifest adds no edge
    and pruning removes none. *)
Theorem buildGraph_edges fuel root g gitignore evs :
  buildGraph ignore_add JSON_parse fuel (Some root) = Ok g →
  readFileSync root ".gitignore" = Ok gitignore →
  walk (ignore_add [gitignore]) root fuel "" root = Ok evs →
  g_links g = evs ≫= event_links.
Proof.
  intros Hb Hg Hw.
  destruct (buildGraph_built _ _ _ _ _ _ _ Hb Hg Hw) as (deps & Hd & ->).
  apply built_links.
Qed.

(** When no visited source file has an import, the returned graph is
    empty: without edges every node is an orphan. *)
Theorem buildGraph_without_imports fuel root g gitignore evs :
  buildGraph ignore_add JSON_parse fuel (Some root) = Ok g →
  readFileSync root ".gitignore" = Ok gitignore →
  walk (ignore_add [gitignore]) root fuel "" root = Ok evs →
  (∀ p c, Source p c ∈ evs → parseImports c = []) →
  g = mkGraph [] [].
Proof.
  intros Hb Hg Hw Hnone.
  destruct (buildGraph_built _ _ _ _ _ _ _ Hb Hg Hw) as (deps & Hd & ->).
  assert (Hlinks : links (built evs deps) = []).
  { apply elem_of_nil_inv. intros l Hl.
    apply elem_of_built_links in Hl as (p & c & imp & Hev & Himp & _).
    rewrite (Hnone p c Hev) in Himp. by apply elem_of_nil in Himp. }
  unfold prune. rewrite Hlinks. f_equal.
  apply filter_none. intros n _ Hin. by apply elem_of_empty in Hin.
Qed.

End ReturnedGraph.

(** Pruning a second time changes nothing. *)
Theorem prune_idempotent st :
  g_nodes (prune (mkState (g_nodes (prune st)) (links st) (nodeMap st)))
  = g_nodes (prune st).
Proof.
  unfold prune. simpl. rewrite list_filter_filter.
  apply list_filter_iff. tauto.
Qed.

Lemma buildGraph_ids_unique_witness :
  buildGraph ignore_no_rules JSON_parse_sample 3 (Some project) = Ok graph_project
  ∧ NoDup (id <$> g_nodes graph_project).
Proof.
  assert (Hb : buildGraph ignore_no_rules JSON_parse_sample 3 (Some project)
               = Ok graph_project) by (vm_compute; reflexivity).
  split; [exact Hb|].
  apply (buildGraph_ids_unique ignore_no_rules JSON_parse_sample 3
           (Some project) graph_project Hb).
Defined.

Lemma buildGraph_edges_witness :
  buildGraph ignore_no_rules JSON_parse_sample 3 (Some project) = Ok graph_project
  ∧ g_links graph_project = visits_project ≫= event_links.
Proof.
  assert (Hb : buildGraph ignore_no_rules JSON_parse_sample 3 (Some project)
               = Ok graph_project) by (vm_compute; reflexivity).
  split; [exact Hb|].
  apply (buildGraph_edges ignore_no_rules JSON_parse_sample 3 project
           graph_project "" visits_project Hb).
  - reflexivity.
  - vm_compute. reflexivity.
Defined.

Lemma buildGraph_without_imports_witness :
  buildGraph ignore_no_rules JSON_parse_sample 3 (Some project_lone)
    = Ok (mkGraph [] [])
  ∧ mkGraph [] [] = mkGraph [] [].
Proof.
  assert (Hb : buildGraph ignore_no_rules JSON_parse_sample 3 (Some project_lone)
               = Ok (mkGraph [] [])) by (vm_compute; reflexivity).
  split; [exact Hb|].
  apply (buildGraph_without_imports ignore_no_rules JSON_parse_sample 3
           project_lone (mkGraph [] []) ""
           [Source "lone.ts" "export const x = 1"] Hb).
  - reflexivity.
  - vm_compute. reflexivity.
  - apply sources_all. repeat apply Forall_cons_2; [closed_fact|apply Forall_nil_2].
Defined.

(** ** Visited source files are registered with their imports *)

Section SourceFiles.

Variable ignore_add : list string → string → bool.
Variable JSON_parse : string → option json.

(** A visited source file from which at least one import is extracted
    is in the returned graph: the node whose id is its relative path
    carries its extracted import list. *)
Theorem source_file_in_graph fuel root g gitignore evs p c :
  names_ok (Dir root) →
  buildGraph ignore_add JSON_parse fuel (Some root) = Ok g →
  readFileSync root ".gitignore" = Ok gitignore →
  walk (ignore_add [gitignore]) root fuel "" root = Ok evs →
  Source p c ∈ evs →
  parseImports c ≠ [] →
  ∃ n, n ∈ g_nodes g ∧ id n = p ∧ imports n = parseImports c.
Proof.
  intros Hok Hb Hg Hw Hev Himps.
  destruct (buildGraph_built _ _ _ _ _ _ _ Hb Hg Hw) as (deps & Hd & ->).
  destruct (built_tracked evs deps) as [Hwf Hs Hn].
  pose proof (Hs p c Hev) as Hp. unfold ids in Hp.
  apply list_elem_of_fmap in Hp as (n & -> & Hin).
  exists n. split; [|split; [done|]].
  - apply elem_of_prune. split; [done|].
    destruct (parseImports c) as [|imp imps] eqn:E; [done|].
    exists (mkLink (id n) imp). split; [|by left].
    apply elem_of_built_links. exists (id n), c, imp.
    split; [done|]. split; [|done]. rewrite E. apply list_elem_of_here.
  - destruct (Hn n Hin) as (c' & Hc' & Hi); [by exists c|].
    by rewrite Hi, (walk_source_text _ _ _ _ _ _ _ Hok Hw Hev Hc').
Qed.

End SourceFiles.

Lemma source_file_in_graph_witness :
  names_ok (Dir project)
  ∧ buildGraph ignore_no_rules JSON_parse_sample 3 (Some project) = Ok graph_project
  ∧ ∃ n, n ∈ g_nodes graph_project
         ∧ id n = "src/main.ts" ∧ imports n = parseImports main_text.
Proof.
  assert (Hok : names_ok (Dir project)).
  { simpl. unfold good_name. repeat split; closed_fact. }
  assert (Hb : buildGraph ignore_no_rules JSON_parse_sample 3 (Some project)
               = Ok graph_project) by (vm_compute; reflexivity).
  split; [exact Hok|]. split; [exact Hb|].
  apply (source_file_in_graph ignore_no_rules JSON_parse_sample 3 project
           graph_project "" visits_project "src/main.ts" main_text Hok Hb).
  - reflexivity.
  - vm_compute. reflexivity.
  - apply list_elem_of_further, list_elem_of_here.
  - closed_fact.
Defined.

(** * More on the first builder *)

(** ** The manifest step and the returned graph *)

(** Registering a name that no edge ends at leaves the pruned graph as
    it was: the new node is an orphan. *)
Lemma prune_register_dependency dep st :
  wf st → closed st → prune (register_dependency st dep) = prune st.
Proof.
  intros Hwf Hc. unfold register_dependency.
  destruct (nodeMap st !! dep) as [r|] eqn:E.
  { by rewrite (addNode_old _ _ _ _ _ E). }
  rewrite (addNode_new _ _ _ _ E). unfold prune. simpl. f_equal.
  rewrite filter_app, filter_cons_False, filter_nil, app_nil_r; [done|].
  simpl. intros Hin. apply elem_of_connectedNodes in Hin as (l & Hl & Hend).
  assert (Hid : dep ∈ ids st) by (destruct (Hc l Hl), Hend; by subst).
  destruct (registered_lookup st dep Hwf Hid) as [r Hr]. congruence.
Qed.

Lemma prune_register_dependencies deps : ∀ st,
  wf st → closed st → prune (foldl register_dependency st deps) = prune st.
Proof.
  induction deps as [|dep deps IH]; intros st Hwf Hc; simpl; [done|].
  rewrite IH.
  - by apply prune_register_dependency.
  - by apply addNode_wf.
  - by apply addNode_closed.
Qed.

(** The names of the manifest leave the pruned graph of the visits as
    it is. *)
Lemma prune_built evs deps : prune (built evs deps) = prune (built evs []).
Proof.
  unfold built. simpl. apply prune_register_dependencies.
  - apply events_wf, wf_init.
  - apply events_closed; [apply wf_init|apply closed_init].
Qed.

Lemma traverseDirectory_built ig root fuel st :
  traverseDirectory ig root fuel 0 "" root init = Ok st →
  ∃ evs, walk ig root fuel "" root = Ok evs ∧ st = built evs [].
Proof.
  intros (evs & Hw & ->)%traverseDirectory_walk. by exists evs.
Qed.

Section ManifestStep.

Variable ignore_add : list string → string → bool.
Variable JSON_parse : string → option json.

(** The manifest step never changes the graph that is returned.  Once
    the traversal has returned, the build runs the manifest step for its
    exceptions only: when the step does not throw, the build returns the
    pruned graph of the traversal, whatever names the manifest
    declares. *)
Theorem manifest_step_changes_nothing fuel root gitignore st :
  readFileSync root ".gitignore" = Ok gitignore →
  traverseDirectory (ignore_add [gitignore]) root fuel 0 "" root init = Ok st →
  buildGraph ignore_add JSON_parse fuel (Some root)
  = (_ ← dependencies JSON_parse root; Ok (prune st)).
Proof.
  intros Hg Ht. unfold buildGraph, add_manifest. rewrite Hg. simpl.
  rewrite Ht. simpl.
  destruct (dependencies JSON_parse root) as [deps| |]; simpl; [|done|done].
  apply traverseDirectory_built in Ht as (evs & _ & ->).
  f_equal. apply (prune_built evs deps).
Qed.

(** With a [package.json] that can be read, the outcome of the build is
    settled by what [JSON.parse] makes of its text: a [SyntaxError] when
    the text is not JSON, a [TypeError] when it is the JSON value
    [null], and the pruned graph of the traversal for every other
    value. *)
Theorem buildGraph_manifest_outcome fuel root gitignore st text :
  readFileSync root ".gitignore" = Ok gitignore →
  traverseDirectory (ignore_add [gitignore]) root fuel 0 "" root init = Ok st →
  readFileSync root "package.json" = Ok text →
  buildGraph ignore_add JSON_parse fuel (Some root)
  = match JSON_parse text with
    | None => Throw SyntaxError
    | Some JNull => Throw TypeError
    | Some _ => Ok (prune st)
    end.
Proof.
  intros Hg Ht Hp. unfold buildGraph, add_manifest, dependencies.
  rewrite Hg. simpl. rewrite Ht. simpl.
  rewrite (readFileSync_exists _ _ _ Hp), Hp. simpl.
  apply traverseDirectory_built in Ht as (evs & _ & ->).
  destruct (JSON_parse text) as [packageJson|]; [|done].
  assert (Hdeps : ∀ deps, Ok (prune (foldl register_dependency (built evs []) deps))
                          = Ok (prune (built evs []))).
  { intros deps. f_equal. apply (prune_built evs deps). }
  destruct packageJson as [|b|z|s0|items|props]; simpl; try apply (Hdeps []).
  - done.
  - destruct (prop_named "dependencies" props); simpl; apply Hdeps.
Qed.

End ManifestStep.

Lemma manifest_step_changes_nothing_witness :
  traverseDirectory (ignore_no_rules [""]) project 3 0 "" project init
    = Ok (foldl apply_event init visits_project)
  ∧ buildGraph ignore_no_rules JSON_parse_sample 3 (Some project)
    = (_ ← dependencies JSON_parse_sample project;
       Ok (prune (foldl apply_event init visits_project))).
Proof.
  assert (Ht : traverseDirectory (ignore_no_rules [""]) project 3 0 "" project init
               = Ok (foldl apply_event init visits_project))
    by (vm_compute; reflexivity).
  split; [exact Ht|].
  apply (manifest_step_changes_nothing ignore_no_rules JSON_parse_sample 3
           project "" (foldl apply_event init visits_project) eq_refl Ht).
Defined.

Lemma buildGraph_manifest_outcome_witness :
  readFileSync project "package.json" = Ok manifest_text
  ∧ buildGraph ignore_no_rules JSON_parse_sample 3 (Some project)
    = match JSON_parse_sample manifest_text with
      | None => Throw SyntaxError
      | Some JNull => Throw TypeError
      | Some _ => Ok (prune (foldl apply_event init visits_project))
      end.
Proof.
  split; [reflexivity|].
  apply (buildGraph_manifest_outcome ignore_no_rules JSON_parse_sample 3
           project "" (foldl apply_event init visits_project) manifest_text
           eq_refl).
  - vm_compute. reflexivity.
  - reflexivity.
Defined.

(** ** The node set *)

Section NodeSet.

Variable ignore_add : list string → string → bool.
Variable JSON_parse : string → option json.

(** The ids of the returned nodes are the paths of the visited source
    files from which at least one import was extracted, together with
    every extracted specifier, and nothing else. *)
Theorem buildGraph_node_ids fuel root g gitignore evs i :
  buildGraph ignore_add JSON_parse fuel (Some root) = Ok g →
  readFileSync root ".gitignore" = Ok gitignore →
  walk (ignore_add [gitignore]) root fuel "" root = Ok evs →
  i ∈ id <$> g_nodes g ↔
  ∃ p c, Source p c ∈ evs
         ∧ (i = p ∧ parseImports c ≠ [] ∨ i ∈ parseImports c).
Proof.
  intros Hb Hg Hw.
  destruct (buildGraph_built _ _ _ _ _ _ _ Hb Hg Hw) as (deps & Hd & ->).
  rewrite list_elem_of_fmap. split.
  - intros (n & -> & Hn). apply elem_of_prune in Hn as (_ & l & Hl & Hend).
    apply elem_of_built_links in Hl as (p & c & imp & Hev & Himp & ->).
    simpl in Hend. exists p, c. split; [done|].
    destruct Hend as [-> | ->]; [left|by right].
    split; [done|]. intros E. rewrite E in Himp. by apply elem_of_nil in Himp.
  - intros (p & c & Hev & Hi).
    assert (∃ l, l ∈ links (built evs deps) ∧ (i = source l ∨ i = target l))
      as (l & Hl & Hend).
    { destruct Hi as [[-> Hne] | Hi].
      - destruct (parseImports c) as [|imp imps] eqn:E; [done|].
        exists (mkLink p imp). split; [|by left].
        apply elem_of_built_links. exists p, c, imp. rewrite E.
        split; [done|]. split; [apply list_elem_of_here|done].
      - exists (mkLink p i). split; [|by right].
        apply elem_of_built_links. by exists p, c, i. }
    assert (Hid : i ∈ ids (built evs deps)).
    { destruct (built_closed evs deps l Hl), Hend; by subst. }
    destruct (prune_keeps _ _ _ Hid Hl Hend) as (n & Hn & <-). by exists n.
Qed.

(** A folder node is in a returned graph only as the target of an
    import: some visited file imports a specifier that is, letter for
    letter, the relative path of the folder. *)
Theorem folder_nodes_are_import_targets fuel root g gitignore evs n :
  names_ok (Dir root) →
  buildGraph ignore_add JSON_parse fuel (Some root) = Ok g →
  readFileSync root ".gitignore" = Ok gitignore →
  walk (ignore_add [gitignore]) root fuel "" root = Ok evs →
  n ∈ g_nodes g → type n = folder →
  Folder (id n) ∈ evs ∧ ∃ p c, Source p c ∈ evs ∧ id n ∈ parseImports c.
Proof.
  intros Hok Hb Hg Hw Hn Ht.
  destruct (buildGraph_built _ _ _ _ _ _ _ Hb Hg Hw) as (deps & Hd & ->).
  apply elem_of_prune in Hn as (Hn & l & Hl & Hend).
  pose proof (origin_folder _ _ (built_origin evs deps n Hn) Ht) as Hf.
  split; [done|].
  apply elem_of_built_links in Hl as (p & c & imp & Hev & Himp & ->).
  simpl in Hend. destruct Hend as [Hp|Hi].
  - rewrite Hp in Hf. destruct (walk_exclusive _ _ _ _ _ _ Hok Hw Hf Hev).
  - exists p, c. by rewrite Hi.
Qed.

(** A node of a returned graph is flagged external exactly when its
    kind is [dependency]. *)
Theorem external_nodes_are_dependencies fuel workspace g n :
  buildGraph ignore_add JSON_parse fuel workspace = Ok g →
  n ∈ g_nodes g → (isExternal n = true ↔ type n = dependency).
Proof.
  destruct workspace as [root|].
  - intros (gitignore & evs & deps & _ & _ & _ & ->)%buildGraph_Ok Hn.
    apply elem_of_prune in Hn as [Hn _].
    rewrite (origin_external _ _ (built_origin evs deps n Hn)).
    by rewrite bool_decide_eq_true.
  - intros [= <-] Hn. by apply elem_of_nil in Hn.
Qed.

End NodeSet.

Lemma buildGraph_node_ids_witness :
  buildGraph ignore_no_rules JSON_parse_sample 3 (Some project) = Ok graph_project
  ∧ ("react" ∈ id <$> g_nodes graph_project ↔
     ∃ p c, Source p c ∈ visits_project
            ∧ ("react" = p ∧ parseImports c ≠ [] ∨ "react" ∈ parseImports c)).
Proof.
  assert (Hb : buildGraph ignore_no_rules JSON_parse_sample 3 (Some project)
               = Ok graph_project) by (vm_compute; reflexivity).
  split; [exact Hb|].
  apply (buildGraph_node_ids ignore_no_rules JSON_parse_sample 3 project
           graph_project "" visits_project "react" Hb).
  - reflexivity.
  - vm_compute. reflexivity.
Defined.

Lemma folder_nodes_are_import_targets_witness :
  names_ok (Dir project_src_import)
  ∧ buildGraph ignore_no_rules JSON_parse_sample 3 (Some project_src_import)
    = Ok graph_src_import
  ∧ Folder "src"
      ∈ [ Folder "src";
          Source "src/a.ts"
            ("import a from 'src'" +:+ lf +:+ "import b from 'src'") ]
  ∧ ∃ p c, Source p c
             ∈ [ Folder "src";
                 Source "src/a.ts"
                   ("import a from 'src'" +:+ lf +:+ "import b from 'src'") ]
           ∧ "src" ∈ parseImports c.
Proof.
  assert (Hok : names_ok (Dir project_src_import)).
  { simpl. unfold good_name. repeat split; closed_fact. }
  assert (Hb : buildGraph ignore_no_rules JSON_parse_sample 3
                 (Some project_src_import) = Ok graph_src_import)
    by (vm_compute; reflexivity).
  split; [exact Hok|]. split; [exact Hb|].
  apply (folder_nodes_are_import_targets ignore_no_rules JSON_parse_sample 3
           project_src_import graph_src_import ""
           [ Folder "src";
             Source "src/a.ts"
               ("import a from 'src'" +:+ lf +:+ "import b from 'src'") ]
           (mkNode "src" [] false folder) Hok Hb).
  - reflexivity.
  - vm_compute. reflexivity.
  - apply list_elem_of_here.
  - reflexivity.
Defined.

Lemma external_nodes_are_dependencies_witness :
  buildGraph ignore_no_rules JSON_parse_sample 3 (Some project) = Ok graph_project
  ∧ (isExternal (mkNode "react" [] true dependency) = true
     ↔ type (mkNode "react" [] true dependency) = dependency).
Proof.
  assert (Hb : buildGraph ignore_no_rules JSON_parse_sample 3 (Some project)
               = Ok graph_project) by (vm_compute; reflexivity).
  split; [exact Hb|].
  apply (external_nodes_are_dependencies ignore_no_rules JSON_parse_sample 3
           (Some project) graph_project (mkNode "react" [] true dependency) Hb).
  apply list_elem_of_further, list_elem_of_here.
Defined.

(** ** Which entries the traversal visits *)

Lemma located_nonempty root files segs st :
  located root files segs st → segs ≠ [].
Proof. by intros []. Qed.

Lemma last_name_cons name segs :
  segs ≠ [] → last_name (name :: segs) = last_name segs.
Proof. unfold last_name. by destruct segs. Qed.

Lemma admitted_cons ig dir name segs :
  admitted ig dir (name :: segs) = true →
  ig (relative_join dir name) = false ∧ name ≠ "node_modules"
  ∧ admitted ig (relative_join dir name) segs = true.
Proof.
  simpl. rewrite andb_true_iff, negb_true_iff, orb_false_iff.
  intros [[Hig Hnm] Hadm]. by apply bool_decide_eq_false in Hnm.
Qed.

Lemma reached_below ig root dir files name e children ev :
  ig (relative_join dir name) = false → name ≠ "node_modules" →
  (name, e) ∈ files →
  statSync root e = Ok (IsDirectory children) →
  reached ig root (relative_join dir name) children ev →
  reached ig root dir files ev.
Proof.
  intros Hig Hnm Hin Hst (segs & Hadm & Hp & Hev). exists (name :: segs).
  split; [|split; [done|]].
  - simpl. by rewrite Hig, bool_decide_eq_false_2, Hadm.
  - destruct ev as [p|p c].
    + destruct Hev as [ch Hloc]. exists ch. by eapply located_below.
    + destruct Hev as [Hloc Hsrc]. split; [by eapply located_below|].
      rewrite last_name_cons; [done|]. by eapply located_nonempty.
Qed.

(** Every visit is of an entry that the loop lets through, on every
    level from the root down. *)
Lemma walk_files_reached ig root recurse :
  (∀ dir files evs, recurse dir files = Ok evs →
     ∀ ev, ev ∈ evs → reached ig root dir files ev) →
  ∀ dir all files evs, (∀ x, x ∈ files → x ∈ all) →
    walk_files ig root recurse dir files = Ok evs →
    ∀ ev, ev ∈ evs → reached ig root dir all ev.
Proof.
  intros Hrec dir all.
  induction files as [|[name e] rest IH]; intros evs Hsub.
  { simpl. intros [= <-] ev Hev. by apply elem_of_nil in Hev. }
  assert (Hin : (name, e) ∈ all) by apply Hsub, list_elem_of_here.
  assert (Hsub' : ∀ x, x ∈ rest → x ∈ all).
  { intros x Hx. by apply Hsub, list_elem_of_further. }
  destruct (ig (relative_join dir name) || bool_decide (name = "node_modules"))
    eqn:Hig.
  { rewrite walk_files_ignored by done. by apply IH. }
  apply orb_false_iff in Hig as [Hig Hnm]. apply bool_decide_eq_false in Hnm.
  assert (Hadm : admitted ig dir [name] = true).
  { simpl. by rewrite Hig, bool_decide_eq_false_2. }
  destruct (statSync root e) as [[content|children]| |] eqn:Hst.
  - rewrite (walk_files_file _ _ _ _ _ _ content) by done.
    destruct (walk_files ig root recurse dir rest) as [after| |] eqn:Hafter;
      simpl; [|done|done].
    intros [= <-] ev Hev. destruct (is_source name) eqn:Hsrc; [|by eapply IH].
    apply elem_of_cons in Hev as [->|Hev]; [|by eapply IH].
    exists [name]. split; [done|]. split; [done|].
    split; [by eapply located_here|done].
  - rewrite (walk_files_directory _ _ _ _ _ _ children) by done.
    destruct (recurse (relative_join dir name) children) as [below| |] eqn:Hbelow;
      simpl; [|done|done].
    destruct (walk_files ig root recurse dir rest) as [after| |] eqn:Hafter;
      simpl; [|done|done].
    intros [= <-] ev Hev.
    apply elem_of_cons in Hev as [->|Hev].
    { exists [name]. split; [done|]. split; [done|].
      exists children. by eapply located_here. }
    apply elem_of_app in Hev as [Hev|Hev]; [|by eapply IH].
    apply (reached_below ig root dir all name e children); [done..|].
    by apply (Hrec _ _ below).
  - intros Hw. exfalso. revert Hw.
    rewrite walk_files_cons.
    by rewrite Hig, bool_decide_eq_false_2, Hst.
  - intros Hw. exfalso. revert Hw.
    rewrite walk_files_cons.
    by rewrite Hig, bool_decide_eq_false_2, Hst.
Qed.

Lemma walk_reached ig root fuel :
  ∀ dir files evs, walk ig root fuel dir files = Ok evs →
    ∀ ev, ev ∈ evs → reached ig root dir files ev.
Proof.
  induction fuel as [|fuel IH]; intros dir files evs; [done|].
  simpl. intros Hw. by eapply (walk_files_reached ig root _ IH dir files).
Qed.

(** A loop that returns has gone through the rest of the listing. *)
Lemma walk_files_after ig root recurse dir name e rest evs :
  walk_files ig root recurse dir ((name, e) :: rest) = Ok evs →
  ∃ after, walk_files ig root recurse dir rest = Ok after
           ∧ ∀ ev, ev ∈ after → ev ∈ evs.
Proof.
  rewrite walk_files_cons.
  destruct (ig (relative_join dir name) || bool_decide (name = "node_modules")).
  { intros ->. eauto. }
  destruct (statSync root e) as [[content|children]| |]; simpl; [| |done|done].
  - destruct (walk_files ig root recurse dir rest) as [after| |]; simpl;
      [|done|done].
    intros [= <-]. exists after. split; [done|]. intros ev Hev.
    destruct (is_source name); [by apply list_elem_of_further|done].
  - destruct (recurse (relative_join dir name) children) as [below| |]; simpl;
      [|done|done].
    destruct (walk_files ig root recurse dir rest) as [after| |]; simpl;
      [|done|done].
    intros [= <-]. exists after. split; [done|]. intros ev Hev.
    apply list_elem_of_further, elem_of_app. by right.
Qed.


Lemma walk_files_entry_directory ig root recurse dir name e children :
  ig (relative_join dir name) = false → name ≠ "node_modules" →
  statSync root e = Ok (IsDirectory children) →
  ∀ files evs, (name, e) ∈ files →
    walk_files ig root recurse dir files = Ok evs →
    Folder (relative_join dir name) ∈ evs
    ∧ ∃ below, recurse (relative_join dir name) children = Ok below
               ∧ ∀ ev, ev ∈ below → ev ∈ evs.
Proof.
  intros Hig Hnm Hst.
  induction files as [|[n0 e0] rest IH]; intros evs Hin Hw.
  { by apply elem_of_nil in Hin. }
  apply elem_of_cons in Hin as [[= <- <-]|Hin].
  - rewrite (walk_files_directory _ _ _ _ _ _ children) in Hw by done.
    destruct (recurse (relative_join dir name) children) as [below| |];
      simpl in Hw; [|done|done].
    destruct (walk_files ig root recurse dir rest) as [after| |]; simpl in Hw;
      [|done|done].
    injection Hw as <-. split; [apply list_elem_of_here|].
    exists below. split; [done|]. intros ev Hev.
    apply list_elem_of_further, elem_of_app. by left.
  - apply walk_files_after in Hw as (after & Hafter & Hsub).
    destruct (IH after Hin Hafter) as (Hf & below & Hb & Hsub').
    split; [by apply Hsub|]. exists below. split; [done|]. auto.
Qed.


(** ** An entry that cannot be resolved *)

Lemma walk_files_stat_fails ig root recurse dir name e err :
  ig (relative_join dir name) = false → name ≠ "node_modules" →
  statSync root e = Throw err →
  ∀ files evs, (name, e) ∈ files →
    walk_files ig root recurse dir files = Ok evs → False.
Proof.
  intros Hig Hnm Hst.
  induction files as [|[n0 e0] rest IH]; intros evs Hin Hw.
  { by apply elem_of_nil in Hin. }
  apply elem_of_cons in Hin as [[= <- <-]|Hin].
  - revert Hw. rewrite walk_files_cons.
    by rewrite Hig, bool_decide_eq_false_2, Hst.
  - apply walk_files_after in Hw as (after & Hafter & _). by eapply IH.
Qed.

Lemma walk_unresolved ig root fuel :
  ∀ dir files evs segs children name e err,
    walk ig root fuel dir files = Ok evs →
    (segs = [] ∧ children = files
     ∨ located root files segs (IsDirectory children)) →
    admitted ig dir (segs ++ [name]) = true →
    (name, e) ∈ children → statSync root e = Throw err → False.
Proof.
  induction fuel as [|fuel IH];
    intros dir files evs segs children name e err Hw Hat Hadm Hin Hst; [done|].
  simpl in Hw. destruct Hat as [[-> ->]|Hloc].
  - apply admitted_cons in Hadm as (Hig & Hnm & _).
    by eapply walk_files_stat_fails.
  - inversion Hloc as [? n0 e0 ? Hin0 Hst0|? n0 e0 ch0 segs0 ? Hin0 Hst0 Hloc0];
      subst; rewrite <- app_comm_cons in Hadm;
      apply admitted_cons in Hadm as (Hig & Hnm & Hadm);
      destruct (walk_files_entry_directory ig root _ dir n0 e0 _
                  Hig Hnm Hst0 files evs Hin0 Hw) as (_ & below & Hb & _).
    + eapply (IH _ _ _ [] children name e err Hb); eauto.
    + eapply (IH _ _ _ segs0 children name e err Hb); eauto.
Qed.

(** ** No path is visited twice *)

Lemma visit_located_head root dir files ev :
  visit_located root dir files ev →
  ∃ n segs, n ∈ files.*1 ∧ Forall good_name (n :: segs)
            ∧ event_path ev = extend dir (n :: segs).
Proof.
  intros (segs & Hgood & Hev).
  assert (Hloc : ∃ st, located root files segs st
                       ∧ event_path ev = extend dir segs).
  { destruct ev as [p|p c]; simpl.
    - destruct Hev as (-> & ch & Hloc). eauto.
    - destruct Hev as (-> & Hloc). eauto. }
  destruct Hloc as (st & Hloc & Hp).
  assert (Hhead : ∃ n segs', segs = n :: segs' ∧ n ∈ files.*1).
  { inversion Hloc as [? n e ? Hin|? n e ? segs' ? Hin]; subst.
    - exists n, []. split; [done|]. apply list_elem_of_fmap. by exists (n, e).
    - exists n, segs'. split; [done|]. apply list_elem_of_fmap. by exists (n, e). }
  destruct Hhead as (n & segs' & -> & Hn). by exists n, segs'.
Qed.

Lemma names_ok_tail x rest : names_ok (Dir (x :: rest)) → names_ok (Dir rest).
Proof.
  rewrite !names_ok_Dir, fmap_cons, NoDup_cons. intros [[_ Hnd] Hall].
  split; [done|]. intros n e Hin. by apply Hall, list_elem_of_further.
Qed.

Lemma walk_files_NoDup ig root recurse :
  names_ok (Dir root) →
  (∀ dir files evs, names_ok (Dir files) → recurse dir files = Ok evs →
     NoDup (event_path <$> evs)
     ∧ ∀ ev, ev ∈ evs → visit_located root dir files ev) →
  ∀ dir files evs, names_ok (Dir files) →
    walk_files ig root recurse dir files = Ok evs →
    NoDup (event_path <$> evs).
Proof.
  intros Hroot Hrec dir.
  assert (Hloc : ∀ files evs, names_ok (Dir files) →
            walk_files ig root recurse dir files = Ok evs →
            ∀ ev, ev ∈ evs → visit_located root dir files ev).
  { intros files evs Hok Hw.
    apply (walk_files_located ig root recurse Hroot)
      with (files := files) (evs := evs); [|done|done|done].
    intros dir' files' evs' Hok' Hr. by apply (Hrec dir' files' evs'). }
  induction files as [|[name e] rest IH]; intros evs Hok.
  { simpl. intros [= <-]. apply NoDup_nil_2. }
  pose proof (names_ok_tail _ _ Hok) as Hok'.
  pose proof Hok as Hok2. apply names_ok_Dir in Hok2 as [Hnd Hnames].
  rewrite fmap_cons in Hnd. apply NoDup_cons in Hnd as [Hfresh _].
  simpl in Hfresh.
  destruct (Hnames name e (list_elem_of_here _ _)) as [Hname He].
  assert (Hafter_path : ∀ after ev,
            walk_files ig root recurse dir rest = Ok after →
            ev ∈ after → ∀ segs, Forall good_name segs →
            event_path ev ≠ extend dir (name :: segs)).
  { intros after ev Hafter Hev segs Hgood Heq.
    destruct (visit_located_head _ _ _ _ (Hloc rest after Hok' Hafter ev Hev))
      as (n & segs' & Hn & Hgood' & Hp).
    rewrite Hp in Heq. apply extend_inj in Heq; [|done|by apply Forall_cons].
    injection Heq as -> _. done. }
  destruct (ig (relative_join dir name) || bool_decide (name = "node_modules"))
    eqn:Hig.
  { rewrite walk_files_ignored by done. by apply IH. }
  apply orb_false_iff in Hig as [Hig Hnm]. apply bool_decide_eq_false in Hnm.
  destruct (statSync root e) as [[content|children]| |] eqn:Hst.
  - rewrite (walk_files_file _ _ _ _ _ _ content) by done.
    destruct (walk_files ig root recurse dir rest) as [after| |] eqn:Hafter;
      simpl; [|done|done].
    intros [= <-]. destruct (is_source name); [|by apply IH].
    rewrite fmap_cons. apply NoDup_cons. split; [|by apply IH].
    simpl. intros Hin. apply list_elem_of_fmap in Hin as (ev & Hp & Hev).
    by apply (Hafter_path after ev eq_refl Hev []).
  - rewrite (walk_files_directory _ _ _ _ _ _ children) by done.
    destruct (recurse (relative_join dir name) children) as [below| |] eqn:Hbelow;
      simpl; [|done|done].
    destruct (walk_files ig root recurse dir rest) as [after| |] eqn:Hafter;
      simpl; [|done|done].
    intros [= <-].
    assert (Hch : names_ok (Dir children))
      by (by apply (names_ok_statSync root e)).
    destruct (Hrec _ _ _ Hch Hbelow) as [Hnd_below Hloc_below].
    assert (Hbelow_path : ∀ ev, ev ∈ below →
              ∃ n segs, Forall good_name (n :: segs)
                        ∧ event_path ev = extend dir (name :: n :: segs)).
    { intros ev Hev.
      destruct (visit_located_head _ _ _ _ (Hloc_below ev Hev))
        as (n & segs & _ & Hgood & Hp). by exists n, segs. }
    rewrite fmap_cons, fmap_app. apply NoDup_cons. split.
    + simpl. rewrite elem_of_app, !list_elem_of_fmap.
      intros [(ev & Hp & Hev)|(ev & Hp & Hev)].
      * destruct (Hbelow_path ev Hev) as (n & segs & Hgood & Hq).
        rewrite Hq in Hp.
        change (relative_join dir name) with (extend dir [name]) in Hp.
        apply extend_inj in Hp;
          [done|by apply Forall_singleton|by apply Forall_cons].
      * by apply (Hafter_path after ev eq_refl Hev []).
    + apply NoDup_app. split; [done|]. split; [|by apply IH].
      intros p Hb Ha.
      apply list_elem_of_fmap in Hb as (ev & -> & Hev).
      apply list_elem_of_fmap in Ha as (ev' & Hp & Hev').
      destruct (Hbelow_path ev Hev) as (n & segs & Hgood & Hq).
      rewrite Hq in Hp. symmetry in Hp.
      by apply (Hafter_path after ev' eq_refl Hev' (n :: segs)).
  - intros Hw. exfalso. revert Hw.
    rewrite walk_files_cons.
    by rewrite Hig, bool_decide_eq_false_2, Hst.
  - intros Hw. exfalso. revert Hw.
    rewrite walk_files_cons.
    by rewrite Hig, bool_decide_eq_false_2, Hst.
Qed.

Lemma walk_NoDup ig root fuel :
  names_ok (Dir root) →
  ∀ dir files evs, names_ok (Dir files) →
    walk ig root fuel dir files = Ok evs → NoDup (event_path <$> evs).
Proof.
  intros Hroot. induction fuel as [|fuel IH]; intros dir files evs Hok; [done|].
  simpl. intros Hw.
  apply (walk_files_NoDup ig root (walk ig root fuel) Hroot)
    with (dir := dir) (files := files); [|done|done].
  intros dir' files' evs' Hok' Hw'. split; [by eapply IH|].
  by apply (walk_located ig root fuel Hroot).
Qed.

(** ** The edges that leave a node *)

Lemma event_links_source ev l :
  l ∈ event_links ev → ∃ c, ev = Source (source l) c.
Proof.
  destruct ev as [p|p c]; simpl; [by intros ?%elem_of_nil|].
  intros (imp & -> & _)%list_elem_of_fmap. by exists c.
Qed.

Lemma out_links_none evs i :
  (∀ c, Source i c ∉ evs) →
  filter (λ l, source l = i) (evs ≫= event_links) = [].
Proof.
  intros Hnone. apply filter_none. intros l Hl Hs.
  apply list_elem_of_bind in Hl as (ev & Hl & Hev).
  apply event_links_source in Hl as [c ->]. rewrite Hs in Hev.
  by apply (Hnone c).
Qed.

Lemma out_links_source evs i c :
  NoDup (event_path <$> evs) → Source i c ∈ evs →
  filter (λ l, source l = i) (evs ≫= event_links) = mkLink i <$> parseImports c.
Proof.
  intros Hnd Hev. apply list_elem_of_split in Hev as (e1 & e2 & ->).
  rewrite fmap_app, fmap_cons in Hnd. apply NoDup_app in Hnd as (_ & Hdisj & Hnd).
  apply NoDup_cons in Hnd as [Hfresh _]. simpl in *.
  rewrite bind_app, bind_cons, !filter_app.
  rewrite (out_links_none e1), (out_links_none e2); simpl.
  - rewrite app_nil_r. induction (parseImports c) as [|imp imps IH]; [done|].
    rewrite fmap_cons, filter_cons_True by done. by rewrite IH.
  - intros c' Hev. apply Hfresh. apply list_elem_of_fmap.
    by exists (Source i c').
  - intros c' Hev. apply (Hdisj i); [|apply list_elem_of_here].
    apply list_elem_of_fmap. by exists (Source i c').
Qed.

Lemma source_visited_or_not (evs : list event) i :
  (∃ c, Source i c ∈ evs) ∨ (∀ c, Source i c ∉ evs).
Proof.
  induction evs as [|ev evs IH].
  - right. intros c Hc. by apply elem_of_nil in Hc.
  - destruct IH as [[c Hc]|Hnone].
    { left. exists c. by apply list_elem_of_further. }
    destruct ev as [p|p c].
    + right. intros c Hc. apply elem_of_cons in Hc as [Hc|Hc]; [done|].
      by apply (Hnone c).
    + destruct (decide (p = i)) as [->|Hp].
      * left. exists c. apply list_elem_of_here.
      * right. intros c' Hc. apply elem_of_cons in Hc as [Hc|Hc]; [congruence|].
        by apply (Hnone c').
Qed.


Section Visits.

Variable ignore_add : list string → string → bool.
Variable JSON_parse : string → option json.

(** A file node of a returned graph stands for a file of the tree: its
    id is the path of a file that [statSync] resolves, whose name is a
    source file's, and on the way to which, the file included, no path
    is ignored and no name is [node_modules]. *)
Theorem file_nodes_are_admitted_sources fuel root g gitignore n :
  buildGraph ignore_add JSON_parse fuel (Some root) = Ok g →
  readFileSync root ".gitignore" = Ok gitignore →
  n ∈ g_nodes g → type n = file →
  ∃ segs c, id n = extend "" segs
            ∧ located root root segs (IsFile c)
            ∧ admitted (ignore_add [gitignore]) "" segs = true
            ∧ is_source (last_name segs) = true.
Proof.
  intros Hb Hg Hn Ht.
  apply buildGraph_Ok in Hb as (gitignore' & evs & deps & Hg' & Hw & _ & ->).
  rewrite Hg in Hg'. injection Hg' as <-.
  apply elem_of_prune in Hn as [Hn _].
  destruct (origin_file _ _ (built_origin evs deps n Hn) Ht) as [c Hev].
  destruct (walk_reached _ _ _ _ _ _ Hw _ Hev)
    as (segs & Hadm & Hp & Hloc & Hsrc).
  by exists segs, c.
Qed.


(** One entry that [statSync] cannot resolve (a dangling symbolic
    link), in the root or in a directory the traversal enters, and not
    ignored, makes the whole build fail: with no amount of fuel does it
    return a graph. *)
Theorem unresolved_entry_aborts root gitignore segs children name e err :
  readFileSync root ".gitignore" = Ok gitignore →
  (segs = [] ∧ children = root
   ∨ located root root segs (IsDirectory children)) →
  admitted (ignore_add [gitignore]) "" (segs ++ [name]) = true →
  (name, e) ∈ children →
  statSync root e = Throw err →
  ∀ fuel g, buildGraph ignore_add JSON_parse fuel (Some root) ≠ Ok g.
Proof.
  intros Hg Hat Hadm Hin Hst fuel g Hb.
  apply buildGraph_Ok in Hb as (gitignore' & evs & deps & Hg' & Hw & _ & _).
  rewrite Hg in Hg'. injection Hg' as <-.
  by eapply (walk_unresolved _ _ _ _ _ _ _ _ _ _ _ Hw Hat Hadm Hin Hst).
Qed.

(** Nodes and edges agree: for every node of a returned graph, the
    targets of the edges that leave it, in the order of the edge list,
    are its [imports] list. *)
Theorem out_edges_are_imports fuel root g n :
  names_ok (Dir root) →
  buildGraph ignore_add JSON_parse fuel (Some root) = Ok g →
  n ∈ g_nodes g →
  target <$> filter (λ l, source l = id n) (g_links g) = imports n.
Proof.
  intros Hok Hb Hn.
  apply buildGraph_Ok in Hb as (gitignore & evs & deps & Hg & Hw & _ & ->).
  apply elem_of_prune in Hn as [Hn _]. simpl. rewrite built_links.
  pose proof (walk_NoDup _ _ _ Hok _ _ _ Hok Hw) as Hnd.
  assert (Hcases : (∃ c, Source (id n) c ∈ evs ∧ imports n = parseImports c)
                   ∨ (imports n = [] ∧ ∀ c, Source (id n) c ∉ evs)).
  { destruct (origin_imports _ _ (built_origin evs deps n Hn)) as [Hi|Hi];
      [|by left].
    destruct (source_visited_or_not evs (id n)) as [Hs|Hs].
    - left. by apply (tracked_nodes _ _ (built_tracked evs deps) n Hn).
    - by right. }
  destruct Hcases as [(c & Hev & ->)|[-> Hnone]].
  - rewrite (out_links_source evs (id n) c Hnd Hev).
    rewrite <- list_fmap_compose. apply list_fmap_id.
  - by rewrite out_links_none.
Qed.

End Visits.


Lemma file_nodes_are_admitted_sources_witness :
  buildGraph ignore_no_rules JSON_parse_sample 3 (Some project) = Ok graph_project
  ∧ ∃ segs c,
      id (mkNode "src/main.ts" ["react"; "./util"] false file) = extend "" segs
      ∧ located project project segs (IsFile c)
      ∧ admitted (ignore_no_rules [""]) "" segs = true
      ∧ is_source (last_name segs) = true.
Proof.
  assert (Hb : buildGraph ignore_no_rules JSON_parse_sample 3 (Some project)
               = Ok graph_project) by (vm_compute; reflexivity).
  split; [exact Hb|].
  apply (file_nodes_are_admitted_sources ignore_no_rules JSON_parse_sample 3
           project graph_project ""
           (mkNode "src/main.ts" ["react"; "./util"] false file) Hb).
  - reflexivity.
  - apply list_elem_of_here.
  - reflexivity.
Defined.


Lemma unresolved_entry_aborts_witness :
  statSync project_dangling (Symlink ["nowhere"]) = Throw ENOENT
  ∧ ∀ fuel g,
      buildGraph ignore_no_rules JSON_parse_sample fuel (Some project_dangling)
      ≠ Ok g.
Proof.
  split; [reflexivity|].
  apply (unresolved_entry_aborts ignore_no_rules JSON_parse_sample
           project_dangling "" [] project_dangling "broken"
           (Symlink ["nowhere"]) ENOENT).
  - reflexivity.
  - by left.
  - reflexivity.
  - apply list_elem_of_further, list_elem_of_here.
  - reflexivity.
Defined.

Lemma out_edges_are_imports_witness :
  names_ok (Dir project)
  ∧ buildGraph ignore_no_rules JSON_parse_sample 3 (Some project) = Ok graph_project
  ∧ target <$> filter (λ l, source l = "src/main.ts") (g_links graph_project)
    = ["react"; "./util"].
Proof.
  assert (Hok : names_ok (Dir project)).
  { simpl. unfold good_name. repeat split; closed_fact. }
  assert (Hb : buildGraph ignore_no_rules JSON_parse_sample 3 (Some project)
               = Ok graph_project) by (vm_compute; reflexivity).
  split; [exact Hok|]. split; [exact Hb|].
  apply (out_edges_are_imports ignore_no_rules JSON_parse_sample 3 project
           graph_project (mkNode "src/main.ts" ["react"; "./util"] false file)
           Hok Hb).
  apply list_elem_of_here.
Defined.

(** * The scanner, in general

    What a match of the pattern has read, and which texts it matches. *)

Module ScanFacts.
Import Regex.

Lemma rmatch_Seq r1 r2 s cap k :
  rmatch (Seq r1 r2) s cap k = rmatch r1 s cap (λ s1 cap1, rmatch r2 s1 cap1 k).
Proof. reflexivity. Qed.

Lemma lits_cons c c' l : lits (c :: c' :: l) = Seq (Lit c) (lits (c' :: l)).
Proof. reflexivity. Qed.

Lemma rmatch_lits_inv l : l ≠ [] → ∀ s cap k m,
  rmatch (lits l) s cap k = Some m → ∃ rest, s = l ++ rest ∧ k rest cap = Some m.
Proof.
  induction l as [|c l IH]; [done|]. intros _ s cap k m.
  destruct l as [|c' l'].
  - simpl. destruct s as [|c0 s]; [done|].
    destruct (Ascii.eqb_spec c c0) as [->|]; [|done]. eauto.
  - rewrite lits_cons, rmatch_Seq. simpl.
    destruct s as [|c0 s]; [done|].
    destruct (Ascii.eqb_spec c c0) as [->|]; [|done].
    intros H. apply IH in H as (rest & -> & H); [|done]. eauto.
Qed.

Lemma rmatch_lits_app l : l ≠ [] → ∀ rest cap k,
  rmatch (lits l) (l ++ rest) cap k = k rest cap.
Proof.
  induction l as [|c l IH]; [done|]. intros _ rest cap k.
  destruct l as [|c' l'].
  - simpl. by rewrite Ascii.eqb_refl.
  - rewrite lits_cons, rmatch_Seq. simpl. rewrite Ascii.eqb_refl.
    by apply (IH ltac:(done)).
Qed.

Lemma star_inv g p : ∀ s k m,
  star g p s k = Some m →
  ∃ w rest, s = w ++ rest ∧ forallb p w = true ∧ k rest = Some m.
Proof.
  induction s as [|c s IH]; intros k m; simpl.
  - intros H. by exists [], [].
  - destruct (p c) eqn:Hc; [|intros H; by exists [], (c :: s)].
    destruct g.
    + destruct (star true p s k) eqn:E.
      * intros [= ->]. apply IH in E as (w & rest & -> & Hw & Hk).
        exists (c :: w), rest. simpl. by rewrite Hc.
      * intros H. by exists [], (c :: s).
    + destruct (k (c :: s)) eqn:E.
      * intros [= ->]. by exists [], (c :: s).
      * intros H. apply IH in H as (w & rest & -> & Hw & Hk).
        exists (c :: w), rest. simpl. by rewrite Hc.
Qed.

Lemma star_lazy_inv p : ∀ s k m,
  star false p s k = Some m →
  ∃ w rest, s = w ++ rest ∧ forallb p w = true ∧ k rest = Some m
            ∧ ∀ w1 w2, w = w1 ++ w2 → w2 ≠ [] → k (w2 ++ rest) = None.
Proof.
  induction s as [|c s IH]; intros k m; simpl.
  - intros H. exists [], []. split_and!; [done..|].
    intros w1 w2 Hw. by destruct w1, w2.
  - assert (Hstop : k (c :: s) = Some m →
       ∃ w rest, c :: s = w ++ rest ∧ forallb p w = true ∧ k rest = Some m
                 ∧ ∀ w1 w2, w = w1 ++ w2 → w2 ≠ [] → k (w2 ++ rest) = None).
    { intros H. exists [], (c :: s). split_and!; [done..|].
      intros w1 w2 Hw. by destruct w1, w2. }
    destruct (p c) eqn:Hc; [|done].
    destruct (k (c :: s)) eqn:E; [intros [= ->]; by apply Hstop|].
    intros H. apply IH in H as (w & rest & -> & Hw & Hk & Hmin).
    exists (c :: w), rest. split_and!; [done|by simpl; rewrite Hc|done|].
    intros w1 w2 Heq Hne. destruct w1 as [|c1 w1]; simpl in Heq.
    + by subst w2.
    + injection Heq as _ ->. by apply (Hmin w1 w2).
Qed.

Lemma star_greedy p : ∀ w s k v,
  forallb p w = true → no_head p s → k s = Some v →
  star true p (w ++ s) k = Some v.
Proof.
  induction w as [|c w IH]; intros s k v Hw Hs Hk; simpl.
  - destruct s as [|c s]; [done|]. simpl in *. by rewrite Hs.
  - simpl in Hw. apply andb_true_iff in Hw as [-> Hw].
    by rewrite (IH s k v).
Qed.

Lemma star_lazy p : ∀ u s k v,
  forallb p u = true →
  (∀ u1 u2, u = u1 ++ u2 → u2 ≠ [] → k (u2 ++ s) = None) →
  k s = Some v →
  star false p (u ++ s) k = Some v.
Proof.
  induction u as [|c u IH]; intros s k v Hu Hmin Hk; simpl.
  - destruct s as [|c s]; [done|]. simpl. rewrite Hk. by destruct (p c).
  - simpl in Hu. apply andb_true_iff in Hu as [-> Hu].
    pose proof (Hmin [] (c :: u) eq_refl ltac:(done)) as H0. simpl in H0. rewrite H0.
    apply IH; [done| |done].
    intros u1 u2 -> Hne. by apply (Hmin (c :: u1) u2).
Qed.

Lemma rmatch_Plus_inv g p s cap k m :
  rmatch (Plus g p) s cap k = Some m →
  ∃ c w rest, s = c :: w ++ rest ∧ p c = true ∧ forallb p w = true
              ∧ k rest cap = Some m.
Proof.
  simpl. destruct s as [|c s]; [done|]. destruct (p c) eqn:Hc; [|done].
  intros H. apply star_inv in H as (w & rest & -> & Hw & Hk).
  by exists c, w, rest.
Qed.

Lemma rmatch_Star_inv g p s cap k m :
  rmatch (Star g p) s cap k = Some m →
  ∃ w rest, s = w ++ rest ∧ forallb p w = true ∧ k rest cap = Some m.
Proof. simpl. intros H. by apply star_inv in H. Qed.

Lemma rmatch_Class_inv p s cap k m :
  rmatch (Class p) s cap k = Some m →
  ∃ c rest, s = c :: rest ∧ p c = true ∧ k rest cap = Some m.
Proof.
  simpl. destruct s as [|c s]; [done|]. destruct (p c) eqn:Hc; [|done].
  intros H. by exists c, s.
Qed.

Lemma take_matched {A} (a b : list A) :
  take (length (a ++ b) - length b) (a ++ b) = a.
Proof.
  rewrite length_app, Nat.add_sub. apply take_app_length.
Qed.

Lemma rmatch_Group_Plus_lazy_inv p s cap k m :
  rmatch (Group (Plus false p)) s cap k = Some m →
  ∃ c w rest, s = c :: w ++ rest ∧ p c = true ∧ forallb p w = true
              ∧ k rest (Some (c :: w)) = Some m
              ∧ ∀ w1 w2, w = w1 ++ w2 → w2 ≠ [] →
                  k (w2 ++ rest) (Some (c :: w1)) = None.
Proof.
  simpl. destruct s as [|c s]; [done|]. destruct (p c) eqn:Hc; [|done].
  intros H. apply star_lazy_inv in H as (w & rest & -> & Hw & Hk & Hmin).
  exists c, w, rest. split_and!; [done..| |].
  - rewrite <- Hk. do 2 f_equal. symmetry.
    apply (take_matched (c :: w) rest).
  - intros w1 w2 -> Hne. rewrite <- (Hmin w1 w2 eq_refl Hne). do 2 f_equal.
    rewrite <- app_assoc. symmetry. apply (take_matched (c :: w1) (w2 ++ rest)).
Qed.

Lemma quote_not_space c : is_quote c = true → is_space c = false.
Proof. by destruct c as [[] [] [] [] [] [] [] []]. Qed.

Lemma forallb_both (p q : ascii → bool) : ∀ w,
  forallb p w = true →
  (∀ w1 c w2, w = w1 ++ c :: w2 → q c = true) →
  forallb (λ c, p c && q c) w = true.
Proof.
  induction w as [|c w IH]; intros Hp Hq; [done|]. simpl in *.
  apply andb_true_iff in Hp as [-> Hp]. rewrite (Hq [] c w eq_refl). simpl.
  apply IH; [done|]. intros w1 c' w2 ->. by apply (Hq (c :: w1) c' w2).
Qed.

Lemma forallb_split (p q : ascii → bool) w :
  forallb (λ c, p c && q c) w = true →
  forallb p w = true ∧ forallb q w = true.
Proof.
  induction w as [|c w IH]; [done|]. simpl.
  rewrite !andb_true_iff. intros [[-> ->] H]. destruct (IH H). auto.
Qed.

(** What a match of the pattern at the head of [s] has read. *)
Lemma match_here_import_inv s rest cap :
  match_here importRegex s = Some (rest, cap) →
  ∃ c1 w1 mid c2 w2 q1 c0 sp q2,
    s = String.list_ascii_of_string "import" ++ c1 :: w1 ++ mid
        ++ String.list_ascii_of_string "from" ++ c2 :: w2
        ++ q1 :: c0 :: sp ++ q2 :: rest
    ∧ forallb is_space (c1 :: w1) = true
    ∧ forallb is_dot mid = true
    ∧ forallb is_space (c2 :: w2) = true
    ∧ is_quote q1 = true
    ∧ is_dot c0 = true
    ∧ forallb (λ c, is_dot c && negb (is_quote c)) sp = true
    ∧ is_quote q2 = true
    ∧ cap = Some (c0 :: sp).
Proof.
  unfold match_here, importRegex. rewrite rmatch_Seq. intros H.
  apply rmatch_lits_inv in H as (s1 & -> & H); [|done].
  rewrite rmatch_Seq in H.
  apply rmatch_Plus_inv in H as (c1 & w1 & s2 & -> & Hc1 & Hw1 & H).
  rewrite rmatch_Seq in H.
  apply rmatch_Star_inv in H as (mid & s3 & -> & Hmid & H).
  rewrite rmatch_Seq in H.
  apply rmatch_lits_inv in H as (s4 & -> & H); [|done].
  rewrite rmatch_Seq in H.
  apply rmatch_Plus_inv in H as (c2 & w2 & s5 & -> & Hc2 & Hw2 & H).
  rewrite rmatch_Seq in H.
  apply rmatch_Class_inv in H as (q1 & s6 & -> & Hq1 & H).
  rewrite rmatch_Seq in H.
  apply rmatch_Group_Plus_lazy_inv in H
    as (c0 & sp & s7 & -> & Hc0 & Hsp & H & Hmin).
  apply rmatch_Class_inv in H as (q2 & s8 & -> & Hq2 & H).
  injection H as -> <-.
  exists c1, w1, mid, c2, w2, q1, c0, sp, q2.
  split_and!; try done.
  - simpl. by rewrite Hc1.
  - simpl. by rewrite Hc2.
  - apply forallb_both; [done|]. intros w1' c w2' ->.
    pose proof (Hmin w1' (c :: w2') eq_refl ltac:(done)) as Hnone.
    simpl in Hnone. by destruct (is_quote c).
Qed.

Lemma exec_inv r : ∀ s m,
  exec r s = Some m → ∃ pre s', s = pre ++ s' ∧ match_here r s' = Some m.
Proof.
  induction s as [|c s IH]; intros m; simpl.
  - destruct (match_here r []) eqn:E; [|done]. intros [= ->]. by exists [], [].
  - destruct (match_here r (c :: s)) eqn:E.
    + intros [= ->]. by exists [], (c :: s).
    + intros H. apply IH in H as (pre & s' & -> & H). by exists (c :: pre), s'.
Qed.

Lemma read_then_rest (A B w1 mid w2 sp rest : list ascii) c1 c2 q1 c0 q2 :
  A ++ c1 :: w1 ++ mid ++ B ++ c2 :: w2 ++ q1 :: c0 :: sp ++ q2 :: rest
  = (A ++ c1 :: w1 ++ mid ++ B ++ c2 :: w2 ++ q1 :: c0 :: sp ++ [q2]) ++ rest.
Proof. by simplify_list_eq. Qed.

Lemma match_here_suffix s rest cap :
  match_here importRegex s = Some (rest, cap) → ∃ read, s = read ++ rest.
Proof.
  intros H. apply match_here_import_inv in H
    as (c1 & w1 & mid & c2 & w2 & q1 & c0 & sp & q2 & -> & _).
  eexists. apply read_then_rest.
Qed.

End ScanFacts.

Lemma parseImports_loop_elem fuel : ∀ s spec,
  spec ∈ parseImports_loop fuel s →
  ∃ pre s' rest cap,
    s = pre ++ s' ∧ Regex.match_here Regex.importRegex s' = Some (rest, cap)
    ∧ spec = String.string_of_list_ascii (default [] cap).
Proof.
  induction fuel as [|fuel IH]; intros s spec; simpl.
  { by intros ?%elem_of_nil. }
  destruct (Regex.exec Regex.importRegex s) as [[rest cap]|] eqn:E;
    [|by intros ?%elem_of_nil].
  apply ScanFacts.exec_inv in E as (pre & s' & -> & E).
  intros [->|Hin]%elem_of_cons.
  - by exists pre, s', rest, cap.
  - apply IH in Hin as (pre' & s'' & rest' & cap' & -> & E' & ->).
    apply ScanFacts.match_here_suffix in E as [read ->].
    exists (pre ++ read ++ pre'), s'', rest', cap'.
    split; [by rewrite <- !app_assoc|done].
Qed.

(** Texts and their characters *)

Lemma all_chars_of_list p l :
  all_chars p (String.string_of_list_ascii l) = forallb p l.
Proof. unfold all_chars. by rewrite String.list_ascii_of_string_of_list_ascii. Qed.

(** Every specifier [parseImports] returns stands in the text between
    two quote characters (not necessarily the same one), after [import],
    blanks, text without a line terminator, [from] and blanks.  The
    specifier is not empty, holds no line terminator, and from its
    second character on no quote character. *)
Theorem parseImports_specifier content spec :
  spec ∈ parseImports content →
  ∃ before w1 mid w2 q1 c0 sp q2 after,
    content = before +:+ "import" +:+ w1 +:+ mid +:+ "from" +:+ w2
              +:+ String q1 (spec +:+ String q2 after)
    ∧ spec = String c0 sp
    ∧ w1 ≠ "" ∧ all_chars Regex.is_space w1 = true
    ∧ all_chars Regex.is_dot mid = true
    ∧ w2 ≠ "" ∧ all_chars Regex.is_space w2 = true
    ∧ Regex.is_quote q1 = true ∧ Regex.is_quote q2 = true
    ∧ Regex.is_dot c0 = true
    ∧ all_chars (λ c, Regex.is_dot c && negb (Regex.is_quote c)) sp = true.
Proof.
  unfold parseImports. intros Hin.
  apply parseImports_loop_elem in Hin as (pre & s' & rest & cap & Hs & Hm & ->).
  apply ScanFacts.match_here_import_inv in Hm
    as (c1 & w1 & mid & c2 & w2 & q1 & c0 & sp & q2 & -> & Hw1 & Hmid & Hw2
        & Hq1 & Hc0 & Hsp & Hq2 & ->).
  exists (String.string_of_list_ascii pre),
         (String.string_of_list_ascii (c1 :: w1)),
         (String.string_of_list_ascii mid),
         (String.string_of_list_ascii (c2 :: w2)),
         q1, c0, (String.string_of_list_ascii sp), q2,
         (String.string_of_list_ascii rest).
  split_and!; try done.
  - apply list_ascii_of_string_inj. rewrite Hs.
    repeat (rewrite ?list_ascii_of_string_app,
              ?String.list_ascii_of_string_of_list_ascii; simpl).
    done.
  - by rewrite all_chars_of_list.
  - by rewrite all_chars_of_list.
  - by rewrite all_chars_of_list.
  - by rewrite all_chars_of_list.
Qed.

Module LineFacts.
Import Regex ScanFacts.

Lemma span_spaces : ∀ mid X,
  no_head is_space X →
  ∃ m1 m2, mid = m1 ++ m2 ∧ forallb is_space m1 = true
           ∧ no_head is_space (m2 ++ X).
Proof.
  induction mid as [|c mid IH]; intros X HX.
  - by exists [], [].
  - destruct (is_space c) eqn:Hc.
    + destruct (IH X HX) as (m1 & m2 & -> & H1 & H2).
      exists (c :: m1), m2. simpl. by rewrite Hc.
    + exists [], (c :: mid). by split_and!.
Qed.

Lemma space_not_quote c : is_space c = true → is_quote c = false.
Proof. by destruct c as [[] [] [] [] [] [] [] []]. Qed.

Lemma spaces_quote_free w :
  forallb is_space w = true → forallb (λ c, negb (is_quote c)) w = true.
Proof.
  induction w as [|c w IH]; [done|]. simpl. rewrite !andb_true_iff.
  intros [Hc Hw]. by rewrite (space_not_quote c Hc), IH.
Qed.

Lemma first_quote_unique : ∀ A B q q' R R',
  forallb (λ c, negb (is_quote c)) A = true →
  forallb (λ c, negb (is_quote c)) B = true →
  is_quote q = true → is_quote q' = true →
  A ++ q :: R = B ++ q' :: R' → A = B.
Proof.
  induction A as [|a A IH]; intros [|b B] q q' R R'; simpl.
  - done.
  - intros _ HB Hq _ [= -> _]. by rewrite Hq in HB.
  - intros HA _ _ Hq' [= -> _]. by rewrite Hq' in HA.
  - rewrite !andb_true_iff. intros [_ HA] [_ HB] Hq Hq' [= -> H].
    f_equal. by apply (IH B q q' R R').
Qed.

(** [from], blanks and a quote are not read at an earlier place than
    the one where they stand, as long as no quote comes before. *)
Lemma no_from_before u c2 w2 q1 R cap k rest :
  u ≠ [] → forallb (λ c, negb (is_quote c)) u = true →
  forallb is_space (c2 :: w2) = true → is_quote q1 = true →
  rmatch (Seq (lits (String.list_ascii_of_string "from"))
           (Seq (Plus true is_space) (Seq (Class is_quote) rest)))
         (u ++ String.list_ascii_of_string "from" ++ c2 :: w2 ++ q1 :: R)
         cap k = None.
Proof.
  intros Hu Hquote Hw2 Hq1.
  destruct (rmatch _ _ cap k) as [m|] eqn:E; [exfalso|done].
  rewrite rmatch_Seq in E.
  apply rmatch_lits_inv in E as (s4 & Hs & E); [|done].
  rewrite rmatch_Seq in E.
  apply rmatch_Plus_inv in E as (c & w & s5 & -> & Hc & Hw & E).
  rewrite rmatch_Seq in E.
  apply rmatch_Class_inv in E as (q & s6 & -> & Hq & _).
  assert (Heq : u ++ String.list_ascii_of_string "from" ++ c2 :: w2
                = String.list_ascii_of_string "from" ++ c :: w).
  { apply (first_quote_unique _ _ q1 q R s6); [| |done|done|].
    - rewrite !forallb_app, Hquote. simpl. apply spaces_quote_free in Hw2.
      simpl in Hw2. by rewrite Hw2.
    - rewrite forallb_app. simpl.
      assert (Hcw : forallb is_space (c :: w) = true) by (simpl; by rewrite Hc).
      apply spaces_quote_free in Hcw. simpl in Hcw. by rewrite Hcw.
    - etrans; [|etrans; [exact Hs|]]; by simplify_list_eq. }
  assert (Hm : (u ++ String.list_ascii_of_string "from" ++ c2 :: w2)
                 !! (length u + 3) = Some "m"%char).
  { rewrite lookup_app_r by lia.
    by replace (length u + 3 - length u) with 3 by lia. }
  rewrite Heq in Hm. destruct u as [|x u]; [done|].
  rewrite lookup_app_r in Hm by (simpl; lia).
  apply list_elem_of_lookup_2 in Hm.
  assert (Hcw : forallb is_space (c :: w) = true) by (simpl; by rewrite Hc).
  rewrite forallb_forall in Hcw.
  apply list_elem_of_In in Hm. by specialize (Hcw _ Hm).
Qed.

Lemma rmatch_Plus_greedy p c w s cap k v :
  p c = true → forallb p w = true → no_head p s → k s cap = Some v →
  rmatch (Plus true p) (c :: w ++ s) cap k = Some v.
Proof. intros Hc Hw Hs Hk. simpl. rewrite Hc. by apply star_greedy. Qed.

Lemma rmatch_Class_here p c s cap k :
  p c = true → rmatch (Class p) (c :: s) cap k = k s cap.
Proof. intros Hc. simpl. by rewrite Hc. Qed.

Lemma rmatch_Star_lazy p u s cap k v :
  forallb p u = true →
  (∀ u1 u2, u = u1 ++ u2 → u2 ≠ [] → k (u2 ++ s) cap = None) →
  k s cap = Some v →
  rmatch (Star false p) (u ++ s) cap k = Some v.
Proof. intros Hu Hmin Hk. simpl. by apply star_lazy. Qed.

Lemma rmatch_Group_Plus_lazy p c w s cap k v :
  p c = true → forallb p w = true →
  (∀ w1 w2, w = w1 ++ w2 → w2 ≠ [] → k (w2 ++ s) (Some (c :: w1)) = None) →
  k s (Some (c :: w)) = Some v →
  rmatch (Group (Plus false p)) (c :: w ++ s) cap k = Some v.
Proof.
  intros Hc Hw Hmin Hk. simpl. rewrite Hc. apply star_lazy; [done| |].
  - intros w1 w2 -> Hne. rewrite <- (Hmin w1 w2 eq_refl Hne). do 2 f_equal.
    rewrite <- app_assoc. apply (take_matched (c :: w1) (w2 ++ s)).
  - rewrite <- Hk. do 2 f_equal. apply (take_matched (c :: w) s).
Qed.

(** An import on one line, with no quote before its specifier, is
    matched where it starts; group 1 is the text between the quotes. *)
Lemma match_here_import_line c1 w1 mid c2 w2 q1 c0 sp q2 rest :
  forallb is_space (c1 :: w1) = true →
  forallb (λ c, is_dot c && negb (is_quote c)) mid = true →
  forallb is_space (c2 :: w2) = true →
  is_quote q1 = true →
  forallb (λ c, is_dot c && negb (is_quote c)) (c0 :: sp) = true →
  is_quote q2 = true →
  match_here importRegex
    (String.list_ascii_of_string "import" ++ c1 :: w1 ++ mid
     ++ String.list_ascii_of_string "from" ++ c2 :: w2
     ++ q1 :: c0 :: sp ++ q2 :: rest)
  = Some (rest, Some (c0 :: sp)).
Proof.
  intros Hw1 Hmid Hw2 Hq1 Hspec Hq2.
  pose proof Hw2 as Hw2'.
  simpl in Hw1, Hw2, Hspec.
  apply andb_true_iff in Hw1 as [Hc1 Hw1].
  apply andb_true_iff in Hw2 as [Hc2 Hw2].
  apply andb_true_iff in Hspec as [Hc0 Hsp].
  apply andb_true_iff in Hc0 as [Hc0 _].
  apply forallb_split in Hsp as [Hsp_dot Hsp_quote].
  unfold match_here, importRegex.
  rewrite rmatch_Seq, rmatch_lits_app by done.
  rewrite rmatch_Seq.
  set (X := String.list_ascii_of_string "from" ++ c2 :: w2
            ++ q1 :: c0 :: sp ++ q2 :: rest).
  assert (HX : no_head is_space X) by done.
  destruct (span_spaces mid X HX) as (m1 & m2 & -> & Hm1 & Hhead).
  apply forallb_split in Hmid as [Hmid_dot Hmid_quote].
  rewrite forallb_app in Hmid_dot, Hmid_quote.
  apply andb_true_iff in Hmid_dot as [_ Hm2_dot].
  apply andb_true_iff in Hmid_quote as [_ Hm2_quote].
  replace (c1 :: w1 ++ (m1 ++ m2) ++ X) with (c1 :: (w1 ++ m1) ++ m2 ++ X)
    by (by simplify_list_eq).
  apply rmatch_Plus_greedy; [done|by rewrite forallb_app, Hw1|done|].
  rewrite rmatch_Seq. apply rmatch_Star_lazy; [done| |].
  { intros u1 u2 -> Hne. rewrite forallb_app in Hm2_quote.
    apply andb_true_iff in Hm2_quote as [_ Hu2].
    by apply no_from_before. }
  unfold X. rewrite rmatch_Seq, rmatch_lits_app by done.
  rewrite rmatch_Seq.
  apply rmatch_Plus_greedy; [done|done|by apply quote_not_space|].
  rewrite rmatch_Seq, rmatch_Class_here by done.
  rewrite rmatch_Seq.
  apply rmatch_Group_Plus_lazy; [done|done| |].
  - intros u1 u2 -> Hne. destruct u2 as [|y u2]; [done|].
    rewrite forallb_app in Hsp_quote. simpl in Hsp_quote.
    apply andb_true_iff in Hsp_quote as [_ Hy].
    apply andb_true_iff in Hy as [Hy _]. apply negb_true_iff in Hy.
    simpl. by rewrite Hy.
  - by rewrite rmatch_Class_here.
Qed.

Lemma match_here_import_head c s :
  c ≠ "i"%char → match_here importRegex (c :: s) = None.
Proof.
  intros Hc. unfold match_here, importRegex.
  rewrite rmatch_Seq.
  change (String.list_ascii_of_string "import")
    with ("i"%char :: String.list_ascii_of_string "mport").
  change (String.list_ascii_of_string "mport")
    with ("m"%char :: String.list_ascii_of_string "port").
  rewrite lits_cons, rmatch_Seq. cbn [rmatch].
  by destruct (Ascii.eqb_spec "i" c).
Qed.

Lemma exec_here r s m : match_here r s = Some m → exec r s = Some m.
Proof. intros H. destruct s; simpl; by rewrite H. Qed.

Lemma exec_skip : ∀ before s,
  forallb (λ c, negb (Ascii.eqb c "i")) before = true →
  exec importRegex (before ++ s) = exec importRegex s.
Proof.
  induction before as [|c before IH]; intros s; [done|]. simpl.
  rewrite andb_true_iff, negb_true_iff. intros [Hc Hb].
  apply Ascii.eqb_neq in Hc. rewrite match_here_import_head by done.
  by apply IH.
Qed.

End LineFacts.

Lemma list_ascii_nonempty s :
  s ≠ "" → ∃ c l, String.list_ascii_of_string s = c :: l.
Proof. destruct s as [|c s]; [done|]. intros _. by exists c, (String.list_ascii_of_string s). Qed.

(** A static import that is written on one line, with no quote between
    [import] and [from] and none inside the specifier, is extracted, and
    the scan goes on after its closing quote. *)
Theorem parseImports_line before w1 mid w2 q1 spec q2 after :
  all_chars (λ c, negb (Ascii.eqb c "i")) before = true →
  w1 ≠ "" → all_chars Regex.is_space w1 = true →
  all_chars (λ c, Regex.is_dot c && negb (Regex.is_quote c)) mid = true →
  w2 ≠ "" → all_chars Regex.is_space w2 = true →
  Regex.is_quote q1 = true →
  spec ≠ "" →
  all_chars (λ c, Regex.is_dot c && negb (Regex.is_quote c)) spec = true →
  Regex.is_quote q2 = true →
  parseImports (before +:+ "import" +:+ w1 +:+ mid +:+ "from" +:+ w2
                +:+ String q1 (spec +:+ String q2 after))
  = spec :: parseImports after.
Proof.
  unfold all_chars. intros Hb Hw1n Hw1 Hmid Hw2n Hw2 Hq1 Hspecn Hspec Hq2.
  destruct (list_ascii_nonempty w1 Hw1n) as (c1 & l1 & E1).
  destruct (list_ascii_nonempty w2 Hw2n) as (c2 & l2 & E2).
  destruct (list_ascii_nonempty spec Hspecn) as (c0 & sp & E0).
  rewrite E1 in Hw1. rewrite E2 in Hw2. rewrite E0 in Hspec.
  unfold parseImports. rewrite parseImports_loop_step by lia.
  assert (Htext :
    String.list_ascii_of_string
      (before +:+ "import" +:+ w1 +:+ mid +:+ "from" +:+ w2
       +:+ String q1 (spec +:+ String q2 after))
    = String.list_ascii_of_string before
      ++ (String.list_ascii_of_string "import" ++ c1 :: l1
          ++ String.list_ascii_of_string mid
          ++ String.list_ascii_of_string "from" ++ c2 :: l2
          ++ q1 :: c0 :: sp ++ q2 :: String.list_ascii_of_string after)).
  { repeat (rewrite ?list_ascii_of_string_app; simpl).
    rewrite E1, E2, E0. by simplify_list_eq. }
  rewrite Htext, LineFacts.exec_skip by done.
  rewrite (LineFacts.exec_here _ _ _
             (LineFacts.match_here_import_line c1 l1 _ c2 l2 q1 c0 sp q2 _
                Hw1 Hmid Hw2 Hq1 Hspec Hq2)).
  simpl default. rewrite <- E0, String.string_of_list_ascii_of_string.
  done.
Qed.

Lemma parseImports_specifier_witness :
  "b" ∈ parseImports "import a from 'b'"
  ∧ ∃ before w1 mid w2 q1 c0 sp q2 after,
      "import a from 'b'"
      = before +:+ "import" +:+ w1 +:+ mid +:+ "from" +:+ w2
        +:+ String q1 ("b" +:+ String q2 after)
      ∧ "b" = String c0 sp
      ∧ w1 ≠ "" ∧ all_chars Regex.is_space w1 = true
      ∧ all_chars Regex.is_dot mid = true
      ∧ w2 ≠ "" ∧ all_chars Regex.is_space w2 = true
      ∧ Regex.is_quote q1 = true ∧ Regex.is_quote q2 = true
      ∧ Regex.is_dot c0 = true
      ∧ all_chars (λ c, Regex.is_dot c && negb (Regex.is_quote c)) sp = true.
Proof.
  assert (Hin : "b" ∈ parseImports "import a from 'b'").
  { rewrite parseImports_one. apply list_elem_of_here. }
  split; [exact Hin|].
  apply (parseImports_specifier "import a from 'b'" "b" Hin).
Defined.

Lemma parseImports_line_witness :
  all_chars (λ c, Regex.is_dot c && negb (Regex.is_quote c)) "{ helper } "
  = true
  ∧ parseImports (("const x = 1;" +:+ lf) +:+ "import" +:+ " " +:+ "{ helper } "
                  +:+ "from" +:+ " "
                  +:+ String "'" ("./util" +:+ String "'" ";"))
    = "./util" :: parseImports ";".
Proof.
  split; [reflexivity|].
  apply (parseImports_line ("const x = 1;" +:+ lf) " " "{ helper } " " " "'"
           "./util" "'" ";").
  - reflexivity.
  - done.
  - reflexivity.
  - reflexivity.
  - done.
  - reflexivity.
  - reflexivity.
  - done.
  - reflexivity.
  - reflexivity.
Defined.

(** * The names of source files

    [path.extname] scans a name from its end; on a name without
    separator the scan ends in a state that the last dot of the name
    determines. *)

Lemma ext_scan_eq a b c d e f a' c' e' :
  a = a' → c = c' → e = e' →
  mkExtScan a b c d e f = mkExtScan a' b c' d e' f.
Proof. by intros -> -> ->. Qed.

(** One turn of the loop on the first character read. *)
Lemma ext_step_first pre c suf :
  c ≠ "/"%char →
  ext_step (pre ++ c :: suf) (length pre) (mkExtScan (-1) 0 (-1) true 0 false)
  = if Ascii.eqb c "."
    then mkExtScan (Z.of_nat (length pre)) 0 (Z.of_nat (length pre) + 1) false 0 false
    else mkExtScan (-1) 0 (Z.of_nat (length pre) + 1) false 0 false.
Proof.
  intros Hc. unfold ext_step. cbn [stopped]. rewrite nth_middle.
  destruct (Ascii.eqb_spec c "/") as [|_]; [done|].
  cbn [endPos startDot startPart matchedSlash preDotState]. simpl Z.eqb.
  cbn [endPos startDot startPart matchedSlash preDotState]. simpl Z.eqb.
  by destruct (Ascii.eqb c ".").
Qed.

(** One turn of the loop on a later character. *)
Lemma ext_step_later pre c suf sd ep pd :
  c ≠ "/"%char → ep ≠ (-1)%Z →
  ext_step (pre ++ c :: suf) (length pre) (mkExtScan sd 0 ep false pd false)
  = if Ascii.eqb c "."
    then if (sd =? -1)%Z
         then mkExtScan (Z.of_nat (length pre)) 0 ep false pd false
         else mkExtScan sd 0 ep false 1 false
    else if (sd =? -1)%Z
         then mkExtScan sd 0 ep false pd false
         else mkExtScan sd 0 ep false (-1) false.
Proof.
  intros Hc Hep. unfold ext_step. cbn [stopped]. rewrite nth_middle.
  destruct (Ascii.eqb_spec c "/") as [|_]; [done|].
  cbn [endPos startDot startPart matchedSlash preDotState].
  rewrite (proj2 (Z.eqb_neq ep (-1)) Hep).
  cbn [endPos startDot startPart matchedSlash preDotState].
  destruct (Ascii.eqb c "."); destruct (sd =? -1)%Z; cbn [negb]; try done.
  destruct (Z.eqb_spec pd 1) as [->|]; done.
Qed.

Lemma scan_state_cons n c suf :
  scan_state n (c :: suf)
  = match last_dot (c :: suf) with
    | None => mkExtScan (-1) 0 (Z.of_nat (n + S (length suf))) false 0 false
    | Some d =>
        mkExtScan (Z.of_nat (n + d)) 0 (Z.of_nat (n + S (length suf))) false
          (match d with
           | 0 => 0
           | S _ => if Ascii.eqb c "." then 1 else -1
           end)
          false
    end.
Proof. reflexivity. Qed.

Lemma last_dot_cons c l :
  last_dot (c :: l)
  = match last_dot l with
    | Some d => Some (S d)
    | None => if Ascii.eqb c "." then Some 0 else None
    end.
Proof. reflexivity. Qed.

Lemma ext_step_scan pre c suf :
  c ≠ "/"%char →
  ext_step (pre ++ c :: suf) (length pre) (scan_state (S (length pre)) suf)
  = scan_state (length pre) (c :: suf).
Proof.
  intros Hc. rewrite (scan_state_cons _ c), last_dot_cons.
  destruct suf as [|c' suf'].
  - simpl scan_state. rewrite ext_step_first by done. simpl last_dot.
    destruct (Ascii.eqb c "."); apply ext_scan_eq; simpl length; lia.
  - rewrite (scan_state_cons _ c').
    destruct (last_dot (c' :: suf')) as [d|].
    + rewrite ext_step_later by (done || lia).
      rewrite (proj2 (Z.eqb_neq (Z.of_nat (S (length pre) + d)) (-1)))
        by lia.
      destruct (Ascii.eqb c "."); apply ext_scan_eq; simpl length; lia.
    + rewrite ext_step_later by (done || lia). simpl Z.eqb.
      destruct (Ascii.eqb c "."); apply ext_scan_eq; simpl length; lia.
Qed.

Lemma ext_loop_scan : ∀ pre suf,
  forallb (λ c, negb (Ascii.eqb c "/")) pre = true →
  ext_loop (pre ++ suf) (length pre) (scan_state (length pre) suf)
  = scan_state 0 (pre ++ suf).
Proof.
  induction pre as [|c pre IH] using rev_ind; intros suf Hpre; [done|].
  rewrite forallb_app in Hpre. apply andb_true_iff in Hpre as [Hpre Hc].
  simpl in Hc. rewrite andb_true_r, negb_true_iff in Hc.
  apply Ascii.eqb_neq in Hc.
  rewrite length_app, Nat.add_1_r, <- app_assoc. simpl.
  rewrite ext_step_scan by done. by apply IH.
Qed.

Lemma last_dot_lt : ∀ l d, last_dot l = Some d → d < length l.
Proof.
  induction l as [|c l IH]; intros d; [done|]. rewrite last_dot_cons.
  destruct (last_dot l) as [d'|].
  - intros [= <-]. specialize (IH d' eq_refl). simpl. lia.
  - destruct (Ascii.eqb c "."); [|done]. intros [= <-]. simpl. lia.
Qed.

Lemma last_dot_drop : ∀ l d,
  last_dot l = Some d → ∃ b, drop d l = "."%char :: b ∧ last_dot b = None.
Proof.
  induction l as [|c l IH]; intros d; [done|]. rewrite last_dot_cons.
  destruct (last_dot l) as [d'|] eqn:E.
  - intros [= <-]. simpl. by apply IH.
  - destruct (Ascii.eqb_spec c ".") as [->|]; [|done]. intros [= <-].
    by exists l.
Qed.

Lemma last_dot_app : ∀ stem b,
  last_dot b = None → last_dot (stem ++ "."%char :: b) = Some (length stem).
Proof.
  induction stem as [|c stem IH]; intros b Hb.
  - simpl. by rewrite Hb.
  - simpl app. rewrite last_dot_cons, (IH b Hb). done.
Qed.

Lemma slash_free_forallb s :
  slash_free s = forallb (λ c, negb (Ascii.eqb c "/")) (String.list_ascii_of_string s).
Proof. induction s as [|c s IH]; [done|]. simpl. by rewrite IH. Qed.

(** [extname] of a name without separator, by the last dot of the name. *)
Lemma extname_last_dot name :
  slash_free name = true →
  extname name
  = match last_dot (String.list_ascii_of_string name) with
    | None => ""
    | Some 0 => ""
    | Some (S d) =>
        if bool_decide (String.list_ascii_of_string name = ["."; "."]%char)
        then ""
        else String.string_of_list_ascii
               (drop (S d) (String.list_ascii_of_string name))
    end.
Proof.
  rewrite slash_free_forallb. intros Hfree. unfold extname.
  set (l := String.list_ascii_of_string name) in *.
  pose proof (ext_loop_scan l [] Hfree) as Hloop.
  rewrite app_nil_r in Hloop. simpl scan_state at 1 in Hloop.
  cbv zeta. rewrite Hloop. clear Hloop.
  destruct l as [|c l'] eqn:El; [done|].
  rewrite scan_state_cons.
  destruct (last_dot (c :: l')) as [d|] eqn:Hd; [|done].
  cbn [startDot startPart endPos matchedSlash preDotState stopped].
  pose proof (last_dot_lt _ _ Hd) as Hlt. simpl length in *.
  destruct d as [|d].
  { simpl. done. }
  rewrite (proj2 (Z.eqb_neq (Z.of_nat (0 + S d)) (-1))) by lia.
  rewrite (proj2 (Z.eqb_neq (Z.of_nat (0 + S (length l'))) (-1))) by lia.
  assert (Hpd : ((if Ascii.eqb c "." then 1 else -1) =? 0)%Z = false)
    by (by destruct (Ascii.eqb c ".")).
  rewrite Hpd. cbn [orb].
  rewrite !Nat2Z.id, !Nat.add_0_l.
  rewrite take_ge by (rewrite length_drop; simpl; lia).
  case_bool_decide as Hdots.
  - injection Hdots as -> ->. simpl in Hd. injection Hd as <-. done.
  - assert (Hno : ((if Ascii.eqb c "." then 1 else -1) =? 1)%Z
                  && (Z.of_nat (S d) =? Z.of_nat (S (length l')) - 1)%Z
                  && (Z.of_nat (S d) =? 0 + 1)%Z = false); [|by rewrite Hno].
    apply not_true_is_false. rewrite !andb_true_iff.
    intros [[Hc Hend] Hone]. apply Z.eqb_eq in Hend, Hone.
    destruct (Ascii.eqb_spec c ".") as [->|]; [|done].
    assert (d = 0) as -> by lia.
    destruct l' as [|x [|y l'']]; simpl in Hend; try lia.
    rewrite !last_dot_cons in Hd. simpl last_dot in Hd.
    destruct (Ascii.eqb_spec x ".") as [->|]; [|done]. done.
Qed.

Lemma extname_stem name b :
  slash_free name = true → b ≠ [] → last_dot b = None →
  extname name = String.string_of_list_ascii ("."%char :: b) ↔
  ∃ stem, stem ≠ ""
          ∧ name = stem +:+ String.string_of_list_ascii ("."%char :: b).
Proof.
  intros Hfree Hb Hdot. rewrite (extname_last_dot name Hfree). split.
  - destruct (last_dot (String.list_ascii_of_string name)) as [[|d]|] eqn:Hd;
      simpl; [done| |done].
    case_bool_decide; [done|]. intros Hext.
    pose proof (last_dot_lt _ _ Hd) as Hlt.
    exists (String.string_of_list_ascii
              (take (S d) (String.list_ascii_of_string name))).
    split.
    + destruct (String.list_ascii_of_string name); [simpl in Hlt; lia|done].
    + rewrite <- Hext, <- string_of_list_ascii_app, take_drop.
      by rewrite String.string_of_list_ascii_of_string.
  - intros (stem & Hstem & ->).
    rewrite list_ascii_of_string_app, String.list_ascii_of_string_of_list_ascii.
    rewrite (last_dot_app _ b Hdot).
    destruct (String.list_ascii_of_string stem) as [|c l] eqn:El.
    { destruct stem; done. }
    simpl length. rewrite bool_decide_eq_false_2.
    + change (S (length l)) with (length (c :: l)).
      by rewrite drop_app_length.
    + intros Heq. apply (f_equal length) in Heq.
      rewrite length_app in Heq. destruct b; [done|]. simpl in Heq. lia.
Qed.

Lemma is_source_iff name :
  is_source name = true ↔ extname name = ".ts" ∨ extname name = ".js".
Proof.
  unfold is_source. by rewrite orb_true_iff, !bool_decide_eq_true.
Qed.

(** The names the traversal reads as source files: a stem that is not
    empty, followed by [.ts] or [.js].  So [types.d.ts] is read, and a
    file named just [.ts] is not. *)
Theorem is_source_stem name :
  slash_free name = true →
  is_source name = true ↔
  ∃ stem, stem ≠ "" ∧ (name = stem +:+ ".ts" ∨ name = stem +:+ ".js").
Proof.
  intros Hfree. rewrite is_source_iff.
  pose proof (extname_stem name (String.list_ascii_of_string "ts") Hfree
                ltac:(done) eq_refl) as Hts.
  pose proof (extname_stem name (String.list_ascii_of_string "js") Hfree
                ltac:(done) eq_refl) as Hjs.
  simpl in Hts, Hjs. rewrite Hts, Hjs. split.
  - intros [(stem & Hs & ->)|(stem & Hs & ->)]; exists stem; auto.
  - intros (stem & Hs & [->| ->]); [left|right]; by exists stem.
Qed.

(** Every name the first builder reads as a source file is one the
    second builder reads too. *)
Theorem is_source_has_source_suffix name :
  slash_free name = true →
  is_source name = true → FileParser.has_source_suffix name = true.
Proof.
  intros Hfree Hsrc. apply is_source_iff in Hsrc as [Hext|Hext].
  - apply (extname_stem name (String.list_ascii_of_string "ts") Hfree
             ltac:(done) eq_refl) in Hext as (stem & _ & ->).
    unfold FileParser.has_source_suffix. cbv zeta.
    rewrite list_ascii_of_string_app.
    rewrite (bool_decide_eq_true_2 (_ `suffix_of` _)); [done|].
    by apply suffix_app_r.
  - apply (extname_stem name (String.list_ascii_of_string "js") Hfree
             ltac:(done) eq_refl) in Hext as (stem & _ & ->).
    unfold FileParser.has_source_suffix. cbv zeta.
    rewrite list_ascii_of_string_app.
    rewrite (bool_decide_eq_true_2
               (String.list_ascii_of_string ".js" `suffix_of` _));
      [by rewrite orb_true_r|].
    by apply suffix_app_r.
Qed.

Lemma is_source_stem_witness :
  slash_free "a.ts" = true
  ∧ (is_source "a.ts" = true ↔
     ∃ stem, stem ≠ "" ∧ ("a.ts" = stem +:+ ".ts" ∨ "a.ts" = stem +:+ ".js")).
Proof.
  split; [reflexivity|].
  apply (is_source_stem "a.ts"). reflexivity.
Defined.

Lemma is_source_has_source_suffix_witness :
  slash_free "types.d.ts" = true
  ∧ is_source "types.d.ts" = true
  ∧ FileParser.has_source_suffix "types.d.ts" = true.
Proof.
  assert (Hs : is_source "types.d.ts" = true) by (vm_compute; reflexivity).
  split; [reflexivity|]. split; [exact Hs|].
  apply (is_source_has_source_suffix "types.d.ts"); [reflexivity|exact Hs].
Defined.

(** * More on the second builder *)

(** ** The traversal registers the files of [scan_entry], in order *)

Lemma scan_entry_Dir ig full rel name children :
  scan_entry ig full rel name (Dir children)
  = children ≫= λ x, if ig (relative_join rel x.1) then []
                     else scan_entry ig (join full x.1)
                                     (relative_join rel x.1) x.1 x.2.
Proof.
  simpl. induction children as [|[n e] rest IH]; [done|].
  by rewrite bind_cons, IH.
Qed.

(** When the second traversal returns, it has registered the files of
    [scan_entry]. *)
Lemma traverse_entry_scan ts_imports ig e : ∀ full rel name g g',
  FileParser.traverse_entry ts_imports ig full rel name e g = Ok g' →
  g' = foldl (register_file ts_imports) g (scan_entry ig full rel name e).
Proof.
  induction e as [c|children IH|p] using entry_tree_ind;
    intros full rel name g g'.
  - simpl. intros [= <-]. by destruct (FileParser.has_source_suffix name).
  - rewrite traverse_entry_Dir, scan_entry_Dir. revert g.
    induction IH as [|[n e] rest He Hrest IHrest]; intros g; simpl.
    { by intros [= <-]. }
    destruct (ignores ig (relative_join rel n)) as [ignored| |] eqn:Hig;
      simpl; [|done|done].
    apply ignores_Ok in Hig as ->. rewrite foldl_app.
    destruct (ig (relative_join rel n)); simpl; [apply IHrest|].
    destruct (FileParser.traverse_entry ts_imports ig (join full n)
                (relative_join rel n) n e g) as [g1| |] eqn:Hg1;
      simpl; [|done|done].
    apply He in Hg1 as ->. apply IHrest.
  - simpl. by intros [= <-].
Qed.

Lemma register_addNodes ts_imports scan : ∀ g,
  foldl (register_file ts_imports) g scan
  = addNodes g (call_of ts_imports <$> scan).
Proof. induction scan as [|f scan IH]; intros g; [done|]. simpl. by rewrite IH. Qed.

Lemma traverseDirectory_addNodes ts_imports ig rootPath root g :
  FileParser.traverseDirectory ts_imports ig rootPath root = Ok g →
  g = addNodes [] (call_of ts_imports
                     <$> scan_entry ig rootPath "" "" (Dir root)).
Proof.
  unfold FileParser.traverseDirectory.
  intros ->%traverse_entry_scan. apply register_addNodes.
Qed.

(** ** The map of [FileGraph] *)

Lemma elem_of_map_set k v m k' v' :
  NoDup m.*1 →
  (k', v') ∈ FileParser.map_set k v m ↔
  (k' = k ∧ v' = v) ∨ (k' ≠ k ∧ (k', v') ∈ m).
Proof.
  induction m as [|[k0 v0] m IH]; simpl.
  - intros _. rewrite list_elem_of_singleton. split.
    + intros [= -> ->]. by left.
    + intros [[-> ->]|[_ H]]; [done|]. by apply elem_of_nil in H.
  - rewrite NoDup_cons. intros [Hk0 Hnd]. case_bool_decide as Hk.
    + subst k0. rewrite !elem_of_cons. split.
      * intros [[= -> ->]|Hin]; [by left|]. right. split; [|by right].
        intros ->. apply Hk0. apply list_elem_of_fmap. by exists (k, v').
      * intros [[-> ->]|[Hne [[= -> ->]|Hin]]]; [by left|done|by right].
    + rewrite !elem_of_cons, (IH Hnd). split.
      * intros [[= -> ->]|[[-> ->]|[Hne Hin]]].
        -- right. split; [done|by left].
        -- by left.
        -- right. split; [done|by right].
      * intros [[-> ->]|[Hne [[= -> ->]|Hin]]].
        -- right. by left.
        -- by left.
        -- right. right. done.
Qed.

Lemma map_set_keys k v m :
  (FileParser.map_set k v m).*1
  = if decide (k ∈ m.*1) then m.*1 else m.*1 ++ [k].
Proof.
  induction m as [|[k0 v0] m IH].
  - cbn [FileParser.map_set fmap list_fmap].
    destruct (decide (k ∈ [])) as [Hin|_]; [by apply elem_of_nil in Hin|done].
  - cbn [FileParser.map_set]. case_bool_decide as Hk.
    + subst k0. rewrite decide_True; [done|]. apply list_elem_of_here.
    + rewrite !fmap_cons, IH. cbn [fst].
      destruct (decide (k ∈ m.*1)) as [Hin|Hin].
      * rewrite decide_True; [done|]. by apply list_elem_of_further.
      * rewrite decide_False; [done|].
        intros [->|H]%elem_of_cons; done.
Qed.

Lemma map_set_NoDup k v m : NoDup m.*1 → NoDup (FileParser.map_set k v m).*1.
Proof.
  intros Hnd. rewrite map_set_keys. destruct (decide (k ∈ m.*1)); [done|].
  apply NoDup_app. split; [done|]. split; [|apply NoDup_singleton].
  intros x Hx ->%list_elem_of_singleton. done.
Qed.

Lemma addNodes_NoDup calls : ∀ g, NoDup g.*1 → NoDup (addNodes g calls).*1.
Proof.
  induction calls as [|call calls IH]; intros g Hnd; [done|].
  simpl. apply IH. by apply map_set_NoDup.
Qed.

Lemma addNodes_snoc g calls call :
  addNodes g (calls ++ [call])
  = FileParser.addNode call.1 call.2 (addNodes g calls).
Proof. unfold addNodes. by rewrite foldl_app. Qed.

(** What the map holds after a sequence of calls: under each path of a
    call, the node of the last call with that path. *)
Lemma elem_of_addNodes calls : ∀ k v,
  (k, v) ∈ addNodes [] calls ↔
  ∃ calls1 imps calls2,
    calls = calls1 ++ (k, imps) :: calls2 ∧ (k ∉ calls2.*1)
    ∧ v = FileParser.mkFileNode k (FileParser.basename k) imps.
Proof.
  induction calls as [|[p imps] calls IH] using rev_ind; intros k v.
  - split; [by intros ?%elem_of_nil|].
    intros (c1 & i & c2 & H & _). by destruct c1.
  - rewrite addNodes_snoc. unfold FileParser.addNode. simpl.
    rewrite elem_of_map_set by (apply addNodes_NoDup, NoDup_nil_2).
    rewrite IH. split.
    + intros [[-> ->]|[Hne (c1 & i & c2 & -> & Hlast & ->)]].
      * exists calls, imps, []. split_and!; [done| |done].
        by intros ?%elem_of_nil.
      * exists c1, i, (c2 ++ [(p, imps)]). split_and!; [|  |done].
        -- by rewrite <- app_assoc.
        -- rewrite fmap_app, elem_of_app. simpl.
           intros [H|H%list_elem_of_singleton]; done.
    + intros (c1 & i & c2 & Heq & Hlast & ->).
      destruct c2 as [|x c2 _] using rev_ind.
      * apply app_inj_tail in Heq as [Hc Hp]. injection Hp as Hp1 Hp2.
        subst. by left.
      * rewrite app_comm_cons, app_assoc in Heq.
        apply app_inj_tail in Heq as [Hc Hp]. subst. right.
        rewrite fmap_app, elem_of_app in Hlast. simpl in Hlast. split.
        -- intros ->. apply Hlast. right. apply list_elem_of_here.
        -- exists c1, i, c2. split_and!; [done| |done]. tauto.
Qed.

Lemma last_call (calls : list (string * list string)) k :
  k ∈ calls.*1 →
  ∃ calls1 imps calls2,
    calls = calls1 ++ (k, imps) :: calls2 ∧ (k ∉ calls2.*1).
Proof.
  induction calls as [|[p imps] calls IH] using rev_ind.
  { by intros ?%elem_of_nil. }
  rewrite fmap_app, elem_of_app. simpl.
  destruct (decide (p = k)) as [->|Hne].
  - intros _. exists calls, imps, []. split; [done|]. by intros ?%elem_of_nil.
  - intros [Hin|Hin%list_elem_of_singleton]; [|done].
    destruct (IH Hin) as (c1 & i & c2 & -> & Hlast).
    exists c1, i, (c2 ++ [(p, imps)]). split; [by rewrite <- app_assoc|].
    rewrite fmap_app, elem_of_app. simpl.
    intros [H|H%list_elem_of_singleton]; done.
Qed.

Lemma addNodes_ids calls :
  FileParser.id <$> FileParser.getNodes (addNodes [] calls)
  = (addNodes [] calls).*1.
Proof.
  assert (H : ∀ k v, (k, v) ∈ addNodes [] calls → FileParser.id v = k).
  { intros k v (c1 & i & c2 & _ & _ & ->)%elem_of_addNodes. done. }
  unfold FileParser.getNodes. revert H. generalize (addNodes [] calls).
  induction l as [|[k v] l IH]; intros H; [done|].
  rewrite !fmap_cons. simpl. f_equal.
  - apply H, list_elem_of_here.
  - apply IH. intros k' v' Hin. by apply H, list_elem_of_further.
Qed.

Lemma elem_of_getNodes g v :
  v ∈ FileParser.getNodes g ↔ ∃ k, (k, v) ∈ g.
Proof.
  unfold FileParser.getNodes. rewrite list_elem_of_fmap. split.
  - intros ([k v'] & -> & Hin). by exists k.
  - intros (k & Hin). by exists (k, v).
Qed.

(** [FileGraph.addNode] is last-writer-wins: after a sequence of calls
    the graph has one node for a path, the node of the last call with
    that path. *)
Theorem FileGraph_last_writer_wins calls1 p imps calls2 :
  p ∉ calls2.*1 →
  filter (λ n, FileParser.id n = p)
         (FileParser.getNodes (addNodes [] (calls1 ++ (p, imps) :: calls2)))
  = [FileParser.mkFileNode p (FileParser.basename p) imps].
Proof.
  intros Hlast.
  set (v := FileParser.mkFileNode p (FileParser.basename p) imps).
  change p with (FileParser.id v) at 1.
  apply filter_by_key.
  - rewrite addNodes_ids. apply addNodes_NoDup, NoDup_nil_2.
  - apply elem_of_getNodes. exists p. apply elem_of_addNodes.
    by exists calls1, imps, calls2.
Qed.

Lemma FileGraph_last_writer_wins_witness :
  ("/w/a.ts" ∉ [ ("/w/b.ts", ([] : list string)) ].*1)
  ∧ filter (λ n, FileParser.id n = "/w/a.ts")
      (FileParser.getNodes
         (addNodes [] [ ("/w/a.ts", ["x"]); ("/w/a.ts", ["y"]);
                        ("/w/b.ts", []) ]))
    = [FileParser.mkFileNode "/w/a.ts" "a.ts" ["y"]].
Proof.
  assert (Hlast : "/w/a.ts" ∉ [ ("/w/b.ts", ([] : list string)) ].*1)
    by closed_fact.
  split; [exact Hlast|].
  apply (FileGraph_last_writer_wins
           [ ("/w/a.ts", ["x"]) ] "/w/a.ts" ["y"] [ ("/w/b.ts", []) ] Hlast).
Defined.

(** ** Which files the second traversal registers *)

Lemma real_located_nonempty files segs e : real_located files segs e → segs ≠ [].
Proof. by intros []. Qed.

Lemma passes_cons ig dir name segs :
  passes ig dir (name :: segs) = true →
  ig (relative_join dir name) = false
  ∧ passes ig (relative_join dir name) segs = true.
Proof. simpl. by rewrite andb_true_iff, negb_true_iff. Qed.

(** The files the second traversal registers are the files with a source
    suffix that are reached through real directories, none ignored. *)
Lemma scan_entry_located ig e : ∀ full rel name p c,
  (p, c) ∈ scan_entry ig full rel name e ↔
  (e = File c ∧ p = full ∧ FileParser.has_source_suffix name = true)
  ∨ ∃ children segs,
      e = Dir children ∧ real_located children segs (File c)
      ∧ passes ig rel segs = true
      ∧ FileParser.has_source_suffix (last_name segs) = true
      ∧ p = full_path full segs.
Proof.
  induction e as [c0|children IH|q] using entry_tree_ind;
    intros full rel name p c.
  - simpl. destruct (FileParser.has_source_suffix name) eqn:Hs.
    + rewrite list_elem_of_singleton. split.
      * intros [= -> ->]. by left.
      * intros [([= ->] & -> & _)|(ch & segs & H & _)]; done.
    + split; [by intros ?%elem_of_nil|].
      intros [(_ & _ & H)|(ch & segs & H & _)]; done.
  - rewrite scan_entry_Dir, list_elem_of_bind. split.
    + intros ([n e] & Hin & Hx). simpl in Hin. right.
      destruct (ig (relative_join rel n)) eqn:Hig; [by apply elem_of_nil in Hin|].
      rewrite Forall_forall in IH.
      pose proof (IH (n, e) Hx) as IHx. cbn [fst snd] in IHx.
      apply IHx in Hin
        as [(-> & -> & Hs)|(ch & segs & -> & Hloc & Hp & Hs & ->)].
      * exists children, [n].
        split_and!; [done| |by simpl; rewrite Hig|done|done].
        by apply real_here.
      * exists children, (n :: segs). split_and!; [done| | | |done].
        -- by eapply real_below.
        -- simpl. by rewrite Hig.
        -- rewrite last_name_cons; [done|]. by eapply real_located_nonempty.
    + intros [(H & _)|(ch & segs & [= <-] & Hloc & Hp & Hs & ->)]; [done|].
      rewrite Forall_forall in IH.
      inversion Hloc as [? n e Hin|? n ch' segs' ? Hin Hloc']; subst;
        apply passes_cons in Hp as [Hig Hp].
      * exists (n, File c). split; [|done]. cbn [fst snd]. rewrite Hig.
        pose proof (IH (n, File c) Hin) as IHx. cbn [fst snd] in IHx.
        apply IHx. by left.
      * exists (n, Dir ch'). split; [|done]. cbn [fst snd]. rewrite Hig.
        pose proof (IH (n, Dir ch') Hin) as IHx. cbn [fst snd] in IHx.
        apply IHx. right.
        exists ch', segs'. split_and!; [done..| |done].
        rewrite last_name_cons in Hs; [done|]. by eapply real_located_nonempty.
  - simpl. split; [by intros ?%elem_of_nil|].
    intros [(H & _)|(ch & segs & H & _)]; done.
Qed.

Lemma real_located_good : ∀ files segs e,
  real_located files segs e → names_ok (Dir files) →
  Forall good_name segs.
Proof.
  intros files segs e Hloc.
  induction Hloc as [files name e Hin|files name ch segs e Hin Hloc IH];
    intros Hok; apply names_ok_Dir in Hok as [_ Hall];
    destruct (Hall _ _ Hin) as [Hname He].
  - by apply Forall_singleton.
  - apply Forall_cons. split; [done|]. by apply IH.
Qed.

Lemma real_located_deterministic : ∀ files segs e1,
  real_located files segs e1 → names_ok (Dir files) →
  ∀ e2, real_located files segs e2 → e1 = e2.
Proof.
  intros files segs e1 H1.
  induction H1 as [files name e1 Hin|files name ch segs e1 Hin H1 IH];
    intros Hok e2 H2; pose proof Hok as Hok';
    apply names_ok_Dir in Hok' as [Hnd Hall].
  - inversion H2 as [? ? ? Hin2|? ? ch2 ? ? Hin2 H2']; subst.
    + by apply (NoDup_fst_functional _ _ _ _ Hnd Hin Hin2).
    + inversion H2'.
  - inversion H2 as [? ? ? Hin2|? ? ch2 ? ? Hin2 H2']; subst.
    + inversion H1.
    + pose proof (NoDup_fst_functional _ _ _ _ Hnd Hin Hin2) as [= <-].
      apply IH; [|done]. by apply (Hall name (Dir ch)).
Qed.

Section SecondGraph.

Variable ts_imports : string → string → list string.

(** Every node of the graph the second traversal returns is the node of
    a regular file with a source suffix, reached through real
    directories, no path on the way ignored: its id is the full path of
    the file as [path.join] builds it from the root path, its label the
    base name of that path, its imports what the parser returns on the
    text of the file. *)
Theorem FileParser_nodes ig rootPath root g n :
  FileParser.traverseDirectory ts_imports ig rootPath root = Ok g →
  n ∈ FileParser.getNodes g →
  ∃ segs content,
    real_located root segs (File content)
    ∧ passes ig "" segs = true
    ∧ FileParser.has_source_suffix (last_name segs) = true
    ∧ n = FileParser.mkFileNode
            (full_path rootPath segs)
            (FileParser.basename (full_path rootPath segs))
            (ts_imports (full_path rootPath segs) content).
Proof.
  intros ->%traverseDirectory_addNodes. rewrite elem_of_getNodes.
  intros (k & (c1 & imps & c2 & Hcalls & _ & ->)%elem_of_addNodes).
  assert (Hin : (k, imps) ∈ call_of ts_imports
                             <$> scan_entry ig rootPath "" "" (Dir root)).
  { rewrite Hcalls. apply elem_of_app. right. apply list_elem_of_here. }
  apply list_elem_of_fmap in Hin as ([p c] & [= -> ->] & Hin).
  apply scan_entry_located in Hin
    as [(H & _)|(ch & segs & [= <-] & Hloc & Hp & Hs & ->)]; [done|].
  by exists segs, c.
Qed.

(** No two nodes of the graph the second traversal returns have the same
    id. *)
Theorem FileParser_ids_unique ig rootPath root g :
  FileParser.traverseDirectory ts_imports ig rootPath root = Ok g →
  NoDup (FileParser.id <$> FileParser.getNodes g).
Proof.
  intros ->%traverseDirectory_addNodes. rewrite addNodes_ids.
  apply addNodes_NoDup, NoDup_nil_2.
Qed.

End SecondGraph.

Lemma project_main_real_located :
  real_located project ["src"; "main.ts"] (File main_text).
Proof.
  apply (real_below project "src"
           [ ("main.ts", File main_text);
             ("util.ts", File "export const helper = 1") ]).
  - apply list_elem_of_further, list_elem_of_further, list_elem_of_here.
  - apply real_here, list_elem_of_here.
Qed.

Lemma FileParser_nodes_witness :
  FileParser.traverseDirectory ts_imports_sample (ignore_no_rules []) "/w/"
    project_tsx
  = Ok [ ("/w/App.tsx", FileParser.mkFileNode "/w/App.tsx" "App.tsx" ["react"]) ]
  ∧ ∃ segs content,
      real_located project_tsx segs (File content)
      ∧ passes (ignore_no_rules []) "" segs = true
      ∧ FileParser.has_source_suffix (last_name segs) = true
      ∧ FileParser.mkFileNode "/w/App.tsx" "App.tsx" ["react"]
        = FileParser.mkFileNode
            (full_path "/w/" segs)
            (FileParser.basename (full_path "/w/" segs))
            (ts_imports_sample (full_path "/w/" segs) content).
Proof.
  assert (Ht : FileParser.traverseDirectory ts_imports_sample
                 (ignore_no_rules []) "/w/" project_tsx
               = Ok [ ("/w/App.tsx",
                       FileParser.mkFileNode "/w/App.tsx" "App.tsx" ["react"]) ])
    by (vm_compute; reflexivity).
  split; [exact Ht|].
  apply (FileParser_nodes ts_imports_sample (ignore_no_rules []) "/w/"
           project_tsx _ _ Ht).
  apply list_elem_of_here.
Defined.

Lemma FileParser_ids_unique_witness :
  FileParser.traverseDirectory ts_imports_sample (ignore_no_rules []) "/w"
    project
  = Ok [ ("/w/src/main.ts",
          FileParser.mkFileNode "/w/src/main.ts" "main.ts" ["react"; "./util"]);
         ("/w/src/util.ts",
          FileParser.mkFileNode "/w/src/util.ts" "util.ts" []) ]
  ∧ NoDup ["/w/src/main.ts"; "/w/src/util.ts"].
Proof.
  assert (Ht : FileParser.traverseDirectory ts_imports_sample
                 (ignore_no_rules []) "/w" project
               = Ok [ ("/w/src/main.ts",
                       FileParser.mkFileNode "/w/src/main.ts" "main.ts"
                         ["react"; "./util"]);
                      ("/w/src/util.ts",
                       FileParser.mkFileNode "/w/src/util.ts" "util.ts" []) ])
    by (vm_compute; reflexivity).
  split; [exact Ht|].
  apply (FileParser_ids_unique ts_imports_sample (ignore_no_rules []) "/w"
           project _ Ht).
Defined.

(** * The full paths of the second builder *)

(** ** [path.join] on the name of a directory entry *)

Lemma norm_separator_fresh allow st :
  segment (norm_separator allow st) = [] ∧ dots (norm_separator allow st) = 0%Z.
Proof.
  unfold norm_separator, norm_above.
  repeat (case_match; simpl; try done).
Qed.

Lemma norm_separator_idle allow st :
  segment st = [] → res (norm_separator allow st) = res st.
Proof. unfold norm_separator. intros ->. done. Qed.

Lemma normalizeString_res path allow :
  normalizeString path allow
  = res (norm_separator allow
           (foldl (norm_step allow) (mkNormScan [] 0 [] 0) path)).
Proof.
  unfold normalizeString. destruct (last path) as [code|] eqn:Hlast; [|done].
  destruct (Ascii.eqb code "/") eqn:Hcode; [|done].
  apply Ascii.eqb_eq in Hcode as ->.
  apply last_Some in Hlast as [path' ->].
  rewrite foldl_app. simpl. unfold norm_step at 1 3. simpl.
  symmetry. apply norm_separator_idle, norm_separator_fresh.
Qed.

Lemma norm_scan_name allow name : ∀ st,
  forallb (λ c, negb (Ascii.eqb c "/")) name = true →
  foldl (norm_step allow) st name
  = mkNormScan (res st) (lastSegmentLength st) (segment st ++ name)
               (dots_after (dots st) name).
Proof.
  induction name as [|c name IH]; intros st; simpl.
  { intros _. rewrite app_nil_r. by destruct st. }
  rewrite andb_true_iff, negb_true_iff. intros [Hc Hname].
  rewrite IH by done. unfold norm_step. rewrite Hc.
  destruct (Ascii.eqb c "." && negb (dots st =? -1)%Z); simpl;
    by rewrite <- app_assoc.
Qed.

Lemma dots_after_stuck name : dots_after (-1) name = (-1)%Z.
Proof.
  induction name as [|c name IH]; [done|]. simpl.
  by rewrite andb_false_r.
Qed.

Lemma dots_after_count name : ∀ d,
  (0 ≤ d)%Z →
  dots_after d name = (-1)%Z
  ∨ (dots_after d name = (d + Z.of_nat (length name))%Z
     ∧ name = replicate (length name) "."%char).
Proof.
  induction name as [|c name IH]; intros d Hd; simpl.
  { right. split; [lia|done]. }
  destruct (Ascii.eqb c ".") eqn:Hc; simpl.
  - apply Ascii.eqb_eq in Hc as ->.
    destruct (d =? -1)%Z eqn:Hd1; [lia|]. simpl.
    destruct (IH (d + 1)%Z ltac:(lia)) as [H|[H Hrep]]; [by left|right].
    split; [rewrite H; lia|]. by rewrite <- Hrep.
  - left. apply dots_after_stuck.
Qed.

Lemma dots_after_name name :
  name ≠ ["."%char] → name ≠ ["."%char; "."%char] →
  dots_after 0 name ≠ 1%Z ∧ dots_after 0 name ≠ 2%Z.
Proof.
  intros H1 H2.
  destruct (dots_after_count name 0 ltac:(lia)) as [->|[-> Hrep]]; [done|].
  destruct name as [|a [|b [|c name]]]; simpl in *; try done; try lia.
Qed.

(** What [normalizeString] returns on a path that ends in a separator
    and the name of an entry. *)
Lemma normalizeString_name allow x name :
  name ≠ [] → forallb (λ c, negb (Ascii.eqb c "/")) name = true →
  name ≠ ["."%char] → name ≠ ["."%char; "."%char] →
  normalizeString (x ++ "/"%char :: name) allow
  = if bool_decide (normalizeString x allow = []) then name
    else normalizeString x allow ++ "/"%char :: name.
Proof.
  intros Hne Hfree H1 H2. rewrite !normalizeString_res.
  rewrite foldl_app. simpl. unfold norm_step at 2. simpl.
  set (T := norm_separator allow (foldl (norm_step allow) _ x)).
  destruct (norm_separator_fresh allow
              (foldl (norm_step allow) (mkNormScan [] 0 [] 0) x)) as [Hseg Hdots].
  fold T in Hseg, Hdots.
  rewrite norm_scan_name by done. rewrite Hseg, Hdots. simpl.
  destruct (dots_after_name name H1 H2) as [Hd1 Hd2].
  unfold norm_separator at 1. simpl.
  rewrite bool_decide_eq_false_2 by done.
  apply Z.eqb_neq in Hd1, Hd2. rewrite Hd1, Hd2. simpl. done.
Qed.

Lemma normalizeString_separator allow x :
  normalizeString (x ++ ["/"%char]) allow = normalizeString x allow.
Proof.
  rewrite !normalizeString_res, foldl_app. simpl. unfold norm_step at 1. simpl.
  apply norm_separator_idle, norm_separator_fresh.
Qed.

Lemma normalizeString_one allow name :
  name ≠ [] → forallb (λ c, negb (Ascii.eqb c "/")) name = true →
  name ≠ ["."%char] → name ≠ ["."%char; "."%char] →
  normalizeString name allow = name.
Proof.
  intros Hne Hfree H1 H2. rewrite normalizeString_res.
  rewrite norm_scan_name by done. simpl.
  destruct (dots_after_name name H1 H2) as [Hd1 Hd2].
  unfold norm_separator. simpl.
  rewrite bool_decide_eq_false_2 by done.
  apply Z.eqb_neq in Hd1, Hd2. by rewrite Hd1, Hd2.
Qed.

Lemma entry_name_chars n :
  entry_name n → name_chars (String.list_ascii_of_string n).
Proof.
  intros ([Hne Hfree] & H1 & H2). split_and!.
  - by destruct n.
  - by rewrite <- slash_free_forallb.
  - intros H. apply H1. by apply list_ascii_of_string_inj.
  - intros H. apply H2. by apply list_ascii_of_string_inj.
Qed.

Lemma trailingSeparator_name x name :
  name ≠ [] → forallb (λ c, negb (Ascii.eqb c "/")) name = true →
  trailingSeparator (x ++ name) = false.
Proof.
  intros Hne Hfree. destruct name as [|c name _] using rev_ind; [done|].
  unfold trailingSeparator. rewrite app_assoc, last_snoc.
  rewrite forallb_app in Hfree. simpl in Hfree.
  apply andb_true_iff in Hfree as [_ Hc]. rewrite andb_true_r in Hc.
  by apply negb_true_iff in Hc.
Qed.

Lemma isAbsolute_app x y : x ≠ [] → isAbsolute (x ++ y) = isAbsolute x.
Proof. by destruct x. Qed.

Lemma isAbsolute_name name :
  name ≠ [] → forallb (λ c, negb (Ascii.eqb c "/")) name = true →
  isAbsolute name = false.
Proof.
  destruct name as [|c name]; [done|]. simpl.
  rewrite andb_true_iff, negb_true_iff. by intros _ [-> _].
Qed.

Lemma normalize_chars l :
  l ≠ [] →
  normalizeString l (negb (isAbsolute l)) ≠ [] →
  String.list_ascii_of_string (normalize (String.string_of_list_ascii l))
  = (if isAbsolute l then ["/"%char] else [])
    ++ normalizeString l (negb (isAbsolute l))
    ++ (if trailingSeparator l then ["/"%char] else []).
Proof.
  intros Hl Hp. unfold normalize.
  rewrite String.list_ascii_of_string_of_list_ascii.
  rewrite !bool_decide_eq_false_2 by done.
  rewrite String.list_ascii_of_string_of_list_ascii.
  destruct (isAbsolute l), (trailingSeparator l); simpl;
    by rewrite ?app_nil_r.
Qed.

(** [path.join(dirPath, name)] is [name] after the prefix of
    [dirPath]. *)
Lemma join_name d n :
  entry_name n →
  String.list_ascii_of_string (join d n)
  = join_prefix d ++ String.list_ascii_of_string n.
Proof.
  intros Hn. pose proof Hn as ([Hne _] & _).
  apply entry_name_chars in Hn as (Hnil & Hfree & H1 & H2).
  set (name := String.list_ascii_of_string n) in *.
  unfold join, join_prefix. rewrite (bool_decide_eq_false_2 (n = "")) by done.
  destruct (decide (d = "")) as [->|Hd].
  - rewrite bool_decide_eq_true_2 by done. simpl.
    rewrite <- (String.string_of_list_ascii_of_string n). fold name.
    rewrite normalize_chars; [|done|].
    + rewrite (isAbsolute_name name), normalizeString_one by done.
      rewrite <- (app_nil_l name) at 2.
      rewrite trailingSeparator_name by done. by rewrite app_nil_r.
    + rewrite (isAbsolute_name name), normalizeString_one by done. done.
  - rewrite (bool_decide_eq_false_2 (d = "")) by done.
    set (l := String.list_ascii_of_string d).
    assert (Hl : l ≠ []) by (unfold l; by destruct d).
    rewrite (bool_decide_eq_false_2 (l = [])) by done.
    rewrite <- (String.string_of_list_ascii_of_string (d +:+ "/" +:+ n)).
    rewrite !list_ascii_of_string_app. fold l name. simpl.
    assert (Hp : normalizeString (l ++ "/"%char :: name)
                   (negb (isAbsolute (l ++ "/"%char :: name))) ≠ []).
    { rewrite isAbsolute_app, normalizeString_name by done.
      case_bool_decide; [done|]. by destruct (normalizeString l _). }
    rewrite normalize_chars; [|by destruct l|done].
    rewrite isAbsolute_app, normalizeString_name by done.
    assert (Htrail : trailingSeparator (l ++ "/"%char :: name) = false).
    { rewrite (cons_middle "/"%char l name), app_assoc.
      by apply trailingSeparator_name. }
    rewrite Htrail, app_nil_r. case_bool_decide as Hr.
    + by rewrite app_nil_r.
    + by rewrite <- !app_assoc.
Qed.

Lemma join_prefix_end d :
  join_prefix d = [] ∨ ∃ q, join_prefix d = q ++ ["/"%char].
Proof.
  unfold join_prefix. case_bool_decide; [by left|].
  case_bool_decide as Hp.
  - rewrite app_nil_r. destruct (isAbsolute _); [right; by exists []|by left].
  - right. eexists. by rewrite app_assoc.
Qed.

(** A joined path extended by a name is a joined path. *)
Lemma joined_name d n :
  joined d → entry_name n →
  join d n = d +:+ "/" +:+ n ∧ joined (d +:+ "/" +:+ n).
Proof.
  intros [Hd Hpre] Hn.
  assert (Hjoin : join d n = d +:+ "/" +:+ n).
  { apply list_ascii_of_string_inj.
    rewrite (join_name d n Hn), Hpre, !list_ascii_of_string_app.
    by rewrite <- app_assoc. }
  split; [done|]. split.
  { destruct d; [done|]. by rewrite append_cons. }
  apply entry_name_chars in Hn as (Hnil & Hfree & H1 & H2).
  revert Hpre. unfold join_prefix.
  rewrite !list_ascii_of_string_app. simpl.
  set (l := String.list_ascii_of_string d).
  set (name := String.list_ascii_of_string n) in *.
  assert (Hl : l ≠ []) by (unfold l; by destruct d).
  rewrite (bool_decide_eq_false_2 (l = [])) by done.
  rewrite (bool_decide_eq_false_2 (l ++ "/"%char :: name = []))
    by (by destruct l).
  rewrite isAbsolute_app, normalizeString_name by done.
  set (p := normalizeString l (negb (isAbsolute l))).
  case_bool_decide as Hp.
  - rewrite app_nil_r. intros Hlead. exfalso. clearbody p. clearbody l.
    destruct (isAbsolute l); destruct l as [|? [|? ?]]; done.
  - intros Hlead. rewrite app_assoc in Hlead.
    apply app_inj_tail in Hlead as [Hlead _].
    rewrite bool_decide_eq_false_2 by (by destruct p).
    by rewrite !app_assoc, Hlead.
Qed.

Lemma normalize_fixed_chars d :
  normalize d = d →
  let l := String.list_ascii_of_string d in
  l ≠ []
  ∧ (normalizeString l (negb (isAbsolute l)) ≠ [] →
     l = (if isAbsolute l then ["/"%char] else [])
         ++ normalizeString l (negb (isAbsolute l))
         ++ (if trailingSeparator l then ["/"%char] else [])).
Proof.
  intros Hfix l. split.
  - intros Hl. unfold normalize in Hfix. fold l in Hfix.
    rewrite bool_decide_eq_true_2 in Hfix by done.
    subst d. done.
  - intros Hp. unfold l at 1. rewrite <- Hfix.
    rewrite <- (String.string_of_list_ascii_of_string d). fold l.
    apply normalize_chars; [|done].
    intros Hl. unfold normalize in Hfix. fold l in Hfix.
    rewrite bool_decide_eq_true_2 in Hfix by done. subst d. done.
Qed.

(** The first step from a normalized path gives a joined path. *)
Lemma joined_first d n :
  normalize d = d → entry_name n → joined (join d n).
Proof.
  intros Hfix Hn. pose proof (join_name d n Hn) as Hjoin.
  pose proof (entry_name_chars n Hn) as (Hnil & Hfree & H1 & H2).
  set (name := String.list_ascii_of_string n) in *.
  split.
  { intros Hs. rewrite Hs in Hjoin. simpl in Hjoin.
    symmetry in Hjoin. apply app_eq_nil in Hjoin as [_ Hjoin]. done. }
  destruct (normalize_fixed_chars d Hfix) as [Hl Hshape].
  unfold join_prefix at 1. rewrite Hjoin.
  revert Hjoin Hshape. unfold join_prefix.
  generalize (String.list_ascii_of_string d) Hl. clear Hl. intros l Hl.
  rewrite (bool_decide_eq_false_2 (l = [])) by done.
  remember (isAbsolute l) as a eqn:Ha.
  remember (normalizeString l (negb a)) as p eqn:Hpdef.
  remember (trailingSeparator l) as t eqn:Ht.
  intros Hjoin Hshape. case_bool_decide as Hp.
  - rewrite app_nil_r. destruct a.
    + simpl. rewrite ?bool_decide_eq_false_2 by done. simpl.
      assert (Hone : normalizeString ("/"%char :: name) false = name).
      { change ("/"%char :: name) with ([] ++ "/"%char :: name).
        by rewrite normalizeString_name. }
      rewrite Hone. by rewrite bool_decide_eq_false_2.
    + simpl. rewrite bool_decide_eq_false_2 by done.
      rewrite isAbsolute_name by done. simpl.
      rewrite normalizeString_one by done.
      by rewrite bool_decide_eq_false_2.
  - specialize (Hshape Hp).
    set (lead := if a then ["/"%char] else []) in *.
    assert (Hx : lead ++ p ≠ []) by (destruct lead, p; done).
    assert (Habs : isAbsolute (lead ++ p) = a).
    { rewrite Ha, Hshape, app_assoc. symmetry. by apply isAbsolute_app. }
    assert (Hnorm : normalizeString (lead ++ p) (negb a) = p).
    { rewrite Hpdef at 2. rewrite Hshape, app_assoc.
      destruct t.
      - by rewrite normalizeString_separator.
      - by rewrite app_nil_r. }
    assert (Heq : (lead ++ p ++ ["/"%char]) ++ name
                  = (lead ++ p) ++ "/"%char :: name)
      by (by rewrite <- !app_assoc).
    rewrite Heq.
    rewrite bool_decide_eq_false_2 by (by destruct (lead ++ p)).
    rewrite isAbsolute_app by done. rewrite Habs. fold lead.
    rewrite normalizeString_name by done. rewrite Hnorm.
    rewrite (bool_decide_eq_false_2 (p = [])) by done.
    rewrite bool_decide_eq_false_2 by (by destruct p).
    by rewrite <- !app_assoc.
Qed.

Lemma append_inj_l a b c : a +:+ b = a +:+ c → b = c.
Proof.
  induction a as [|x a IH]; [done|]. rewrite !append_cons. intros [= H]. auto.
Qed.

Lemma append_assoc a b c : (a +:+ b) +:+ c = a +:+ (b +:+ c).
Proof.
  induction a as [|x a IH]; [done|]. rewrite !append_cons. by rewrite IH.
Qed.

Lemma extend_nonempty segs :
  Forall good_name segs → segs ≠ [] → extend "" segs ≠ "".
Proof.
  destruct segs as [|a segs]; [done|]. intros Hgood _.
  apply Forall_cons in Hgood as [[Ha _] Hgood].
  unfold extend. simpl. change (relative_join "" a) with a.
  pose proof (extend_longer segs a Hgood) as Hlen. unfold extend in Hlen.
  intros Hs. rewrite Hs in Hlen. destruct a; [done|]. simpl in Hlen. lia.
Qed.

(** The full path of an entry below a normalized path: the names of the
    way, after the prefix of the path. *)
Lemma full_path_joined d segs :
  normalize d = d → Forall entry_name segs → segs ≠ [] →
  full_path d segs
  = String.string_of_list_ascii (join_prefix d) +:+ extend "" segs
  ∧ joined (full_path d segs).
Proof.
  intros Hfix. induction segs as [|n segs IH] using rev_ind; [done|].
  intros Hnames _. apply Forall_app in Hnames as [Hsegs Hn].
  rewrite Forall_singleton in Hn.
  unfold full_path. rewrite foldl_app. simpl. fold (full_path d segs).
  destruct segs as [|a segs'].
  - simpl. split; [|by apply joined_first].
    apply list_ascii_of_string_inj.
    rewrite join_name, list_ascii_of_string_app by done.
    by rewrite String.list_ascii_of_string_of_list_ascii.
  - destruct (IH Hsegs ltac:(done)) as [Hpath Hjoined].
    destruct (joined_name _ n Hjoined Hn) as [-> Hjoined']. split; [|done].
    rewrite Hpath, extend_snoc, relative_join_nonempty.
    + by rewrite !append_assoc.
    + apply extend_nonempty; [|done].
      apply (Forall_impl _ _ _ Hsegs). by intros x [Hx _].
Qed.

(** ** [path.basename] of a path that ends in a name *)

Lemma base_loop_stopped l n : ∀ st,
  FileParser.stopped st = true → FileParser.base_loop l n st = st.
Proof.
  induction n as [|n IH]; intros st Hst; [done|]. simpl.
  unfold FileParser.base_step at 1. rewrite Hst. by apply IH.
Qed.

Lemma nth_name (name : list ascii) k :
  forallb (λ c, negb (Ascii.eqb c "/")) name = true → k < length name →
  Ascii.eqb (nth k name "000"%char) "/" = false.
Proof.
  intros Hfree Hk. rewrite forallb_forall in Hfree.
  apply negb_true_iff, Hfree, nth_In. exact Hk.
Qed.

(** Inside the last name the scan changes nothing once it has seen the
    end of the name. *)
Lemma base_loop_inside pre name k : ∀ st,
  forallb (λ c, negb (Ascii.eqb c "/")) name = true → k ≤ length name →
  FileParser.stopped st = false → FileParser.endPos st ≠ (-1)%Z →
  FileParser.base_loop (pre ++ name) (length pre + k) st
  = FileParser.base_loop (pre ++ name) (length pre) st.
Proof.
  induction k as [|k IH]; intros st Hfree Hk Hst Hend.
  { by rewrite Nat.add_0_r. }
  rewrite Nat.add_succ_r. simpl.
  unfold FileParser.base_step at 1. rewrite Hst.
  rewrite app_nth2_plus, nth_name by (done || lia).
  apply Z.eqb_neq in Hend. rewrite Hend. apply Z.eqb_neq in Hend.
  apply IH; [done|lia|done|done].
Qed.

(** The scan of a path that ends in a name stops before the name. *)
Lemma base_loop_name pre name :
  pre = [] ∨ (∃ q, pre = q ++ ["/"%char]) →
  name ≠ [] → forallb (λ c, negb (Ascii.eqb c "/")) name = true →
  ∃ b, FileParser.base_loop (pre ++ name) (length (pre ++ name))
         (FileParser.mkBaseScan 0 (-1) true false)
       = FileParser.mkBaseScan (Z.of_nat (length pre))
           (Z.of_nat (length (pre ++ name))) false b.
Proof.
  intros Hpre Hne Hfree.
  destruct name as [|c0 name0] eqn:Hname; [done|]. rewrite <- Hname in *.
  assert (Hlen : length name = S (length name0)) by (by rewrite Hname).
  clear Hne.
  rewrite length_app, Hlen, Nat.add_succ_r. simpl.
  unfold FileParser.base_step at 1. simpl.
  rewrite app_nth2_plus.
  rewrite nth_name by (done || lia). simpl.
  rewrite base_loop_inside by (done || (simpl; lia)).
  replace (Z.of_nat (length pre + length name0) + 1)%Z
    with (Z.of_nat (S (length pre + length name0))) by lia.
  destruct Hpre as [->|[q ->]].
  - simpl. by exists false.
  - rewrite length_app, Nat.add_1_r. simpl.
    unfold FileParser.base_step at 1. simpl.
    assert (Hq : nth (length q) ((q ++ ["/"%char]) ++ name) "000"%char
                 = "/"%char).
    { rewrite <- app_assoc. rewrite <- (Nat.add_0_r (length q)).
      by rewrite app_nth2_plus. }
    rewrite Hq. simpl. rewrite base_loop_stopped by done.
    exists true. f_equal. lia.
Qed.

Lemma basename_name pre name :
  pre = [] ∨ (∃ q, pre = q ++ ["/"%char]) →
  name ≠ [] → forallb (λ c, negb (Ascii.eqb c "/")) name = true →
  FileParser.basename (String.string_of_list_ascii (pre ++ name))
  = String.string_of_list_ascii name.
Proof.
  intros Hpre Hne Hfree. unfold FileParser.basename.
  rewrite String.list_ascii_of_string_of_list_ascii.
  destruct (base_loop_name pre name Hpre Hne Hfree) as [b ->]. simpl.
  destruct (Z.of_nat (length (pre ++ name)) =? -1)%Z eqn:Hz;
    [apply Z.eqb_eq in Hz; lia|].
  f_equal. rewrite !Nat2Z.id, drop_app_length, length_app.
  replace (length pre + length name - length pre) with (length name) by lia.
  apply firstn_all.
Qed.

(** The base name of what [path.join] returns is the name it was given. *)
Lemma basename_join d n :
  entry_name n → FileParser.basename (join d n) = n.
Proof.
  intros Hn. pose proof (join_name d n Hn) as Hjoin.
  apply entry_name_chars in Hn as (Hnil & Hfree & _ & _).
  rewrite <- (String.string_of_list_ascii_of_string (join d n)), Hjoin.
  rewrite basename_name; [|apply join_prefix_end|done|done].
  apply String.string_of_list_ascii_of_string.
Qed.

Lemma basename_full_path d segs :
  Forall entry_name segs → segs ≠ [] →
  FileParser.basename (full_path d segs) = last_name segs.
Proof.
  intros Hnames Hne. destruct segs as [|n segs _] using rev_ind; [done|].
  apply Forall_app in Hnames as [_ Hn]. rewrite Forall_singleton in Hn.
  unfold full_path, last_name. rewrite foldl_app, last_snoc. simpl.
  by apply basename_join.
Qed.

(** ** Names of entries along a path *)

Lemma dot_free_Dir children :
  dot_free (Dir children) = true ↔
  ∀ n e, (n, e) ∈ children → n ≠ "." ∧ n ≠ ".." ∧ dot_free e = true.
Proof.
  simpl. induction children as [|[n e] rest IH].
  - split; [|done]. intros _ n e Hin. by apply elem_of_nil in Hin.
  - rewrite !andb_true_iff, !negb_true_iff, !bool_decide_eq_false, IH. split.
    + intros [[[H1 H2] He] Hrest] n' e' Hin.
      apply elem_of_cons in Hin as [Hin|Hin];
        [by simplify_eq|by apply (Hrest n')].
    + intros Hall. split.
      * destruct (Hall n e (list_elem_of_here _ _)) as (? & ? & ?). done.
      * intros n' e' Hin. by apply (Hall n'), list_elem_of_further.
Qed.

Lemma real_located_names : ∀ files segs e,
  real_located files segs e →
  names_ok (Dir files) → dot_free (Dir files) = true →
  Forall entry_name segs.
Proof.
  intros files segs e Hloc.
  induction Hloc as [files name e Hin|files name ch segs e Hin Hloc IH];
    intros Hok Hdots; apply names_ok_Dir in Hok as [_ Hall];
    destruct (Hall _ _ Hin) as [Hname He];
    destruct (proj1 (dot_free_Dir files) Hdots _ _ Hin) as (H1 & H2 & Hd).
  - by apply Forall_singleton.
  - apply Forall_cons. split; [done|]. by apply IH.
Qed.

(** ** Every source file has its node *)

Section SecondGraphComplete.

Variable ts_imports : string → string → list string.

(** Take a root path that is normalized and a tree whose names are
    names of directory entries.  Whenever the second traversal returns,
    every regular file with a source suffix that is reached through real
    directories, no path on the way ignored, has its node in the graph:
    its id is the full path of the file as [path.join] builds it, its
    label the name of the file, its imports what the parser returns on
    its text. *)
Theorem FileParser_complete ig rootPath root g segs content :
  names_ok (Dir root) → dot_free (Dir root) = true →
  normalize rootPath = rootPath →
  FileParser.traverseDirectory ts_imports ig rootPath root = Ok g →
  real_located root segs (File content) →
  passes ig "" segs = true →
  FileParser.has_source_suffix (last_name segs) = true →
  FileParser.mkFileNode
    (full_path rootPath segs)
    (last_name segs)
    (ts_imports (full_path rootPath segs) content)
  ∈ FileParser.getNodes g.
Proof.
  intros Hok Hdots Hfix ->%traverseDirectory_addNodes Hloc Hp Hs.
  rewrite elem_of_getNodes.
  set (full := full_path rootPath segs).
  assert (Hin : (full, content) ∈ scan_entry ig rootPath "" "" (Dir root)).
  { apply scan_entry_located. right. by exists root, segs. }
  assert (Hkey : full ∈ (call_of ts_imports
                           <$> scan_entry ig rootPath "" "" (Dir root)).*1).
  { apply list_elem_of_fmap.
    exists (call_of ts_imports (full, content)).
    split; [done|]. apply list_elem_of_fmap. eauto. }
  destruct (last_call _ _ Hkey) as (c1 & imps & c2 & Hcalls & Hlast).
  exists full. apply elem_of_addNodes. exists c1, imps, c2.
  split; [done|]. split; [done|].
  assert (Hcall : (full, imps) ∈ call_of ts_imports
                                   <$> scan_entry ig rootPath "" "" (Dir root)).
  { rewrite Hcalls. apply elem_of_app. right. apply list_elem_of_here. }
  apply list_elem_of_fmap in Hcall as ([p c] & [= Hfull ->] & Hscan).
  simpl in Hfull. subst p.
  apply scan_entry_located in Hscan
    as [(H & _)|(ch & segs' & [= <-] & Hloc' & _ & _ & Hfull)]; [done|].
  pose proof (real_located_names _ _ _ Hloc Hok Hdots) as Hnames.
  pose proof (real_located_names _ _ _ Hloc' Hok Hdots) as Hnames'.
  pose proof (real_located_nonempty _ _ _ Hloc) as Hne.
  pose proof (real_located_nonempty _ _ _ Hloc') as Hne'.
  unfold full in Hfull.
  rewrite (proj1 (full_path_joined rootPath segs Hfix Hnames Hne)) in Hfull.
  rewrite (proj1 (full_path_joined rootPath segs' Hfix Hnames' Hne')) in Hfull.
  apply append_inj_l, extend_inj in Hfull;
    [|by apply (Forall_impl _ _ _ Hnames); intros x [Hx _]
     |by apply (Forall_impl _ _ _ Hnames'); intros x [Hx _]].
  subst segs'.
  pose proof (real_located_deterministic _ _ _ Hloc Hok _ Hloc') as [= <-].
  simpl. f_equal. symmetry. by apply basename_full_path.
Qed.

End SecondGraphComplete.

Lemma FileParser_complete_witness :
  names_ok (Dir project)
  ∧ dot_free (Dir project) = true
  ∧ normalize "/w/" = "/w/"
  ∧ FileParser.traverseDirectory ts_imports_sample (ignore_no_rules []) "/w/"
      project
    = Ok [ ("/w/src/main.ts",
            FileParser.mkFileNode "/w/src/main.ts" "main.ts" ["react"; "./util"]);
           ("/w/src/util.ts",
            FileParser.mkFileNode "/w/src/util.ts" "util.ts" []) ]
  ∧ real_located project ["src"; "main.ts"] (File main_text)
  ∧ FileParser.mkFileNode
      (full_path "/w/" ["src"; "main.ts"])
      (last_name ["src"; "main.ts"])
      (ts_imports_sample (full_path "/w/" ["src"; "main.ts"]) main_text)
    ∈ FileParser.getNodes
        [ ("/w/src/main.ts",
           FileParser.mkFileNode "/w/src/main.ts" "main.ts" ["react"; "./util"]);
          ("/w/src/util.ts",
           FileParser.mkFileNode "/w/src/util.ts" "util.ts" []) ].
Proof.
  assert (Hok : names_ok (Dir project)).
  { simpl. unfold good_name. repeat split; closed_fact. }
  assert (Ht : FileParser.traverseDirectory ts_imports_sample
                 (ignore_no_rules []) "/w/" project
               = Ok [ ("/w/src/main.ts",
                       FileParser.mkFileNode "/w/src/main.ts" "main.ts"
                         ["react"; "./util"]);
                      ("/w/src/util.ts",
                       FileParser.mkFileNode "/w/src/util.ts" "util.ts" []) ])
    by (vm_compute; reflexivity).
  split; [exact Hok|]. split; [reflexivity|]. split; [reflexivity|].
  split; [exact Ht|]. split; [exact project_main_real_located|].
  apply (FileParser_complete ts_imports_sample (ignore_no_rules []) "/w/"
           project _ ["src"; "main.ts"] main_text Hok eq_refl eq_refl Ht
           project_main_real_located).
  - reflexivity.
  - vm_compute. reflexivity.
Defined.

(** * Cycles of symbolic links, in general *)

Lemma admitted_app ig : ∀ s1 dir s2,
  admitted ig dir (s1 ++ s2)
  = admitted ig dir s1 && admitted ig (extend dir s1) s2.
Proof.
  induction s1 as [|a s1 IH]; intros dir s2; [done|]. simpl.
  rewrite IH. by rewrite andb_assoc.
Qed.

(** A traversal that returns has returned from every directory it let
    through, with less fuel. *)
Lemma walk_descend ig root : ∀ fuel dir files evs segs children,
  walk ig root fuel dir files = Ok evs →
  located root files segs (IsDirectory children) →
  admitted ig dir segs = true →
  ∃ fuel' below, fuel' < fuel
                 ∧ walk ig root fuel' (extend dir segs) children = Ok below.
Proof.
  induction fuel as [|fuel IH]; intros dir files evs segs children Hw Hloc Hadm;
    [done|].
  simpl in Hw.
  inversion Hloc as [? n0 e0 ? Hin0 Hst0|? n0 e0 ch0 segs0 ? Hin0 Hst0 Hloc0];
    subst; apply admitted_cons in Hadm as (Hig & Hnm & Hadm);
    destruct (walk_files_entry_directory ig root _ dir n0 e0 _
                Hig Hnm Hst0 files evs Hin0 Hw) as (_ & below & Hb & _).
  - exists fuel, below. split; [lia|done].
  - destruct (IH _ _ _ _ _ Hb Hloc0 Hadm) as (fuel' & below' & Hlt & Hw').
    exists fuel', below'. split; [lia|done].
Qed.

Lemma walk_cycle ig root dirA LA segsAD LD name e :
  (segsAD = [] ∧ LD = LA ∨ located root LA segsAD (IsDirectory LD)) →
  (name, e) ∈ LD →
  statSync root e = Ok (IsDirectory LA) →
  (∀ k, admitted ig (lap dirA (segsAD ++ [name]) k) (segsAD ++ [name]) = true) →
  ∀ fuel k evs,
    walk ig root fuel (lap dirA (segsAD ++ [name]) k) LA = Ok evs → False.
Proof.
  intros Hat Hin Hst Hadm fuel.
  induction fuel as [fuel IH] using lt_wf_ind. intros k evs Hw.
  pose proof (Hadm k) as Hk. rewrite admitted_app in Hk.
  apply andb_true_iff in Hk as [Hk1 Hk2].
  apply admitted_cons in Hk2 as (Hig & Hnm & _).
  assert (Hnext : ∃ fuel' below,
            fuel' < fuel
            ∧ walk ig root fuel' (lap dirA (segsAD ++ [name]) (S k)) LA
              = Ok below).
  { destruct Hat as [[-> ->]|Hloc].
    - destruct fuel as [|fuel]; [done|]. simpl in Hw.
      destruct (walk_files_entry_directory ig root _ _ name e _
                  Hig Hnm Hst LA evs Hin Hw) as (_ & below & Hb & _).
      exists fuel, below. split; [lia|done].
    - destruct (walk_descend ig root _ _ _ _ _ _ Hw Hloc Hk1)
        as (fuel1 & below1 & Hlt1 & Hw1).
      destruct fuel1 as [|fuel1]; [done|]. simpl in Hw1.
      destruct (walk_files_entry_directory ig root _ _ name e _
                  Hig Hnm Hst LD below1 Hin Hw1) as (_ & below & Hb & _).
      exists fuel1, below. split; [lia|].
      simpl. by rewrite extend_snoc. }
  destruct Hnext as (fuel' & below & Hlt & Hw').
  by apply (IH fuel' Hlt (S k) below).
Qed.

Section Cycle.

Variable ignore_add : list string → string → bool.
Variable JSON_parse : string → option json.

(** A cycle of symbolic links keeps the build from returning.  Take a
    directory A that the traversal enters, a directory D that it enters
    from A (or A itself), and in D an entry that resolves to A: a
    symbolic link back up.  If no path around the cycle is ignored, then
    with no amount of fuel does the build return a graph. *)
Theorem symlink_cycle_never_returns root gitignore segsA LA segsAD LD name e :
  readFileSync root ".gitignore" = Ok gitignore →
  (segsA = [] ∧ LA = root ∨ located root root segsA (IsDirectory LA)) →
  admitted (ignore_add [gitignore]) "" segsA = true →
  (segsAD = [] ∧ LD = LA ∨ located root LA segsAD (IsDirectory LD)) →
  (name, e) ∈ LD →
  statSync root e = Ok (IsDirectory LA) →
  (∀ k, admitted (ignore_add [gitignore])
          (lap (extend "" segsA) (segsAD ++ [name]) k) (segsAD ++ [name])
        = true) →
  ∀ fuel g, buildGraph ignore_add JSON_parse fuel (Some root) ≠ Ok g.
Proof.
  intros Hg HA HadmA HD Hin Hst Hadm fuel g Hb.
  apply buildGraph_Ok in Hb as (gitignore' & evs & deps & Hg' & Hw & _ & _).
  rewrite Hg in Hg'. injection Hg' as <-.
  destruct HA as [[-> ->]|HlocA].
  - by apply (walk_cycle _ root "" root segsAD LD name e HD Hin Hst Hadm
                fuel 0 evs).
  - destruct (walk_descend _ root _ _ _ _ _ _ Hw HlocA HadmA)
      as (fuel' & below & _ & Hw').
    by apply (walk_cycle _ root (extend "" segsA) LA segsAD LD name e
                HD Hin Hst Hadm fuel' 0 below).
Qed.

End Cycle.

Lemma symlink_cycle_never_returns_witness :
  statSync project_cycle (Symlink []) = Ok (IsDirectory project_cycle)
  ∧ ∀ fuel g,
      buildGraph ignore_no_rules JSON_parse_sample fuel (Some project_cycle)
      ≠ Ok g.
Proof.
  split; [reflexivity|].
  apply (symlink_cycle_never_returns ignore_no_rules JSON_parse_sample
           project_cycle "" [] project_cycle [] project_cycle "loop"
           (Symlink [])).
  - reflexivity.
  - by left.
  - reflexivity.
  - by left.
  - apply list_elem_of_further, list_elem_of_here.
  - reflexivity.
  - intros k. reflexivity.
Defined.

(** * The number of extracted imports *)

Lemma parseImports_loop_count n : ∀ s,
  15 * length (parseImports_loop n s) ≤ length s.
Proof.
  induction n as [|n IH]; intros s; simpl; [lia|].
  destruct (Regex.exec Regex.importRegex s) as [[rest cap]|] eqn:E;
    simpl; [|lia].
  apply RegexFacts.exec_reads in E.
  assert (Regex.min_width Regex.importRegex = 15) as Hw by reflexivity.
  rewrite Hw in E. specialize (IH rest). lia.
Qed.

(** Every extracted import accounts for at least fifteen characters of
    the text, the least a match of the pattern reads; so the loop of
    [parseImports] ends. *)
Theorem parseImports_count content :
  15 * length (parseImports content) ≤ String.length content.
Proof.
  unfold parseImports.
  assert (Hlen : length (String.list_ascii_of_string content)
                 = String.length content).
  { induction content as [|c s IH]; [done|]. simpl. by rewrite IH. }
  rewrite <- Hlen. apply parseImports_loop_count.
Qed.
